(** * The row-based texture atlas allocator (rts/Rendering/Textures/RowAtlasAlloc.cpp)

    A shallow embedding of [CRowAtlasAlloc] and the properties of its
    packing pass: comparator, capacity estimation, row creation, best-fit
    row search and the allocation driver.  Two further parts of the engine
    follow in modules of their own: the CPU topology probing
    (rts/System/Platform/Linux/CpuTopology.cpp) and the control of the
    floating-point environment (rts/lib/streflop/FPUSettings.h). *)

From Stdlib Require Import ZArith Floats.SpecFloat.
From stdpp Require Import list sets sorting strings.

Local Open Scope Z_scope.

(** ** Machine arithmetic

    [int] is a 32-bit two's complement integer, carried as a [Z] in
    [-2^31, 2^31); every arithmetic operation wraps.  (Signed overflow is
    undefined in C++; the wrap is what the targets of the engine do.) *)

Definition wrap32 (z : Z) : Z := (z + 2^31) mod 2^32 - 2^31.
Definition to_uint32 (z : Z) : Z := z mod 2^32.

Definition add32 (a b : Z) : Z := wrap32 (a + b).
Definition sub32 (a b : Z) : Z := wrap32 (a - b).
Definition mul32 (a b : Z) : Z := wrap32 (a * b).
(** [a << n]; a shift count outside [0, 32) is undefined in C++ and is
    reduced modulo 32 here. *)
Definition shl32 (a n : Z) : Z := wrap32 (Z.shiftl a (n mod 32)).

(** [std::bit_ceil<uint32_t>]: the smallest power of two not below [u];
    undefined above [2^31], where the model wraps. *)
Definition bit_ceil (u : Z) : Z := to_uint32 (2 ^ Z.log2_up u).
(** [std::bit_width]: the number of bits needed to write [u]. *)
Definition bit_width (u : Z) : Z := if u =? 0 then 0 else Z.log2 u + 1.

(** ** Single-precision floats

    [float] is IEEE-754 binary32, with the correctly rounded operations of
    [SpecFloat] at precision 24 and exponent bound 128. *)

Definition float_of_int (z : Z) : spec_float := binary_normalize 24 128 z 0 false.
Definition fmul : spec_float → spec_float → spec_float := SFmul 24 128.
Definition fdiv : spec_float → spec_float → spec_float := SFdiv 24 128.
Definition flt : spec_float → spec_float → bool := SFltb.
Definition feq : spec_float → spec_float → bool := SFeqb.

(** The literal [1.2f]: the float nearest to 12/10. *)
Definition f1_2 : spec_float := S754_finite false 10066330 (-23).
(** The literal [10000.0f]. *)
Definition f10000 : spec_float := S754_finite false 10240000 (-10).

(** ** Data

    The classes are declared in RowAtlasAlloc.h and IAtlasAllocator.h, which
    are not among the sources at hand; their members are taken from the use
    the code makes of them and from the data model of the specification. *)

(** Modelled from the spec: a pair of [int], for sizes. *)
Record int2 := mk_int2 { x : Z; y : Z }.

(** Modelled from the spec: the output rectangle (x1, y1, x2, y2) of an
    entry; each component holds the integer that [Allocate] assigns to
    it. *)
Record float4 := mk_float4 { x1 : Z; y1 : Z; x2 : Z; y2 : Z }.

(** Modelled from the spec: an entry has a unique name, a requested size and
    an output rectangle. *)
Record SAtlasEntry := mk_SAtlasEntry {
  size : int2;
  name : string;
  texCoords : float4
}.

(** Modelled from the spec: a row has a vertical position, a fixed height
    and an occupied width; [width] is the occupied width. *)
Record Row := mk_Row {
  position : Z;
  height : Z;
  width : Z
}.

(** Modelled from the spec: the allocator holds the registry of entries
    keyed by name, the current and the maximum surface dimensions, the
    configured number of mip levels, the next free row position and the
    rows.  [entries] lists the registry in the iteration order of the hash
    map, which is arbitrary; [minDim] is the value that [GetMinDim()]
    returns, the smallest dimension of the entries. *)
Record CRowAtlasAlloc := mk_CRowAtlasAlloc {
  entries : list (string * SAtlasEntry);
  atlasSize : int2;
  maxsize : int2;
  numLevels : Z;
  minDim : Z;
  nextRowPos : Z;
  imageRows : list Row
}.

Global Instance Row_inhabited : Inhabited Row := populate (mk_Row 0 0 0).

Definition set_atlasSize (st : CRowAtlasAlloc) (a : int2) : CRowAtlasAlloc :=
  mk_CRowAtlasAlloc (entries st) a (maxsize st) (numLevels st) (minDim st)
    (nextRowPos st) (imageRows st).

Definition set_entries (st : CRowAtlasAlloc) (es : list (string * SAtlasEntry))
  : CRowAtlasAlloc :=
  mk_CRowAtlasAlloc es (atlasSize st) (maxsize st) (numLevels st) (minDim st)
    (nextRowPos st) (imageRows st).

Definition set_imageRows (st : CRowAtlasAlloc) (rs : list Row) : CRowAtlasAlloc :=
  mk_CRowAtlasAlloc (entries st) (atlasSize st) (maxsize st) (numLevels st)
    (minDim st) (nextRowPos st) rs.

(** ** CompareTex *)

(** [std::string::operator>]: bytewise lexicographic order. *)
Definition string_gt (s1 s2 : string) : bool :=
  match String.compare s1 s2 with Gt => true | _ => false end.

Definition CompareTex (tex1 tex2 : SAtlasEntry) : bool :=
  if y (size tex2) <? y (size tex1) then true
  else if y (size tex1) <? y (size tex2) then false
  else if x (size tex2) <? x (size tex1) then true
  else if x (size tex1) <? x (size tex2) then false
  else if string_gt (name tex1) (name tex2) then true
  else if string_gt (name tex2) (name tex1) then false
  else false.

(** ** EstimateNeededSize *)

Definition at_max (st : CRowAtlasAlloc) : bool :=
  (x (maxsize st) <=? x (atlasSize st)) && (y (maxsize st) <=? y (atlasSize st)).

Definition entries_area (es : list (string * SAtlasEntry)) : Z :=
  fold_left (fun acc it => add32 acc (mul32 (x (size it.2)) (y (size it.2)))) es 0.

Definition rows_free (ax : Z) (rows : list Row) (free0 : Z) : Z :=
  fold_left (fun acc row => add32 acc (mul32 (height row) (sub32 ax (width row))))
    rows free0.

(** The test [spaceFree < spaceNeeded * 1.2f]. *)
Definition lacks_slack (spaceFree spaceNeeded : Z) : bool :=
  flt (float_of_int spaceFree) (fmul (float_of_int spaceNeeded) f1_2).

(** One run of the body of the resize loop, past the [break]. *)
Definition estimate_resize (spaceFree : Z) (st : CRowAtlasAlloc) : Z * CRowAtlasAlloc :=
  let a := atlasSize st in
  let '(free1, a1) :=
    if shl32 (x a) 1 <=? x (maxsize st)
    then (add32 spaceFree (mul32 (x a) (y a)),
          mk_int2 (Z.min (x (maxsize st)) (shl32 (x a) 1)) (y a))
    else (spaceFree, a) in
  let '(free2, a2) :=
    if shl32 (y a1) 1 <=? y (maxsize st)
    then (add32 free1 (mul32 (x a1) (y a1)),
          mk_int2 (x a1) (Z.min (y (maxsize st)) (shl32 (y a1) 1)))
    else (free1, a1) in
  (free2, set_atlasSize st a2).

(** The [while] loop; [None] when the fuel does not suffice. *)
Fixpoint estimate_loop (fuel : nat) (spaceNeeded spaceFree : Z) (st : CRowAtlasAlloc)
  : option CRowAtlasAlloc :=
  if lacks_slack spaceFree spaceNeeded then
    if at_max st then Some st
    else match fuel with
         | O => None
         | S fuel' =>
             let '(free', st') := estimate_resize spaceFree st in
             estimate_loop fuel' spaceNeeded free' st'
         end
  else Some st.

Definition initial_free (st : CRowAtlasAlloc) : Z :=
  rows_free (x (atlasSize st)) (imageRows st)
    (mul32 (x (atlasSize st)) (sub32 (y (atlasSize st)) (nextRowPos st))).

Definition EstimateNeededSize (fuel : nat) (st : CRowAtlasAlloc) : option CRowAtlasAlloc :=
  estimate_loop fuel (entries_area (entries st)) (initial_free st) st.

(** ** AddRow *)

(** The resize step of [AddRow]: both axes doubled, each clamped. *)
Definition grow (st : CRowAtlasAlloc) : CRowAtlasAlloc :=
  set_atlasSize st
    (mk_int2 (Z.min (x (maxsize st)) (shl32 (x (atlasSize st)) 1))
             (Z.min (y (maxsize st)) (shl32 (y (atlasSize st)) 1))).

(** Modelled from the spec: the constructor [Row(position, height)] is
    declared in the header; a new row has occupied width 0. *)
Definition new_Row (ypos rowHeight : Z) : Row := mk_Row ypos rowHeight 0.

(** [imageRows.emplace_back(nextRowPos, wantedRowHeight)] and
    [nextRowPos += wantedRowHeight]. *)
Definition push_row (st : CRowAtlasAlloc) (wantedRowHeight : Z) : CRowAtlasAlloc :=
  mk_CRowAtlasAlloc (entries st) (atlasSize st) (maxsize st) (numLevels st)
    (minDim st) (add32 (nextRowPos st) wantedRowHeight)
    (imageRows st ++ [new_Row (nextRowPos st) wantedRowHeight]).

(** A [Row*] is the index of the row in [imageRows]; [nullptr] is [None].
    The outer [None] is a loop that outlives the fuel. *)
Fixpoint AddRow (fuel : nat) (st : CRowAtlasAlloc) (glyphWidth glyphHeight : Z)
  : option (CRowAtlasAlloc * option nat) :=
  let wantedRowHeight := glyphHeight in
  if y (atlasSize st) <? add32 (nextRowPos st) wantedRowHeight then
    if at_max st then Some (st, None)
    else match fuel with
         | O => None
         | S fuel' => AddRow fuel' (grow st) glyphWidth glyphHeight
         end
  else Some (push_row st wantedRowHeight, Some (length (imageRows st))).

(** ** FindRow *)

Definition row_ratio (row : Row) (glyphHeight : Z) : spec_float :=
  fdiv (float_of_int (height row)) (float_of_int glyphHeight).

(** The three locals [bestWidth], [bestRatio], [bestRow]. *)
Record best := mk_best { bestWidth : Z; bestRatio : spec_float; bestRow : option nat }.

Definition FindRow_step (ax glyphWidth glyphHeight : Z) (b : best) (i : nat) (row : Row)
  : best :=
  if sub32 ax (width row) <? glyphWidth then b
  else if height row <? glyphHeight then b
  else
    let ratio := row_ratio row glyphHeight in
    if flt ratio (bestRatio b) || (feq ratio (bestRatio b) && (width row <? bestWidth b))
    then mk_best (width row) ratio (Some i)
    else b.

Fixpoint FindRow_scan (ax glyphWidth glyphHeight : Z) (b : best) (i : nat)
  (rows : list Row) : best :=
  match rows with
  | [] => b
  | row :: rows' =>
      FindRow_scan ax glyphWidth glyphHeight
        (FindRow_step ax glyphWidth glyphHeight b i row) (S i) rows'
  end.

Definition FindRow (fuel : nat) (st : CRowAtlasAlloc) (glyphWidth glyphHeight : Z)
  : option (CRowAtlasAlloc * option nat) :=
  let b := FindRow_scan (x (atlasSize st)) glyphWidth glyphHeight
             (mk_best (x (atlasSize st)) f10000 None) 0%nat (imageRows st) in
  match bestRow b with
  | Some i => Some (st, Some i)
  | None => AddRow fuel st glyphWidth glyphHeight
  end.

(** ** GetNumTexLevels *)

(** Modelled from the spec: [GetMinDim] is declared in the header; it
    returns the smallest dimension of the registered entries, kept in the
    allocator. *)
Definition GetMinDim (st : CRowAtlasAlloc) : Z := minDim st.

Definition GetNumTexLevels (st : CRowAtlasAlloc) : Z :=
  Z.min (bit_width (to_uint32 (GetMinDim st))) (numLevels st).

(** ** Allocate *)

(** [std::set<std::string>::insert] on the sorted sequence of the set. *)
Fixpoint set_insert (s : string) (l : list string) : list string :=
  match l with
  | [] => [s]
  | t :: l' =>
      match String.compare s t with
      | Lt => s :: t :: l'
      | Eq => t :: l'
      | Gt => t :: set_insert s l'
      end
  end.

Definition sortedNames (es : list (string * SAtlasEntry)) : list string :=
  fold_left (fun acc entry => set_insert entry.1 acc) es [].

(** [entries[name]].  A pointer to an entry is carried as its key; the
    names that [Allocate] looks up are registered, so that the insertion
    that [operator[]] makes for an unknown name never happens. *)
Definition default_entry : SAtlasEntry :=
  mk_SAtlasEntry (mk_int2 0 0) "" (mk_float4 0 0 0 0).

Fixpoint entry_at (es : list (string * SAtlasEntry)) (k : string) : SAtlasEntry :=
  match es with
  | [] => default_entry
  | (k', e) :: es' => if String.eqb k' k then e else entry_at es' k
  end.

Fixpoint entry_update (es : list (string * SAtlasEntry)) (k : string)
  (f : SAtlasEntry → SAtlasEntry) : list (string * SAtlasEntry) :=
  match es with
  | [] => []
  | (k', e) :: es' =>
      if String.eqb k' k then (k', f e) :: es' else (k', e) :: entry_update es' k f
  end.

(** [std::stable_sort]: insertion from the right keeps entries that the
    comparator does not order in their original order. *)
Fixpoint stable_insert {A} (comp : A → A → bool) (a : A) (l : list A) : list A :=
  match l with
  | [] => [a]
  | b :: l' => if comp b a then b :: stable_insert comp a l' else a :: b :: l'
  end.

Definition stable_sort {A} (comp : A → A → bool) (l : list A) : list A :=
  foldr (stable_insert comp) [] l.

Definition memtextures (es : list (string * SAtlasEntry)) : list string :=
  stable_sort (fun p1 p2 => CompareTex (entry_at es p1) (entry_at es p2))
    (sortedNames es).

Definition set_texCoords (t : float4) (e : SAtlasEntry) : SAtlasEntry :=
  mk_SAtlasEntry (size e) (name e) t.

Definition add_width (w : Z) (row : Row) : Row :=
  mk_Row (position row) (height row) (add32 (width row) w).

(** The four assignments to [curtex->texCoords]. *)
Definition rect_in (row : Row) (e : SAtlasEntry) : float4 :=
  mk_float4 (width row) (position row)
    (add32 (width row) (x (size e)))
    (add32 (position row) (y (size e))).

(** The body of the placement loop for an entry that got row [i]. *)
Definition place (st : CRowAtlasAlloc) (curtex : string) (padding : Z) (i : nat)
  : CRowAtlasAlloc :=
  let e := entry_at (entries st) curtex in
  let row := imageRows st !!! i in
  let st1 := set_entries st
               (entry_update (entries st) curtex (set_texCoords (rect_in row e))) in
  set_imageRows st1 (alter (add_width (add32 (x (size e)) padding)) i (imageRows st1)).

Fixpoint place_all (fuel : nat) (padding : Z) (mem : list string)
  (st : CRowAtlasAlloc) (success : bool) : option (CRowAtlasAlloc * bool) :=
  match mem with
  | [] => Some (st, success)
  | curtex :: mem' =>
      let e := entry_at (entries st) curtex in
      match FindRow fuel st (add32 (x (size e)) padding) (add32 (y (size e)) padding) with
      | None => None
      | Some (st1, None) => place_all fuel padding mem' st1 false
      | Some (st1, Some i) => place_all fuel padding mem' (place st1 curtex padding i) success
      end
  end.

Definition Allocate (fuel : nat) (st : CRowAtlasAlloc) : option (CRowAtlasAlloc * bool) :=
  let st0 := set_atlasSize st
               (mk_int2 (x (atlasSize st))
                        (wrap32 (bit_ceil (to_uint32 (y (atlasSize st)))))) in
  match EstimateNeededSize fuel st0 with
  | None => None
  | Some st1 =>
      let mem := memtextures (entries st1) in
      let padding := shl32 1 (GetNumTexLevels st1) in
      match place_all fuel padding mem st1 true with
      | None => None
      | Some (st2, success) =>
          Some (set_atlasSize st2 (mk_int2 (x (atlasSize st2)) (nextRowPos st2)), success)
      end
  end.

(** ** The scenario of the specification *)

Definition entry (n : string) (w h : Z) : string * SAtlasEntry :=
  (n, mk_SAtlasEntry (mk_int2 w h) n (mk_float4 0 0 0 0)).

Definition fresh (es : list (string * SAtlasEntry)) (sz mx : int2) (levels md : Z)
  : CRowAtlasAlloc :=
  mk_CRowAtlasAlloc es sz mx levels md 0 [].

Definition scenario : CRowAtlasAlloc :=
  fresh [entry "C" 60 10; entry "A" 50 20; entry "B" 40 20]
    (mk_int2 64 64) (mk_int2 256 256) 1 10.

(** ** Notions that the properties are stated with *)

(** The order in which [std::set<std::string>] keeps the names. *)
Definition string_lt (s1 s2 : string) : Prop := String.compare s1 s2 = Lt.

(** [a] comes before [b]: higher first, then wider, then the greater name. *)
Definition tex_before (a b : SAtlasEntry) : Prop :=
  y (size b) < y (size a) ∨
  (y (size a) = y (size b) ∧
   (x (size b) < x (size a) ∨
    (x (size a) = x (size b) ∧ String.compare (name a) (name b) = Gt))).

(** [a] may stay in front of [b]: the comparator does not put [b] first. *)
Definition keeps {A : Type} (comp : A → A → bool) (a b : A) : Prop := comp b a = false.

(** What [AddEntry] maintains: the keys are distinct and each entry carries
    its key as its name. *)
Definition registry_ok (es : list (string * SAtlasEntry)) : Prop :=
  NoDup es.*1 ∧ Forall (fun p => name p.2 = p.1) es.

(** The loop test of [AddRow]: the surface is too low for one more row. *)
Definition short (st : CRowAtlasAlloc) (h : Z) : bool :=
  y (atlasSize st) <? add32 (nextRowPos st) h.

(** Dimensions and maxima that doubling cannot overflow. *)
Definition dims_ok (st : CRowAtlasAlloc) : Prop :=
  1 ≤ x (atlasSize st) < 2^30 ∧ 1 ≤ y (atlasSize st) < 2^30 ∧
  1 ≤ x (maxsize st) < 2^30 ∧ 1 ≤ y (maxsize st) < 2^30.

(** What is left to grow. *)
Definition headroom (st : CRowAtlasAlloc) : Z :=
  Z.max 0 (x (maxsize st) - x (atlasSize st)) + Z.max 0 (y (maxsize st) - y (atlasSize st)).

(** The allocator as constructed (256 x 256, at most 2048 x 2048, no mip
    levels) with one entry wider than the widest surface allowed. *)
Definition wide_entry : CRowAtlasAlloc :=
  fresh [entry "wide" 3000 10] (mk_int2 256 256) (mk_int2 2048 2048) 0 10.

(** The rank of a float that is not a NaN: sign class, then exponent and
    mantissa, negated for negative floats. *)
Definition frank (f : spec_float) : option (Z * Z * Z) :=
  match f with
  | S754_nan => None
  | S754_infinity true => Some (-2, 0, 0)
  | S754_infinity false => Some (2, 0, 0)
  | S754_zero _ => Some (0, 0, 0)
  | S754_finite true m e => Some (-1, - e, - Z.pos m)
  | S754_finite false m e => Some (1, e, Z.pos m)
  end.

(** Ranks are compared lexicographically. *)
Definition rank_lt (a b : Z * Z * Z) : Prop :=
  a.1.1 < b.1.1 ∨ (a.1.1 = b.1.1 ∧ (a.1.2 < b.1.2 ∨ (a.1.2 = b.1.2 ∧ a.2 < b.2))).

(** [beats a b]: the pair (ratio, used width) [a] is taken over the best
    pair so far [b]; this is the test in the loop of [FindRow]. *)
Definition beats (a b : spec_float * Z) : bool :=
  flt a.1 b.1 || (feq a.1 b.1 && (a.2 <? b.2)).

(** The pair that the search compares: (ratio, used width). *)
Definition cand (h : Z) (row : Row) : spec_float * Z := (row_ratio row h, width row).

(** A row has room for the request: enough remaining width and height. *)
Definition fits (ax w h : Z) (row : Row) : Prop :=
  w ≤ sub32 ax (width row) ∧ h ≤ height row.

(** Having room is decidable: it is the two tests of the search loop. *)
Global Instance fits_dec ax w h row : Decision (fits ax w h row).
Proof. unfold fits. apply _. Defined.

(** What the locals of the search hold once it has gone over [pre]. *)
Definition scanned (ax w h : Z) (pre : list Row) (b : best) : Prop :=
  match bestRow b with
  | None =>
      bestRatio b = f10000 ∧ bestWidth b = ax ∧
      ∀ k rk, pre !! k = Some rk → fits ax w h rk → beats (cand h rk) (f10000, ax) = false
  | Some j =>
      ∃ rj, pre !! j = Some rj ∧
        bestRatio b = row_ratio rj h ∧ bestWidth b = width rj ∧
        fits ax w h rj ∧ beats (cand h rj) (f10000, ax) = true ∧
        (∀ k rk, pre !! k = Some rk → fits ax w h rk →
           beats (cand h rk) (cand h rj) = false) ∧
        (∀ k rk, (k < j)%nat → pre !! k = Some rk → fits ax w h rk →
           beats (cand h rk) (f10000, ax) = true → beats (cand h rj) (cand h rk) = true)
  end.

(** What the specification says of [FindRow]: every row with room takes part,
    whatever its ratio. *)
Definition FindRow_as_specified (fuel : nat) (st : CRowAtlasAlloc) (w h : Z) : Prop :=
  let ax := x (atlasSize st) in
  let rows := imageRows st in
  ((∃ k rk, rows !! k = Some rk ∧ fits ax w h rk) →
   ∃ j rj, rows !! j = Some rj ∧ fits ax w h rj ∧
     (∀ k rk, rows !! k = Some rk → fits ax w h rk →
        beats (cand h rk) (cand h rj) = false) ∧
     FindRow fuel st w h = Some (st, Some j)) ∧
  ((∀ k rk, rows !! k = Some rk → ¬ fits ax w h rk) →
   FindRow fuel st w h = AddRow fuel st w h).

(** A surface 32768 high that holds one row of height 30000, as left by an
    entry 29999 high with padding 1. *)
Definition tall_row : CRowAtlasAlloc :=
  mk_CRowAtlasAlloc [entry "A" 10 29999; entry "B" 10 1]
    (mk_int2 256 32768) (mk_int2 2048 32768) 0 1 30000 [mk_Row 0 30000 11].

(** The allocator as constructed, 256 x 256, with maxima of 300 x 300 and one
    entry of 250 x 250 registered. *)
Definition odd_maxima : CRowAtlasAlloc :=
  fresh [entry "A" 250 250] (mk_int2 256 256) (mk_int2 300 300) 0 250.

(** The sums of the estimator as plain integers. *)
Definition area_sum (es : list (string * SAtlasEntry)) : Z :=
  foldr (fun it acc => x (size it.2) * y (size it.2) + acc) 0 es.

(** The sum of the row heights. *)
Definition sum_heights (rows : list Row) : Z :=
  foldr (fun row acc => height row + acc) 0 rows.

(** The area left in the rows of a surface [ax] wide. *)
Definition rows_free_area (ax : Z) (rows : list Row) : Z :=
  foldr (fun row acc => height row * (ax - width row) + acc) 0 rows.

(** The free area of the surface: what lies below the rows, and what is
    left in each row. *)
Definition free_area (st : CRowAtlasAlloc) : Z :=
  x (atlasSize st) * (y (atlasSize st) - nextRowPos st)
  + rows_free_area (x (atlasSize st)) (imageRows st).

(** One resize of the estimator: an axis is doubled when its double does not
    exceed the maximum, and is left alone otherwise. *)
Definition resize_dims (st : CRowAtlasAlloc) : CRowAtlasAlloc :=
  set_atlasSize st
    (mk_int2
       (if 2 * x (atlasSize st) <=? x (maxsize st)
        then 2 * x (atlasSize st) else x (atlasSize st))
       (if 2 * y (atlasSize st) <=? y (maxsize st)
        then 2 * y (atlasSize st) else y (atlasSize st))).

(** Surfaces on which the areas of the estimator fit an [int]: dimensions
    and maxima up to 32768, rows that lie within the surface and add up to
    the next free row position, entries of non-negative size. *)
Definition estimate_ok (st : CRowAtlasAlloc) : Prop :=
  0 ≤ x (atlasSize st) ≤ 2^15 ∧ 0 ≤ y (atlasSize st) ≤ 2^15 ∧
  x (maxsize st) ≤ 2^15 ∧ y (maxsize st) ≤ 2^15 ∧
  nextRowPos st = sum_heights (imageRows st) ∧ nextRowPos st ≤ y (atlasSize st) ∧
  Forall (fun row => 0 ≤ height row ∧ 0 ≤ width row ≤ x (atlasSize st)) (imageRows st) ∧
  Forall (fun it => 0 ≤ x (size it.2) ∧ 0 ≤ y (size it.2)) (entries st) ∧
  area_sum (entries st) < 2^31.

(** The estimator as the specification words it: an axis below its maximum
    is doubled and clamped to the maximum, and the area this exposes is
    added to free. *)
Definition specified_resize (spaceFree : Z) (st : CRowAtlasAlloc) : Z * CRowAtlasAlloc :=
  let a := atlasSize st in
  let '(free1, a1) :=
    if x a <? x (maxsize st)
    then let nx := Z.min (x (maxsize st)) (shl32 (x a) 1) in
         (add32 spaceFree (mul32 (sub32 nx (x a)) (y a)), mk_int2 nx (y a))
    else (spaceFree, a) in
  let '(free2, a2) :=
    if y a1 <? y (maxsize st)
    then let ny := Z.min (y (maxsize st)) (shl32 (y a1) 1) in
         (add32 free1 (mul32 (x a1) (sub32 ny (y a1))), mk_int2 (x a1) ny)
    else (free1, a1) in
  (free2, set_atlasSize st a2).

(** The loop of the estimator around [specified_resize]. *)
Fixpoint specified_loop (fuel : nat) (spaceNeeded spaceFree : Z) (st : CRowAtlasAlloc)
  : option CRowAtlasAlloc :=
  if lacks_slack spaceFree spaceNeeded then
    if at_max st then Some st
    else match fuel with
         | O => None
         | S fuel' =>
             let '(free', st') := specified_resize spaceFree st in
             specified_loop fuel' spaceNeeded free' st'
         end
  else Some st.

(** The estimator with the resize step of the specification. *)
Definition EstimateNeededSize_as_specified (fuel : nat) (st : CRowAtlasAlloc)
  : option CRowAtlasAlloc :=
  specified_loop fuel (entries_area (entries st)) (initial_free st) st.

(** The allocator as constructed, 256 x 256, with maxima of 300 x 512 and an
    entry of 250 x 300. *)
Definition odd_width_maximum : CRowAtlasAlloc :=
  fresh [entry "A" 250 300] (mk_int2 256 256) (mk_int2 300 512) 0 250.

(** The next free row position is the sum of the row heights, as an [int]. *)
Definition heights_add_up (st : CRowAtlasAlloc) : Prop :=
  nextRowPos st = wrap32 (sum_heights (imageRows st)).

(** What each entry obtains in the placement loop, in processing order: no
    row, or a row and the rectangle written for it. *)
Fixpoint placements (fuel : nat) (padding : Z) (mem : list string) (st : CRowAtlasAlloc)
  : option (list (string * option (nat * float4))) :=
  match mem with
  | [] => Some []
  | curtex :: mem' =>
      let e := entry_at (entries st) curtex in
      match FindRow fuel st (add32 (x (size e)) padding) (add32 (y (size e)) padding) with
      | None => None
      | Some (st1, None) =>
          cons (curtex, None) <$> placements fuel padding mem' st1
      | Some (st1, Some i) =>
          cons (curtex, Some (i, rect_in (imageRows st1 !!! i) (entry_at (entries st1) curtex)))
            <$> placements fuel padding mem' (place st1 curtex padding i)
      end
  end.

(** The placements of a whole pass: [placements] on the state and in the
    order in which [Allocate] enters its loop. *)
Definition Allocate_placements (fuel : nat) (st : CRowAtlasAlloc)
  : option (list (string * option (nat * float4))) :=
  let st0 := set_atlasSize st
               (mk_int2 (x (atlasSize st))
                        (wrap32 (bit_ceil (to_uint32 (y (atlasSize st)))))) in
  match EstimateNeededSize fuel st0 with
  | None => None
  | Some st1 =>
      placements fuel (shl32 1 (GetNumTexLevels st1)) (memtextures (entries st1)) st1
  end.

(** A surface of 64 x 64 that cannot grow, an entry too high for it and one
    that fits: the first is left out, the second still placed. *)
Definition too_tall : CRowAtlasAlloc :=
  fresh [entry "A" 10 100; entry "B" 10 10] (mk_int2 64 64) (mk_int2 64 64) 0 10.

(** The allocator as constructed (256 x 256, at most 2048 x 2048) with one
    entry of 300 x 10, which a surface of 512 x 256 would hold. *)
Definition over_wide : CRowAtlasAlloc :=
  fresh [entry "wide" 300 10] (mk_int2 256 256) (mk_int2 2048 2048) 0 10.

(** The padded rectangles [x1, x2 + pad) x [y1, y2 + pad) do not meet. *)
Definition rect_disjoint (pad : Z) (t1 t2 : float4) : Prop :=
  x2 t1 + pad ≤ x1 t2 ∨ x2 t2 + pad ≤ x1 t1 ∨
  y2 t1 + pad ≤ y1 t2 ∨ y2 t2 + pad ≤ y1 t1.

(** Rows are bands stacked from 0: each starts where the ones before end. *)
Definition banded (rows : list Row) : Prop :=
  ∀ i row, rows !! i = Some row →
    position row = sum_heights (take i rows) ∧ 0 ≤ height row ∧ 0 ≤ width row ≤ 2^29.

(** A rectangle placed in row [i] lies in the band, left of the cursor. *)
Definition in_row (pad : Z) (rows : list Row) (p : nat * float4) : Prop :=
  ∃ row, rows !! p.1 = Some row ∧
    y1 p.2 = position row ∧ y1 p.2 ≤ y2 p.2 ∧ y2 p.2 + pad ≤ position row + height row ∧
    0 ≤ x1 p.2 ∧ x1 p.2 ≤ x2 p.2 ∧ x2 p.2 + pad ≤ width row.

(** The state of a pass in which no arithmetic overflows. *)
Definition packing (st : CRowAtlasAlloc) : Prop :=
  1 ≤ x (atlasSize st) ≤ x (maxsize st) ∧ x (maxsize st) ≤ 2^29 ∧
  1 ≤ y (atlasSize st) ≤ 2^29 ∧ 1 ≤ y (maxsize st) ≤ 2^29 ∧
  nextRowPos st ≤ 2^29 ∧ nextRowPos st = sum_heights (imageRows st) ∧
  banded (imageRows st).

(** Padding and entry sizes whose sums stay clear of overflow. *)
Definition sizes_ok (pad : Z) (es : list (string * SAtlasEntry)) : Prop :=
  1 ≤ pad ≤ 2^28 ∧
  Forall (fun it => 0 ≤ x (size it.2) ≤ 2^28 ∧ 0 ≤ y (size it.2) ≤ 2^28) es.

(** The rectangles of the entries that obtained a row, with their rows. *)
Definition placed (tr : list (string * option (nat * float4))) : list (nat * float4) :=
  omap snd tr.

(** Surfaces, maxima and entries for which a whole pass stays clear of
    overflow.  The allocator as constructed is of this kind, and a pass
    leaves it so. *)
Definition alloc_ok (st : CRowAtlasAlloc) : Prop :=
  1 ≤ x (atlasSize st) ≤ x (maxsize st) ∧ x (maxsize st) ≤ 2^29 ∧
  0 ≤ y (atlasSize st) ≤ 2^29 ∧ 1 ≤ y (maxsize st) ≤ 2^29 ∧
  0 ≤ numLevels st ≤ 28 ∧
  nextRowPos st ≤ 2^29 ∧ nextRowPos st = sum_heights (imageRows st) ∧
  banded (imageRows st) ∧
  Forall (fun it => 0 ≤ x (size it.2) ≤ 2^28 ∧ 0 ≤ y (size it.2) ≤ 2^28) (entries st).

(** The part of [packing] that concerns the dimensions. *)
Definition dims_fit (st : CRowAtlasAlloc) : Prop :=
  1 ≤ x (atlasSize st) ≤ x (maxsize st) ∧ x (maxsize st) ≤ 2^29 ∧
  1 ≤ y (atlasSize st) ≤ 2^29 ∧ 1 ≤ y (maxsize st) ≤ 2^29.

(** [m] is [a] doubled some number of times. *)
Definition reaches (a m : Z) : Prop := ∃ j : nat, m = a * 2 ^ Z.of_nat j.

(** Dimensions from which doubling arrives at the maxima exactly, as with
    powers of two. *)
Definition doubling_ok (st : CRowAtlasAlloc) : Prop :=
  1 ≤ x (atlasSize st) ∧ 1 ≤ y (atlasSize st) ∧
  x (maxsize st) < 2^30 ∧ y (maxsize st) < 2^30 ∧
  reaches (x (atlasSize st)) (x (maxsize st)) ∧
  reaches (y (atlasSize st)) (y (maxsize st)).

(** ** More notions: the steps of a pass *)

(** The first statement of [Allocate]: the height is replaced by its
    power-of-two ceiling. *)
Definition normalize_height (st : CRowAtlasAlloc) : CRowAtlasAlloc :=
  set_atlasSize st
    (mk_int2 (x (atlasSize st)) (wrap32 (bit_ceil (to_uint32 (y (atlasSize st)))))).

(** Surfaces on which a pass comes to an end: sound dimensions, and maxima
    that doubling reaches exactly from the width and from the normalised
    height, as with powers of two. *)
Definition pass_ok (st : CRowAtlasAlloc) : Prop :=
  1 ≤ x (atlasSize st) ∧ 0 ≤ y (atlasSize st) ≤ 2^29 ∧
  x (maxsize st) < 2^30 ∧ y (maxsize st) < 2^30 ∧
  reaches (x (atlasSize st)) (x (maxsize st)) ∧
  reaches (y (atlasSize (normalize_height st))) (y (maxsize st)).

(** The height that the entries take when each gets a row of its own. *)
Definition padded_heights (pad : Z) (es : list (string * SAtlasEntry)) : Z :=
  foldr (fun it acc => y (size it.2) + pad + acc) 0 es.

(** The same for the entries still to be walked by the placement loop. *)
Definition mem_heights (pad : Z) (es : list (string * SAtlasEntry)) (mem : list string) : Z :=
  foldr (fun k acc => y (size (entry_at es k)) + pad + acc) 0 mem.

(** * CPU topology probing (rts/System/Platform/Linux/CpuTopology.cpp)

    The x86 build of the file.  What the operating system and the processor
    answer is a parameter of the model; the code that works on the answers
    is embedded as it is written. *)
Module cpu_topology.

Definition MAX_CPUS : Z := 32.

Inductive Vendor := VENDOR_INTEL | VENDOR_AMD | VENDOR_ARM | VENDOR_UNKNOWN.

Inductive CoreType := CORE_PERFORMANCE | CORE_EFFICIENCY | CORE_UNKNOWN.

(** What the machine answers: [sysconf(_SC_NPROCESSORS_CONF)] as an [int];
    the integers that [get_thread_siblings] reads from the sibling list of a
    cpu; register [eax] of CPUID leaf [0x1A] on a cpu, or [None] where
    [__get_cpuid] reports the leaf as unsupported; register [ebx] of leaf 0;
    and the number that [get_thread_cache] reads for a cpu. *)
Record Machine := mk_Machine {
  nprocessors_conf : Z;
  thread_siblings_list : Z → list Z;
  cpuid_1A_eax : Z → option Z;
  cpuid_0_ebx : Z;
  index3_size : Z → Z
}.

Definition get_cpu_count (m : Machine) : Z := nprocessors_conf m.

Definition get_thread_siblings (m : Machine) (cpu : Z) : list Z :=
  thread_siblings_list m cpu.

Definition get_thread_cache (m : Machine) (cpu : Z) : Z := index3_size m cpu.

(** [std::bitset<MAX_CPUS>::set(pos)] on the value that [to_ulong] gives;
    [None] is the [std::out_of_range] that it throws for a position that
    the bitset does not have. *)
Definition bitset_set (b pos : Z) : option Z :=
  if decide (0 ≤ pos < MAX_CPUS) then Some (Z.lor b (Z.shiftl 1 pos)) else None.

(** [*std::min_element(first, last)] of a sequence that is not empty. *)
Definition min_element (a : Z) (l : list Z) : Z := foldl Z.min a l.

(** The two masks [low_smt_mask] and [high_smt_mask], passed by
    reference. *)
Definition collect_smt_affinity_masks (m : Machine) (cpu : Z) (low_high : Z * Z)
  : option (Z * Z) :=
  let siblings := get_thread_siblings m cpu in
  match siblings with
  | a :: (_ :: _) as rest =>
      if decide (cpu = min_element a rest)
      then low ← bitset_set low_high.1 cpu; Some (low, low_high.2)
      else high ← bitset_set low_high.2 cpu; Some (low_high.1, high)
  | _ => Some low_high
  end.

(** [uint8_t coreType = (eax & 0xFF000000) >> 24] and the two tests. *)
Definition get_intel_core_type (m : Machine) (cpu : Z) : CoreType :=
  match cpuid_1A_eax m cpu with
  | Some eax =>
      let coreType := Z.shiftr (Z.land eax 0xFF000000) 24 mod 2^8 in
      if decide (Z.land coreType 0x40 ≠ 0) then CORE_PERFORMANCE
      else if decide (Z.land coreType 0x20 ≠ 0) then CORE_EFFICIENCY
      else CORE_UNKNOWN
  | None => CORE_UNKNOWN
  end.

(** The four bitsets of [GetProcessorMasks], and the four masks that it
    returns (declared in CpuTopology.h, which is not among the sources at
    hand; the members are those that the code assigns). *)
Record ProcessorMasks := mk_ProcessorMasks {
  efficiencyCoreMask : Z;
  performanceCoreMask : Z;
  hyperThreadLowMask : Z;
  hyperThreadHighMask : Z
}.

(** [for (int cpu = 0; cpu < num_cpus; ++cpu)] with a body that may
    throw. *)
Fixpoint for_cpus (body : Z → ProcessorMasks → option ProcessorMasks)
  (cpus : list Z) (ms : ProcessorMasks) : option ProcessorMasks :=
  match cpus with
  | [] => Some ms
  | cpu :: cpus' => ms' ← body cpu ms; for_cpus body cpus' ms'
  end.

Definition smt_step (m : Machine) (cpu : Z) (ms : ProcessorMasks)
  : option ProcessorMasks :=
  lh ← collect_smt_affinity_masks m cpu (hyperThreadLowMask ms, hyperThreadHighMask ms);
  Some (mk_ProcessorMasks (efficiencyCoreMask ms) (performanceCoreMask ms) lh.1 lh.2).

Definition intel_body (m : Machine) (cpu : Z) (ms : ProcessorMasks)
  : option ProcessorMasks :=
  if decide (MAX_CPUS ≤ cpu) then Some ms
  else
    let core_type := get_intel_core_type m cpu in
    let core_type :=
      match core_type with CORE_UNKNOWN => CORE_PERFORMANCE | _ => core_type end in
    ms1 ← match core_type with
          | CORE_EFFICIENCY =>
              eff ← bitset_set (efficiencyCoreMask ms) cpu;
              Some (mk_ProcessorMasks eff (performanceCoreMask ms)
                      (hyperThreadLowMask ms) (hyperThreadHighMask ms))
          | CORE_PERFORMANCE =>
              perf ← bitset_set (performanceCoreMask ms) cpu;
              Some (mk_ProcessorMasks (efficiencyCoreMask ms) perf
                      (hyperThreadLowMask ms) (hyperThreadHighMask ms))
          | CORE_UNKNOWN => Some ms
          end;
    smt_step m cpu ms1.

Definition collect_intel_affinity_masks (m : Machine) (ms : ProcessorMasks)
  : option ProcessorMasks :=
  let num_cpus := get_cpu_count m in
  for_cpus (intel_body m) (seqZ 0 num_cpus) ms.

Definition amd_body (m : Machine) (cpu : Z) (ms : ProcessorMasks)
  : option ProcessorMasks :=
  if decide (MAX_CPUS ≤ cpu) then Some ms
  else
    perf ← bitset_set (performanceCoreMask ms) cpu;
    smt_step m cpu (mk_ProcessorMasks (efficiencyCoreMask ms) perf
                      (hyperThreadLowMask ms) (hyperThreadHighMask ms)).

Definition collect_amd_affinity_masks (m : Machine) (ms : ProcessorMasks)
  : option ProcessorMasks :=
  let num_cpus := get_cpu_count m in
  for_cpus (amd_body m) (seqZ 0 num_cpus) ms.

Definition detect_cpu_vendor (m : Machine) : Vendor :=
  if decide (cpuid_0_ebx m = 0x756E6547) then VENDOR_INTEL
  else if decide (cpuid_0_ebx m = 0x68747541) then VENDOR_AMD
  else VENDOR_UNKNOWN.

(** On x86 the branch for [VENDOR_ARM] is compiled to nothing. *)
Definition GetProcessorMasks (m : Machine) : option ProcessorMasks :=
  let ms := mk_ProcessorMasks 0 0 0 0 in
  match detect_cpu_vendor m with
  | VENDOR_INTEL => collect_intel_affinity_masks m ms
  | VENDOR_AMD => collect_amd_affinity_masks m ms
  | VENDOR_ARM => Some ms
  | VENDOR_UNKNOWN => Some ms
  end.

(** A group of processors with one cache size (declared in CpuTopology.h;
    the members are those that the code uses): the mask of the group and
    entry 2 of its [cacheSizes], the only one that this file touches. *)
Record ProcessorGroupCaches := mk_ProcessorGroupCaches {
  groupMask : Z;
  cacheSizes_2 : Z
}.

(** [get_group_cache]: the vector, grown by a group of that size if it had
    none, and the index of the group that the reference returned refers
    to. *)
Definition get_group_cache (groupCaches : list ProcessorGroupCaches) (cacheSize : Z)
  : list ProcessorGroupCaches * nat :=
  match list_find (fun gc => cacheSizes_2 gc = cacheSize) groupCaches with
  | Some (i, _) => (groupCaches, i)
  | None => (groupCaches ++ [mk_ProcessorGroupCaches 0 cacheSize], length groupCaches)
  end.

(** [groupCache.groupMask |= (0x1 << cpu)]. *)
Definition add_cpu (cpu : Z) (gc : ProcessorGroupCaches) : ProcessorGroupCaches :=
  mk_ProcessorGroupCaches (Z.lor (groupMask gc) (to_uint32 (shl32 1 cpu))) (cacheSizes_2 gc).

Definition cache_body (m : Machine) (groupCaches : list ProcessorGroupCaches) (cpu : Z)
  : list ProcessorGroupCaches :=
  if decide (MAX_CPUS ≤ cpu) then groupCaches
  else
    let cacheSize := get_thread_cache m cpu in
    let '(groupCaches1, i) := get_group_cache groupCaches cacheSize in
    alter (add_cpu cpu) i groupCaches1.

Definition GetProcessorCache (m : Machine) : list ProcessorGroupCaches :=
  let num_cpus := get_cpu_count m in
  foldl (cache_body m) [] (seqZ 0 num_cpus).

(** ** Notions that the properties are stated with *)

(** The sibling list of a cpu names more than one cpu: SMT is on. *)
Definition smt_enabled (m : Machine) (cpu : Z) : Prop :=
  (1 < length (get_thread_siblings m cpu))%nat.

(** The cpu is in its sibling list and none in the list is below it. *)
Definition least_sibling (m : Machine) (cpu : Z) : Prop :=
  cpu ∈ get_thread_siblings m cpu ∧ ∀ j, j ∈ get_thread_siblings m cpu → cpu ≤ j.

(** The cpus that the loops look at: those that the bitsets have room
    for. *)
Definition probed (m : Machine) (cpu : Z) : Prop :=
  0 ≤ cpu < Z.min (get_cpu_count m) MAX_CPUS.

(** The masks [ms'] are [ms] with the bits added that the loop bodies set
    for the cpus in [S], of which those in [E] count as efficiency cores. *)
Definition adds (m : Machine) (E S : Z → Prop) (ms ms' : ProcessorMasks) : Prop :=
  ∀ i, 0 ≤ i →
    (Z.testbit (efficiencyCoreMask ms') i = true ↔
       Z.testbit (efficiencyCoreMask ms) i = true ∨ (S i ∧ E i)) ∧
    (Z.testbit (performanceCoreMask ms') i = true ↔
       Z.testbit (performanceCoreMask ms) i = true ∨ (S i ∧ ¬ E i)) ∧
    (Z.testbit (hyperThreadLowMask ms') i = true ↔
       Z.testbit (hyperThreadLowMask ms) i = true ∨
       (S i ∧ smt_enabled m i ∧ least_sibling m i)) ∧
    (Z.testbit (hyperThreadHighMask ms') i = true ↔
       Z.testbit (hyperThreadHighMask ms) i = true ∨
       (S i ∧ smt_enabled m i ∧ ¬ least_sibling m i)).

(** What holds of the groups once the cpus of [cpus] have been looked at:
    no two groups have the same cache size, a group holds the cpus of its
    cache size, and every cpu has its group. *)
Definition grouped (m : Machine) (cpus : list Z) (gs : list ProcessorGroupCaches) : Prop :=
  NoDup (cacheSizes_2 <$> gs) ∧
  (∀ g, g ∈ gs → ∀ i, 0 ≤ i →
     Z.testbit (groupMask g) i = true ↔
     i ∈ cpus ∧ i < MAX_CPUS ∧ get_thread_cache m i = cacheSizes_2 g) ∧
  (∀ i, i ∈ cpus → i < MAX_CPUS → ∃ g, g ∈ gs ∧ cacheSizes_2 g = get_thread_cache m i).

End cpu_topology.

(** * Floating-point environment control (rts/lib/streflop/FPUSettings.h)

    The build for SSE ([STREFLOP_SSE], without [STREFLOP_NO_DENORMALS]),
    which drives both the control word of the x87 unit and the MXCSR
    register.  The two registers and the global [FE_DFL_ENV] are the state;
    the status flags that [fclex] clears are not part of it. *)
Module streflop.

Definition to_uint16 (z : Z) : Z := z mod 2^16.

(** [enum FPU_Exceptions] of the x86 builds. *)
Definition FE_INVALID : Z := 0x0001.
Definition FE_DENORMAL : Z := 0x0002.
Definition FE_DIVBYZERO : Z := 0x0004.
Definition FE_OVERFLOW : Z := 0x0008.
Definition FE_UNDERFLOW : Z := 0x0010.
Definition FE_INEXACT : Z := 0x0020.
Definition FE_ALL_EXCEPT : Z := 0x003F.

(** [enum FPU_RoundMode] of the x86 builds. *)
Definition FE_TONEAREST : Z := 0x0000.
Definition FE_DOWNWARD : Z := 0x0400.
Definition FE_UPWARD : Z := 0x0800.
Definition FE_TOWARDZERO : Z := 0x0C00.

(** [struct fpenv_t]: [int sse_mode] and [short int x87_mode], the latter
    carried as the 16 bits that [fstcw] stores in it. *)
Record fpenv_t := mk_fpenv_t { sse_mode : Z; x87_mode : Z }.

(** The control word of the x87 unit as [fstcw] stores it in an
    [unsigned short], the MXCSR register as [stmxcsr] stores it in an
    [int], and the global [FE_DFL_ENV]. *)
Record FPU := mk_FPU { fpu_cw : Z; mxcsr : Z; FE_DFL_ENV : fpenv_t }.

(** [x87_mode &= ~excepts] on an [unsigned short], and
    [sse_mode &= ~(excepts << 7)] on an [int]. *)
Definition feraiseexcept (excepts : Z) (s : FPU) : FPU :=
  let x87_mode := to_uint16 (Z.land (fpu_cw s) (Z.lnot excepts)) in
  let sse_mode := Z.land (mxcsr s) (Z.lnot (shl32 excepts 7)) in
  mk_FPU x87_mode sse_mode (FE_DFL_ENV s).

Definition feclearexcept (excepts : Z) (s : FPU) : FPU :=
  let x87_mode := to_uint16 (Z.lor (fpu_cw s) excepts) in
  let sse_mode := Z.lor (mxcsr s) (shl32 excepts 7) in
  mk_FPU x87_mode sse_mode (FE_DFL_ENV s).

Definition fegetround (s : FPU) : Z :=
  Z.land (Z.shiftr (mxcsr s) 3) 0x00000C00.

(** [sse_mode &= 0xFFFF9FFF]: the literal is an [unsigned int], so that the
    [int] is converted to it and the result back. *)
Definition fesetround (roundMode : Z) (s : FPU) : FPU :=
  let sse_mode := wrap32 (Z.land (to_uint32 (mxcsr s)) 0xFFFF9FFF) in
  let sse_mode := Z.lor sse_mode (shl32 roundMode 3) in
  mk_FPU (fpu_cw s) sse_mode (FE_DFL_ENV s).

(** The two tests [if (!FE_DFL_ENV.x87_mode)] and [if (!FE_DFL_ENV.sse_mode)]
    with the stores that they guard. *)
Definition save_default (s : FPU) : fpenv_t :=
  mk_fpenv_t
    (if decide (sse_mode (FE_DFL_ENV s) = 0) then mxcsr s else sse_mode (FE_DFL_ENV s))
    (if decide (x87_mode (FE_DFL_ENV s) = 0) then fpu_cw s else x87_mode (FE_DFL_ENV s)).

(** The state after the call and what has been stored in [*envp], an
    object of the caller. *)
Definition fegetenv (s : FPU) : FPU * fpenv_t :=
  (mk_FPU (fpu_cw s) (mxcsr s) (save_default s), mk_fpenv_t (mxcsr s) (fpu_cw s)).

(** The argument of [fesetenv]: a pointer to an environment object of the
    caller that holds [e], or the address of [FE_DFL_ENV] itself. *)
Inductive envp_t := Env (e : fpenv_t) | DflEnv.

(** With [&FE_DFL_ENV] for argument the loads read what the guarded stores
    have just written. *)
Definition fesetenv (envp : envp_t) (s : FPU) : FPU :=
  let dfl := save_default s in
  let e := match envp with Env e => e | DflEnv => dfl end in
  mk_FPU (x87_mode e) (sse_mode e) dfl.

Definition feholdexcept (s : FPU) : FPU * fpenv_t :=
  let '(s1, envp) := fegetenv s in
  (feclearexcept FE_ALL_EXCEPT s1, envp).

(** [streflop_init<Simple>]. *)
Definition streflop_init_Simple (s : FPU) : FPU :=
  let x87_mode := to_uint16 (Z.land (fpu_cw s) 0xFCFF) in
  let sse_mode := wrap32 (Z.land (to_uint32 (mxcsr s)) 0xFFFF7FBF) in
  mk_FPU x87_mode sse_mode (FE_DFL_ENV s).

(** [streflop_init<Double>]. *)
Definition streflop_init_Double (s : FPU) : FPU :=
  let x87_mode := to_uint16 (Z.land (fpu_cw s) 0xFCFF) in
  let x87_mode := to_uint16 (Z.lor x87_mode 0x0200) in
  let sse_mode := wrap32 (Z.land (to_uint32 (mxcsr s)) 0xFFFF7FBF) in
  mk_FPU x87_mode sse_mode (FE_DFL_ENV s).

(** ** Notions that the properties are stated with *)

(** Registers as the processor has them: a control word of 16 bits and an
    MXCSR whose upper, reserved half is zero. *)
Definition regs_ok (s : FPU) : Prop :=
  0 ≤ fpu_cw s < 2^16 ∧ 0 ≤ mxcsr s < 2^16.

(** The four rounding modes. *)
Definition round_mode (r : Z) : Prop :=
  r = FE_TONEAREST ∨ r = FE_DOWNWARD ∨ r = FE_UPWARD ∨ r = FE_TOWARDZERO.

End streflop.

(** * Properties *)

(** ** Machine arithmetic *)

Lemma wrap32_small z : -2^31 ≤ z < 2^31 → wrap32 z = z.
Proof. intros Hz. unfold wrap32. rewrite Z.mod_small; lia. Qed.

Lemma wrap32_range z : -2^31 ≤ wrap32 z < 2^31.
Proof. unfold wrap32. pose proof (Z.mod_pos_bound (z + 2^31) (2^32)). lia. Qed.

Lemma wrap32_add_l a b : wrap32 (wrap32 a + b) = wrap32 (a + b).
Proof.
  unfold wrap32.
  replace ((a + 2^31) mod 2^32 - 2^31 + b + 2^31)
    with ((a + 2^31) mod 2^32 + b) by lia.
  rewrite Zplus_mod_idemp_l. f_equal. f_equal. lia.
Qed.

Lemma wrap32_add_r a b : wrap32 (a + wrap32 b) = wrap32 (a + b).
Proof. rewrite (Z.add_comm a), wrap32_add_l. f_equal. lia. Qed.

Lemma add32_small a b : -2^31 ≤ a + b < 2^31 → add32 a b = a + b.
Proof. apply wrap32_small. Qed.

Lemma sub32_small a b : -2^31 ≤ a - b < 2^31 → sub32 a b = a - b.
Proof. apply wrap32_small. Qed.

Lemma mul32_small a b : -2^31 ≤ a * b < 2^31 → mul32 a b = a * b.
Proof. apply wrap32_small. Qed.

Lemma shl32_1 a : -2^30 ≤ a < 2^30 → shl32 a 1 = 2 * a.
Proof.
  intros Ha. unfold shl32. change (1 mod 32) with 1.
  rewrite Z.shiftl_mul_pow2 by lia. rewrite wrap32_small; lia.
Qed.

(** ** The order on names *)

Lemma ascii_compare_refl c : Ascii.compare c c = Eq.
Proof. apply N.compare_refl. Qed.

Lemma ascii_compare_lt_trans a b c :
  Ascii.compare a b = Lt → Ascii.compare b c = Lt → Ascii.compare a c = Lt.
Proof. unfold Ascii.compare. rewrite !N.compare_lt_iff. lia. Qed.

Lemma string_compare_refl s : String.compare s s = Eq.
Proof. induction s as [|c s IH]; simpl; [done|]. by rewrite ascii_compare_refl. Qed.

Lemma string_compare_lt_trans s1 s2 s3 :
  String.compare s1 s2 = Lt → String.compare s2 s3 = Lt → String.compare s1 s3 = Lt.
Proof.
  revert s2 s3. induction s1 as [|c1 s1 IH]; intros [|c2 s2] [|c3 s3]; simpl; try done.
  destruct (Ascii.compare c1 c2) eqn:E12; try done;
    destruct (Ascii.compare c2 c3) eqn:E23; try done; intros H12 H23.
  - apply Ascii.compare_eq_iff in E12, E23. subst.
    rewrite ascii_compare_refl. eauto.
  - apply Ascii.compare_eq_iff in E12. subst. by rewrite E23.
  - apply Ascii.compare_eq_iff in E23. subst. by rewrite E12.
  - by rewrite (ascii_compare_lt_trans _ _ _ E12 E23).
Qed.

Lemma string_compare_gt_lt s1 s2 : String.compare s1 s2 = Gt ↔ String.compare s2 s1 = Lt.
Proof.
  rewrite (String.compare_antisym s2 s1). destruct (String.compare s1 s2); simpl; split; done.
Qed.

Lemma string_compare_gt_trans s1 s2 s3 :
  String.compare s1 s2 = Gt → String.compare s2 s3 = Gt → String.compare s1 s3 = Gt.
Proof.
  rewrite !string_compare_gt_lt. intros H12 H23. by apply (string_compare_lt_trans _ s2).
Qed.

Lemma string_compare_eq s1 s2 : String.compare s1 s2 = Eq ↔ s1 = s2.
Proof.
  split; [apply String.compare_eq_iff|]. intros ->. apply string_compare_refl.
Qed.

Global Instance string_lt_trans : Transitive string_lt.
Proof. intros s1 s2 s3. apply string_compare_lt_trans. Qed.

Lemma string_lt_irrefl s : ¬ string_lt s s.
Proof. unfold string_lt. by rewrite string_compare_refl. Qed.

Lemma string_gt_spec s1 s2 : string_gt s1 s2 = true ↔ String.compare s1 s2 = Gt.
Proof. unfold string_gt. destruct (String.compare s1 s2); split; done. Qed.

(** ** CompareTex is the lexicographic order (height, width, name), descending *)

Lemma CompareTex_spec a b : CompareTex a b = true ↔ tex_before a b.
Proof.
  unfold CompareTex, tex_before.
  repeat case_match; rewrite ?Z.ltb_lt, ?Z.ltb_ge in *;
    rewrite <- ?not_true_iff_false, ?string_gt_spec in *;
    split; try done; try lia; intros; try (exfalso; lia);
    try (right; split; [lia|]; right; split; [lia|done]); try naive_solver lia.
Qed.

Lemma tex_before_irrefl a : ¬ tex_before a a.
Proof. unfold tex_before. rewrite string_compare_refl. naive_solver lia. Qed.

Lemma tex_before_trans a b c : tex_before a b → tex_before b c → tex_before a c.
Proof.
  unfold tex_before. intros Hab Hbc.
  destruct Hab as [?|[? [?|[? Hn1]]]], Hbc as [?|[? [?|[? Hn2]]]];
    try (left; lia); try (right; split; [lia|]; left; lia).
  right; split; [lia|]; right; split; [lia|]. by apply (string_compare_gt_trans _ (name b)).
Qed.

Lemma tex_before_total a b :
  name a ≠ name b → tex_before a b ∨ tex_before b a.
Proof.
  intros Hn. unfold tex_before.
  destruct (Z.lt_trichotomy (y (size a)) (y (size b))) as [?|[?|?]]; [by right; left| |by left; left].
  destruct (Z.lt_trichotomy (x (size a)) (x (size b))) as [?|[?|?]];
    [right; right; split; [lia|by left] | | left; right; split; [lia|by left]].
  destruct (String.compare (name a) (name b)) eqn:E.
  - by apply string_compare_eq in E.
  - right. right; split; [lia|]. right; split; [lia|]. by apply string_compare_gt_lt.
  - left. right; split; [lia|]. right; split; [lia|done].
Qed.

Lemma tex_before_asym a b : tex_before a b → ¬ tex_before b a.
Proof. intros H1 H2. apply (tex_before_irrefl a). by apply (tex_before_trans _ b). Qed.

(** Two entries that the comparator leaves unordered agree on all keys. *)
Lemma tex_unordered a b :
  ¬ tex_before a b → ¬ tex_before b a → size a = size b ∧ name a = name b.
Proof.
  intros H1 H2.
  destruct (decide (name a = name b)) as [Hn|Hn]; [|by destruct (tex_before_total a b Hn)].
  split; [|done]. unfold tex_before in *. rewrite Hn, string_compare_refl in *.
  destruct (size a) as [xa ya], (size b) as [xb yb]; simpl in *.
  f_equal; lia.
Qed.

Lemma tex_before_neg_trans a b c :
  ¬ tex_before b a → ¬ tex_before c b → ¬ tex_before c a.
Proof.
  intros Hba Hcb Hca.
  destruct (decide (name a = name b)) as [Hab|Hab].
  - destruct (decide (tex_before a b)) as [H|H].
    + apply Hcb. by apply (tex_before_trans _ a).
    + destruct (tex_unordered a b H Hba) as [Hs _].
      apply Hcb. unfold tex_before in *. by rewrite <- Hs, <- Hab.
  - destruct (tex_before_total a b Hab) as [H|H]; [|done].
    apply Hcb. by apply (tex_before_trans _ a).
Qed.

(** ** The sorted sequence of names *)

Lemma set_insert_elem s t l : t ∈ set_insert s l ↔ t = s ∨ t ∈ l.
Proof.
  induction l as [|u l IH]; simpl; [set_solver|].
  destruct (String.compare s u) eqn:E.
  - apply string_compare_eq in E. set_solver.
  - set_solver.
  - set_solver.
Qed.

Lemma set_insert_sorted s l :
  StronglySorted string_lt l → StronglySorted string_lt (set_insert s l).
Proof.
  induction 1 as [|u l Hl IH Hu]; simpl; [by repeat constructor|].
  destruct (String.compare s u) eqn:E.
  - by constructor.
  - constructor; [by constructor|]. constructor; [done|].
    eapply Forall_impl; [exact Hu|]. intros v Hv. by trans u.
  - constructor; [done|]. apply Forall_forall. intros v Hv.
    apply set_insert_elem in Hv as [->|Hv].
    + by apply string_compare_gt_lt.
    + by eapply Forall_forall in Hu.
Qed.

Lemma sortedNames_acc_elem (es : list (string * SAtlasEntry)) acc t :
  t ∈ fold_left (fun acc entry => set_insert entry.1 acc) es acc ↔ t ∈ es.*1 ∨ t ∈ acc.
Proof.
  revert acc. induction es as [|[k e] es IH]; intros acc; simpl; [set_solver|].
  rewrite IH, set_insert_elem. set_solver.
Qed.

Lemma sortedNames_elem es t : t ∈ sortedNames es ↔ t ∈ es.*1.
Proof. unfold sortedNames. rewrite sortedNames_acc_elem. set_solver. Qed.

Lemma sortedNames_acc_sorted (es : list (string * SAtlasEntry)) acc :
  StronglySorted string_lt acc →
  StronglySorted string_lt (fold_left (fun acc entry => set_insert entry.1 acc) es acc).
Proof.
  revert acc. induction es as [|[k e] es IH]; intros acc Hacc; simpl; [done|].
  by apply IH, set_insert_sorted.
Qed.

Lemma sortedNames_sorted es : StronglySorted string_lt (sortedNames es).
Proof. apply sortedNames_acc_sorted. constructor. Qed.

Lemma string_lt_sorted_NoDup l : StronglySorted string_lt l → NoDup l.
Proof.
  induction 1 as [|s l Hl IH Hs]; constructor; [|done].
  intros Hin. eapply Forall_forall in Hs; [|done]. by apply string_lt_irrefl in Hs.
Qed.

Lemma sortedNames_NoDup es : NoDup (sortedNames es).
Proof. apply string_lt_sorted_NoDup, sortedNames_sorted. Qed.

Lemma string_lt_sorted_unique l1 l2 :
  StronglySorted string_lt l1 → StronglySorted string_lt l2 →
  (∀ s, s ∈ l1 ↔ s ∈ l2) → l1 = l2.
Proof.
  intros H1 H2 Hel. apply (StronglySorted_unique_strong string_lt); [|done..|].
  - intros s1 s2 _ _ H12 H21. destruct (string_lt_irrefl s1). by trans s2.
  - by apply NoDup_Permutation; [apply string_lt_sorted_NoDup..|].
Qed.

(** The names come out the same whatever order the registry lists them in. *)
Lemma sortedNames_Permutation es1 es2 : es1 ≡ₚ es2 → sortedNames es1 = sortedNames es2.
Proof.
  intros Hp. apply string_lt_sorted_unique; [apply sortedNames_sorted..|].
  intros s. rewrite !sortedNames_elem. by rewrite Hp.
Qed.

(** ** The stable sort *)

Section stable_sort.
Context {A : Type} (comp : A → A → bool).

Lemma stable_insert_Permutation a l : stable_insert comp a l ≡ₚ a :: l.
Proof.
  induction l as [|b l IH]; simpl; [done|].
  destruct (comp b a); [|done]. rewrite IH. apply Permutation_swap.
Qed.

Lemma stable_sort_Permutation l : stable_sort comp l ≡ₚ l.
Proof.
  induction l as [|a l IH]; simpl; [done|].
  by rewrite stable_insert_Permutation, IH.
Qed.

Hypothesis comp_asym : ∀ a b, comp a b = true → comp b a = false.
Hypothesis keeps_trans : ∀ a b c, keeps comp a b → keeps comp b c → keeps comp a c.

Lemma stable_insert_sorted a l :
  StronglySorted (keeps comp) l → StronglySorted (keeps comp) (stable_insert comp a l).
Proof.
  induction 1 as [|b l Hl IH Hb]; simpl; [by repeat constructor|].
  destruct (comp b a) eqn:E.
  - constructor; [done|]. rewrite stable_insert_Permutation.
    constructor; [by apply comp_asym|done].
  - constructor; [by constructor|]. constructor; [done|].
    eapply Forall_impl; [exact Hb|]. intros c Hc. by apply (keeps_trans _ b).
Qed.

Lemma stable_sort_sorted l : StronglySorted (keeps comp) (stable_sort comp l).
Proof.
  induction l as [|a l IH]; simpl; [constructor|]. by apply stable_insert_sorted.
Qed.
End stable_sort.

Lemma stable_insert_ext {A} (c1 c2 : A → A → bool) a l :
  (∀ b, b ∈ l → c1 b a = c2 b a) → stable_insert c1 a l = stable_insert c2 a l.
Proof.
  induction l as [|b l IH]; intros Hc; simpl; [done|].
  rewrite (Hc b) by set_solver. rewrite IH; [done|]. intros; apply Hc. set_solver.
Qed.

Lemma stable_sort_ext {A} (c1 c2 : A → A → bool) l :
  (∀ a b, a ∈ l → b ∈ l → c1 a b = c2 a b) → stable_sort c1 l = stable_sort c2 l.
Proof.
  induction l as [|a l IH]; intros Hc; simpl; [done|].
  rewrite IH by (intros; apply Hc; set_solver).
  apply stable_insert_ext. intros b Hb. apply Hc; [|set_solver].
  rewrite stable_sort_Permutation in Hb. set_solver.
Qed.

(** ** The registry *)

Lemma String_eqb_decide (s t : string) : String.eqb s t = bool_decide (s = t).
Proof.
  destruct (String.eqb_spec s t); symmetry; [by apply bool_decide_eq_true|by apply bool_decide_eq_false].
Qed.

Lemma entry_at_elem es k e : NoDup es.*1 → (k, e) ∈ es → entry_at es k = e.
Proof.
  induction es as [|[k' e'] es IH]; simpl; [set_solver|].
  rewrite NoDup_cons, String_eqb_decide. intros [Hk Hnd] Hin.
  apply elem_of_cons in Hin as [[= -> ->]|Hin].
  - by rewrite bool_decide_eq_true_2.
  - rewrite bool_decide_eq_false_2; [by apply IH|].
    intros ->. apply Hk. apply list_elem_of_fmap. by exists (k, e).
Qed.

Lemma entry_at_name es k : registry_ok es → k ∈ es.*1 → name (entry_at es k) = k.
Proof.
  intros [Hnd Hn] Hk. apply list_elem_of_fmap in Hk as [[k' e] [-> Hin]]. simpl.
  rewrite (entry_at_elem _ _ e Hnd Hin).
  by eapply Forall_forall in Hn; [|done].
Qed.

Lemma entry_at_Permutation es1 es2 k :
  NoDup es1.*1 → es1 ≡ₚ es2 → entry_at es1 k = entry_at es2 k.
Proof.
  intros Hnd Hp.
  destruct (decide (k ∈ es1.*1)) as [Hk|Hk].
  - apply list_elem_of_fmap in Hk as [[k' e] [-> Hin]]. simpl.
    rewrite (entry_at_elem es1 _ e), (entry_at_elem es2 _ e); [done| |by rewrite <- Hp|done..].
    by rewrite <- Hp.
  - assert (∀ es, k ∉ es.*1 → entry_at es k = default_entry) as Hno.
    { clear. induction es as [|[k' e'] es IH]; simpl; [done|].
      rewrite String_eqb_decide. intros Hk.
      rewrite bool_decide_eq_false_2 by set_solver. apply IH. set_solver. }
    rewrite !Hno; [done| |done]. by rewrite <- Hp.
Qed.

(** ** The processing order of Allocate *)

Lemma set_atlasSize_id st : set_atlasSize st (atlasSize st) = st.
Proof. by destruct st. Qed.

Lemma set_atlasSize_twice st a b : set_atlasSize (set_atlasSize st a) b = set_atlasSize st b.
Proof. done. Qed.

Lemma estimate_resize_frame free st :
  ∃ a, (estimate_resize free st).2 = set_atlasSize st a.
Proof.
  unfold estimate_resize. repeat case_match; simplify_eq/=; eauto.
Qed.

Lemma frame_refl st : ∃ a, st = set_atlasSize st a.
Proof. exists (atlasSize st). by rewrite set_atlasSize_id. Qed.

(** The estimator changes nothing but the surface dimensions. *)
Lemma estimate_loop_frame fuel needed free st st' :
  estimate_loop fuel needed free st = Some st' → ∃ a, st' = set_atlasSize st a.
Proof.
  revert free st. induction fuel as [|fuel IH]; intros free st; simpl.
  - repeat case_match; intros; simplify_eq; apply frame_refl.
  - destruct (lacks_slack free needed); [|intros; simplify_eq; apply frame_refl].
    destruct (at_max st); [intros; simplify_eq; apply frame_refl|].
    destruct (estimate_resize_frame free st) as [a Ha].
    destruct (estimate_resize free st) as [free' st1]; simpl in Ha. subst st1.
    intros H. apply IH in H as [b ->]. by exists b.
Qed.

Lemma EstimateNeededSize_frame fuel st st' :
  EstimateNeededSize fuel st = Some st' → ∃ a, st' = set_atlasSize st a.
Proof. apply estimate_loop_frame. Qed.

Lemma StronglySorted_strengthen {A} (R R' : A → A → Prop) l :
  StronglySorted R l → NoDup l →
  (∀ a b, a ∈ l → b ∈ l → a ≠ b → R a b → R' a b) →
  StronglySorted R' l.
Proof.
  induction 1 as [|a l Hl IH Ha]; intros Hnd HR; [constructor|].
  apply NoDup_cons in Hnd as [Hal Hnd].
  constructor.
  - apply IH; [done|]. intros; apply HR; set_solver.
  - apply Forall_forall. intros b Hb. apply HR; [set_solver..| |].
    + intros ->. done.
    + by eapply Forall_forall in Ha.
Qed.

Lemma memtextures_Permutation es : memtextures es ≡ₚ sortedNames es.
Proof. apply stable_sort_Permutation. Qed.

Lemma memtextures_NoDup es : NoDup (memtextures es).
Proof. rewrite memtextures_Permutation. apply sortedNames_NoDup. Qed.

Lemma memtextures_elem es k : k ∈ memtextures es ↔ k ∈ es.*1.
Proof. by rewrite memtextures_Permutation, sortedNames_elem. Qed.

Lemma memtextures_keys es : NoDup es.*1 → memtextures es ≡ₚ es.*1.
Proof.
  intros Hnd. apply NoDup_Permutation; [apply memtextures_NoDup|done|].
  apply memtextures_elem.
Qed.

Lemma memtextures_sorted es :
  registry_ok es →
  StronglySorted (fun k1 k2 => tex_before (entry_at es k1) (entry_at es k2))
    (memtextures es).
Proof.
  intros Hok.
  pose (comp := fun p1 p2 => CompareTex (entry_at es p1) (entry_at es p2)).
  apply (StronglySorted_strengthen (keeps comp)).
  - apply stable_sort_sorted; unfold keeps, comp.
    + intros a b. rewrite CompareTex_spec, <- not_true_iff_false, CompareTex_spec.
      apply tex_before_asym.
    + intros a b c. rewrite <- !not_true_iff_false, !CompareTex_spec.
      intros Hba Hcb. by apply (tex_before_neg_trans _ (entry_at es b)).
  - apply memtextures_NoDup.
  - intros a b Ha Hb Hab. unfold keeps, comp.
    rewrite <- not_true_iff_false, CompareTex_spec. intros Hba.
    apply memtextures_elem in Ha, Hb.
    destruct (tex_before_total (entry_at es a) (entry_at es b)); [|done..].
    by rewrite !entry_at_name.
Qed.

(** C7.  [CompareTex] is the strict lexicographic order on (height, width,
    name), each descending, and total on entries with distinct names; the
    sequence that [Allocate] walks lists every registered key once, sorted
    by that order, and it is this sequence that the placement loop runs
    over. *)
Theorem processing_order_total (st : CRowAtlasAlloc) :
  registry_ok (entries st) →
  (∀ a b, CompareTex a b = true ↔
     y (size b) < y (size a) ∨
     (y (size a) = y (size b) ∧
      (x (size b) < x (size a) ∨
       (x (size a) = x (size b) ∧ String.compare (name a) (name b) = Gt)))) ∧
  (∀ a, CompareTex a a = false) ∧
  (∀ a b c, CompareTex a b = true → CompareTex b c = true → CompareTex a c = true) ∧
  (∀ a b, name a ≠ name b → CompareTex a b = true ∨ CompareTex b a = true) ∧
  memtextures (entries st) ≡ₚ (entries st).*1 ∧
  StronglySorted
    (fun k1 k2 => CompareTex (entry_at (entries st) k1) (entry_at (entries st) k2) = true)
    (memtextures (entries st)) ∧
  (∀ fuel st' ok, Allocate fuel st = Some (st', ok) →
     ∃ st1 st2, entries st1 = entries st ∧
       place_all fuel (shl32 1 (GetNumTexLevels st1)) (memtextures (entries st)) st1 true
         = Some (st2, ok)).
Proof.
  intros Hok. split_and!.
  - apply CompareTex_spec.
  - intros a. apply not_true_iff_false. rewrite CompareTex_spec. apply tex_before_irrefl.
  - intros a b c. rewrite !CompareTex_spec. apply tex_before_trans.
  - intros a b. rewrite !CompareTex_spec. apply tex_before_total.
  - apply memtextures_keys, Hok.
  - eapply StronglySorted_strengthen;
      [apply (memtextures_sorted _ Hok)|apply memtextures_NoDup|].
    intros a b _ _ _. by rewrite CompareTex_spec.
  - intros fuel st' ok. unfold Allocate.
    destruct (EstimateNeededSize fuel _) as [st1|] eqn:E; [|done].
    apply EstimateNeededSize_frame in E as [a ->]. simpl.
    destruct (place_all _ _ _ _ _) as [[st2 ok']|] eqn:Ep; [|done].
    intros [= <- <-]. eexists _, st2. split; [|exact Ep]. done.
Qed.

(** The scenario of the specification is a registry in good order. *)
Lemma processing_order_total_witness :
  memtextures (entries scenario) ≡ₚ (entries scenario).*1.
Proof.
  apply (processing_order_total scenario).
  split; [|by repeat constructor].
  simpl. repeat (apply NoDup_cons; split; [set_solver|]). apply NoDup_nil_2.
Defined.

(** ** AddRow *)

Lemma grow_dims_ok st : dims_ok st → dims_ok (grow st).
Proof.
  unfold dims_ok, grow. simpl. intros (Hx & Hy & Hmx & Hmy).
  rewrite !shl32_1 by lia. lia.
Qed.

Lemma grow_headroom st : dims_ok st → at_max st = false → headroom (grow st) < headroom st.
Proof.
  unfold dims_ok, at_max, headroom, grow. simpl. intros (Hx & Hy & Hmx & Hmy) Hmax.
  rewrite !shl32_1 by lia.
  apply andb_false_iff in Hmax. rewrite !Z.leb_gt in Hmax. lia.
Qed.

Lemma grow_n_succ n st : Nat.iter (S n) grow st = Nat.iter n grow (grow st).
Proof. induction n as [|n IH]; [done|]. simpl in *. by rewrite IH. Qed.

Lemma grow_n_frame n st : ∃ a, Nat.iter n grow st = set_atlasSize st a.
Proof.
  induction n as [|n [a IH]]; simpl; [apply frame_refl|]. rewrite IH. by eexists.
Qed.

Lemma AddRow_unfold fuel st w h :
  AddRow fuel st w h =
    if short st h then
      if at_max st then Some (st, None)
      else match fuel with
           | O => None
           | S fuel' => AddRow fuel' (grow st) w h
           end
    else Some (push_row st h, Some (length (imageRows st))).
Proof. by destruct fuel. Qed.

Lemma AddRow_total fuel st w h :
  dims_ok st → (Z.to_nat (headroom st) ≤ fuel)%nat → is_Some (AddRow fuel st w h).
Proof.
  revert st. induction fuel as [|fuel IH]; intros st Hok Hfuel; rewrite AddRow_unfold.
  - destruct (short st h); [|done]. destruct (at_max st) eqn:Hmax; [done|].
    pose proof (grow_headroom st Hok Hmax) as Hlt.
    assert (0 ≤ headroom (grow st)) by (unfold headroom; lia). lia.
  - destruct (short st h); [|done]. destruct (at_max st) eqn:Hmax; [done|].
    apply IH; [by apply grow_dims_ok|].
    pose proof (grow_headroom st Hok Hmax) as Hlt.
    assert (0 ≤ headroom (grow st)) by (unfold headroom; lia). lia.
Qed.

Lemma AddRow_fuel_mono fuel fuel' st w h res :
  AddRow fuel st w h = Some res → (fuel ≤ fuel')%nat → AddRow fuel' st w h = Some res.
Proof.
  revert fuel' st. induction fuel as [|fuel IH]; intros fuel' st; rewrite !AddRow_unfold.
  - destruct (short st h); [|done]. destruct (at_max st); done.
  - destruct (short st h); [|done]. destruct (at_max st); [done|].
    intros H Hle. destruct fuel' as [|fuel']; [lia|]. apply IH; [by rewrite AddRow_unfold|lia].
Qed.

Lemma AddRow_runs fuel st w h st' r :
  AddRow fuel st w h = Some (st', r) →
  ∃ n, (n ≤ fuel)%nat ∧
    (∀ k, (k < n)%nat →
       short (Nat.iter k grow st) h = true ∧ at_max (Nat.iter k grow st) = false) ∧
    match r with
    | None =>
        short (Nat.iter n grow st) h = true ∧ at_max (Nat.iter n grow st) = true ∧
        st' = Nat.iter n grow st
    | Some i =>
        short (Nat.iter n grow st) h = false ∧
        st' = push_row (Nat.iter n grow st) h ∧ i = length (imageRows st)
    end.
Proof.
  revert st. induction fuel as [|fuel IH]; intros st; rewrite AddRow_unfold.
  - destruct (short st h) eqn:Hs; [destruct (at_max st) eqn:Hm; [|done]|];
      intros [= <- <-]; exists 0%nat; (split; [lia|]); (split; [intros k ?; lia|]); done.
  - destruct (short st h) eqn:Hs; [destruct (at_max st) eqn:Hm|];
      try (intros [= <- <-]; exists 0%nat; (split; [lia|]); (split; [intros k ?; lia|]); done).
    intros H. apply IH in H as (n & Hn & Hk & Hr). exists (S n).
    split; [lia|]. split.
    + intros [|k] Hlt; [done|]. rewrite grow_n_succ. apply Hk. lia.
    + rewrite grow_n_succ. destruct r; [|done].
      destruct Hr as (? & ? & ->). by split_and!.
Qed.

Lemma push_row_fields st h :
  imageRows (push_row st h) = imageRows st ++ [mk_Row (nextRowPos st) h 0] ∧
  nextRowPos (push_row st h) = add32 (nextRowPos st) h ∧
  atlasSize (push_row st h) = atlasSize st ∧ entries (push_row st h) = entries st.
Proof. done. Qed.

(** C4.  [AddRow] on a surface with positive dimensions and maxima below
    [2^30] returns, and whatever it returns came about as follows: the
    surface was doubled on both axes (each clamped to its maximum) [n]
    times, each time because it was too low for the row and not yet at both
    maxima; it then failed if it was still too low with both axes at their
    maxima, and otherwise appended the row (position = the next free row
    position, the requested height, used width 0), advanced the next free
    row position by the height and returned the new, last row. *)
Theorem AddRow_contract (st : CRowAtlasAlloc) (w h : Z) :
  dims_ok st →
  (∃ fuel res, AddRow fuel st w h = Some res) ∧
  (∀ fuel st' r, AddRow fuel st w h = Some (st', r) →
     ∃ n, let g := Nat.iter n grow st in
       (∀ k, (k < n)%nat →
          y (atlasSize (Nat.iter k grow st)) < add32 (nextRowPos st) h ∧
          at_max (Nat.iter k grow st) = false) ∧
       (∀ s, atlasSize (grow s) =
               mk_int2 (Z.min (x (maxsize s)) (shl32 (x (atlasSize s)) 1))
                       (Z.min (y (maxsize s)) (shl32 (y (atlasSize s)) 1))) ∧
       match r with
       | None =>
           y (atlasSize g) < add32 (nextRowPos st) h ∧
           x (maxsize st) ≤ x (atlasSize g) ∧ y (maxsize st) ≤ y (atlasSize g) ∧
           st' = g
       | Some i =>
           add32 (nextRowPos st) h ≤ y (atlasSize g) ∧
           atlasSize st' = atlasSize g ∧
           imageRows st' = imageRows st ++ [mk_Row (nextRowPos st) h 0] ∧
           nextRowPos st' = add32 (nextRowPos st) h ∧
           imageRows st' !! i = Some (mk_Row (nextRowPos st) h 0)
       end).
Proof.
  intros Hok. split.
  - destruct (AddRow_total (Z.to_nat (headroom st)) st w h Hok) as [res Hres]; [lia|].
    by exists (Z.to_nat (headroom st)), res.
  - intros fuel st' r H. apply AddRow_runs in H as (n & _ & Hk & Hr).
    exists n. simpl.
    assert (∀ k, nextRowPos (Nat.iter k grow st) = nextRowPos st ∧
                 maxsize (Nat.iter k grow st) = maxsize st ∧
                 imageRows (Nat.iter k grow st) = imageRows st) as Hfr.
    { intros k. destruct (grow_n_frame k st) as [a ->]. done. }
    split_and!.
    + intros k Hlt. destruct (Hk k Hlt) as [Hs Hm]. split; [|done].
      unfold short in Hs. apply Z.ltb_lt in Hs.
      by destruct (Hfr k) as (<- & _ & _).
    + done.
    + destruct (Hfr n) as (Hnx & Hmx & Hrows). destruct r as [i|].
      * destruct Hr as (Hs & -> & ->). unfold short in Hs. apply Z.ltb_ge in Hs.
        rewrite Hnx in Hs. simpl. rewrite Hnx, Hrows. split_and!; try done.
        rewrite lookup_app_r by done. by rewrite Nat.sub_diag.
      * destruct Hr as (Hs & Hm & ->). unfold short in Hs. apply Z.ltb_lt in Hs.
        rewrite Hnx in Hs. unfold at_max in Hm. apply andb_true_iff in Hm as [Hm1 Hm2].
        apply Z.leb_le in Hm1, Hm2. rewrite Hmx in Hm1, Hm2. done.
Qed.

(** New-row creation on the scenario's surface. *)
Lemma AddRow_contract_witness :
  ∃ fuel res, AddRow fuel scenario 52 22 = Some res.
Proof.
  apply (AddRow_contract scenario 52 22).
  unfold dims_ok. simpl. lia.
Defined.

(** ** New rows and the requested width *)

Lemma AddRow_width_irrelevant fuel st w w' h : AddRow fuel st w' h = AddRow fuel st w h.
Proof.
  revert st. induction fuel as [|fuel IH]; intros st; rewrite !(AddRow_unfold _ st); [done|].
  by rewrite IH.
Qed.

Lemma AddRow_succeeds st w h :
  dims_ok st → add32 (nextRowPos st) h ≤ y (maxsize st) →
  ∃ fuel st', AddRow fuel st w h = Some (st', Some (length (imageRows st))).
Proof.
  intros Hok Hfit.
  destruct (AddRow_total (Z.to_nat (headroom st)) st w h Hok) as [[st' r] Hres]; [lia|].
  exists (Z.to_nat (headroom st)), st'. rewrite Hres.
  apply AddRow_runs in Hres as (n & _ & _ & Hr). destruct r as [i|].
  - by destruct Hr as (_ & _ & ->).
  - destruct Hr as (Hs & Hm & _). exfalso.
    destruct (grow_n_frame n st) as [a Ha]. rewrite Ha in Hs, Hm.
    unfold short in Hs. unfold at_max in Hm. simpl in *.
    apply Z.ltb_lt in Hs. apply andb_true_iff in Hm as [_ Hm]. apply Z.leb_le in Hm. lia.
Qed.

Lemma FindRow_found_or_added fuel st w h :
  (∃ i, (i < length (imageRows st))%nat ∧ FindRow fuel st w h = Some (st, Some i)) ∨
  FindRow fuel st w h = AddRow fuel st w h.
Proof.
  unfold FindRow.
  assert (∀ rows b i0,
    match bestRow b with Some j => (j < i0)%nat | None => True end →
    match bestRow (FindRow_scan (x (atlasSize st)) w h b i0 rows) with
    | Some j => (j < i0 + length rows)%nat
    | None => True
    end) as Hscan.
  { induction rows as [|row rows IH]; intros b i0 Hb; simpl.
    - destruct (bestRow b); [lia|done].
    - specialize (IH (FindRow_step (x (atlasSize st)) w h b i0 row) (S i0)).
      replace (i0 + S (length rows))%nat with (S i0 + length rows)%nat by lia.
      apply IH. unfold FindRow_step. repeat case_match; simplify_eq/=; try done; lia. }
  specialize (Hscan (imageRows st) (mk_best (x (atlasSize st)) f10000 None) 0%nat I).
  destruct (bestRow _) as [j|]; [left; by exists j|by right].
Qed.

(** ** The order on floats

    A float that is not a NaN is ranked by a triple of integers, compared
    lexicographically: its sign class, then exponent and mantissa (negated
    for negative floats). *)

Lemma flt_rank f1 f2 :
  flt f1 f2 = true ↔ ∃ k1 k2, frank f1 = Some k1 ∧ frank f2 = Some k2 ∧ rank_lt k1 k2.
Proof.
  unfold flt, SFltb, rank_lt.
  destruct f1 as [s1|s1| |s1 m1 e1], f2 as [s2|s2| |s2 m2 e2];
    try destruct s1; try destruct s2; simpl;
    try change (Pos.compare_cont Eq m1 m2) with (Pos.compare m1 m2);
    try destruct (Z.compare_spec e1 e2); try destruct (Pos.compare_spec m1 m2); simpl;
    (split; [intros ?; try done; eexists _, _; (split; [done|]); (split; [done|]); simpl; lia
            |intros (k1 & k2 & ? & ? & ?); simplify_eq/=; try done; lia]).
Qed.

Lemma feq_rank f1 f2 :
  feq f1 f2 = true ↔ ∃ k, frank f1 = Some k ∧ frank f2 = Some k.
Proof.
  unfold feq, SFeqb.
  destruct f1 as [s1|s1| |s1 m1 e1], f2 as [s2|s2| |s2 m2 e2];
    try destruct s1; try destruct s2; simpl;
    try change (Pos.compare_cont Eq m1 m2) with (Pos.compare m1 m2);
    try destruct (Z.compare_spec e1 e2); try destruct (Pos.compare_spec m1 m2); simpl;
    (split; [intros ?; try done; eexists; (split; [done|]); try done; repeat f_equal; lia
            |intros (k & ? & ?); simplify_eq/=; try done; lia]).
Qed.

Lemma beats_spec a b :
  beats a b = true ↔ flt a.1 b.1 = true ∨ (feq a.1 b.1 = true ∧ a.2 < b.2).
Proof.
  unfold beats. rewrite orb_true_iff, andb_true_iff, Z.ltb_lt. done.
Qed.

Lemma beats_rank a b :
  beats a b = true ↔
  ∃ k1 k2, frank a.1 = Some k1 ∧ frank b.1 = Some k2 ∧
           (rank_lt k1 k2 ∨ (k1 = k2 ∧ a.2 < b.2)).
Proof.
  rewrite beats_spec, flt_rank, feq_rank. split.
  - intros [(k1 & k2 & ? & ? & ?)|[(k & ? & ?) ?]]; [exists k1, k2|exists k, k]; eauto.
  - intros (k1 & k2 & ? & ? & [?|[-> ?]]); [left; eauto|right; eauto].
Qed.

Lemma beats_irrefl a : beats a a = false.
Proof.
  apply not_true_iff_false. rewrite beats_rank.
  intros (k1 & k2 & H1 & H2 & H). simplify_eq. unfold rank_lt in H. lia.
Qed.

Lemma beats_trans a b c : beats a b = true → beats b c = true → beats a c = true.
Proof.
  rewrite !beats_rank. intros (k1 & k2 & H1 & H2 & H) (k2' & k3 & H2' & H3 & H').
  simplify_eq. exists k1, k3. split_and!; [done..|].
  unfold rank_lt in *. destruct H as [H|[-> H]], H' as [H'|[-> H']]; [left; lia..|right; split; [done|lia]].
Qed.

(** Among floats that are not NaN the order is total: what beats [b] also
    beats everything that does not beat [b]. *)
Lemma beats_total a b c :
  beats a b = true → beats c b = false → is_Some (frank c.1) → beats a c = true.
Proof.
  rewrite <- not_true_iff_false, !beats_rank.
  intros (k1 & k2 & H1 & H2 & H) Hn [k3 H3].
  exists k1, k3. split_and!; [done..|].
  destruct k1 as [[a1 a2] a3], k2 as [[b1 b2] b3], k3 as [[c1 c2] c3].
  unfold rank_lt in *. simpl in *.
  destruct (decide ((a1, a2, a3) = (c1, c2, c3))) as [Heq|Hne].
  - simplify_eq. right. split; [done|].
    destruct (Z.lt_trichotomy a.2 c.2) as [?|[?|?]]; [done|exfalso..].
    + apply Hn. exists (c1, c2, c3), (b1, b2, b3). split_and!; [done..|].
      destruct H as [?|[? ?]]; [by left|right; split; [done|lia]].
    + apply Hn. exists (c1, c2, c3), (b1, b2, b3). split_and!; [done..|].
      destruct H as [?|[? ?]]; [by left|right; split; [done|lia]].
  - left.
    destruct (decide (c1 < b1 ∨ c1 = b1 ∧ (c2 < b2 ∨ c2 = b2 ∧ c3 < b3))) as [Hlt|Hge].
    + exfalso. apply Hn. exists (c1, c2, c3), (b1, b2, b3). simpl. eauto.
    + assert (¬ (c1 = a1 ∧ c2 = a2 ∧ c3 = a3)) by (intros (-> & -> & ->); done).
      destruct H as [H|[H _]]; [lia|]. simplify_eq. lia.
Qed.

Lemma beats_not_nan a b : beats a b = true → is_Some (frank a.1).
Proof. rewrite beats_rank. intros (k1 & ? & -> & _). by eexists. Qed.

(** ** FindRow *)

Lemma FindRow_step_spec ax w h b i row :
  FindRow_step ax w h b i row =
    if decide (fits ax w h row) then
      if beats (cand h row) (bestRatio b, bestWidth b)
      then mk_best (width row) (row_ratio row h) (Some i) else b
    else b.
Proof.
  unfold FindRow_step, fits, beats, cand. simpl.
  destruct (Z.ltb_spec (sub32 ax (width row)) w);
    [by rewrite decide_False by lia|].
  destruct (Z.ltb_spec (height row) h); [by rewrite decide_False by lia|].
  by rewrite decide_True by lia.
Qed.

Section FindRow_scan.
Context (ax w h : Z).

Local Abbreviation init := (f10000, ax).

Lemma scanned_step pre b row :
  scanned ax w h pre b →
  scanned ax w h (pre ++ [row]) (FindRow_step ax w h b (length pre) row).
Proof.
  rewrite FindRow_step_spec. unfold scanned. intros Hb.
  destruct (decide (fits ax w h row)) as [Hfit|Hnfit];
    [destruct (beats (cand h row) (bestRatio b, bestWidth b)) eqn:Hbeat|].
  - (* the row becomes the best *)
    simpl. exists row.
    assert (beats (cand h row) init = true) as Hadm.
    { destruct (bestRow b) as [j|].
      - destruct Hb as (rj & _ & Hr & Hw & _ & Hadm & _).
        apply (beats_trans _ (cand h rj)); [|done]. unfold cand. by rewrite <- Hr, <- Hw.
      - destruct Hb as (Hr & Hw & _). by rewrite <- Hr, <- Hw. }
    split_and!; try done.
    + rewrite lookup_app_r by done. by rewrite Nat.sub_diag.
    + intros k rk Hk Hfk. apply lookup_snoc_Some in Hk as [[Hlt Hk]|[-> <-]];
        [|apply beats_irrefl].
      apply not_true_iff_false. intros Hkr.
      pose proof (beats_trans _ _ _ Hkr Hbeat) as Hkb.
      destruct (bestRow b) as [j|].
      * destruct Hb as (rj & _ & Hr & Hw & _ & _ & Hmin & _).
        rewrite Hr, Hw in Hkb. change (beats (cand h rk) (cand h rj) = true) in Hkb.
        by rewrite (Hmin k rk Hk Hfk) in Hkb.
      * destruct Hb as (Hr & Hw & Hnone).
        rewrite Hr, Hw in Hkb. change (beats (cand h rk) init = true) in Hkb.
        by rewrite (Hnone k rk Hk Hfk) in Hkb.
    + intros k rk Hlt Hk Hfk Hak.
      rewrite lookup_app_l in Hk by done.
      destruct (bestRow b) as [j|].
      * destruct Hb as (rj & _ & Hr & Hw & _ & _ & Hmin & _).
        rewrite Hr, Hw in Hbeat.
        apply (beats_total _ (cand h rj)); [done|by apply (Hmin k)|].
        by apply beats_not_nan in Hak.
      * destruct Hb as (_ & _ & Hnone). by rewrite (Hnone k rk Hk Hfk) in Hak.
  - (* the row fits and the best stays *)
    destruct (bestRow b) as [j|].
    + destruct Hb as (rj & Hj & Hr & Hw & Hfj & Hadm & Hmin & Hfirst).
      exists rj. split_and!; try done.
      * apply lookup_app_l_Some, Hj.
      * intros k rk Hk Hfk. apply lookup_snoc_Some in Hk as [[Hlt Hk]|[-> <-]]; [eauto|].
        unfold cand at 2. by rewrite <- Hr, <- Hw.
      * intros k rk Hlt Hk Hfk Hak. apply (Hfirst k); try done.
        apply lookup_lt_Some in Hj. by rewrite lookup_app_l in Hk by lia.
    + destruct Hb as (Hr & Hw & Hnone). split_and!; try done.
      intros k rk Hk Hfk. apply lookup_snoc_Some in Hk as [[Hlt Hk]|[-> <-]]; [eauto|].
      by rewrite <- Hr, <- Hw.
  - (* the row has no room *)
    destruct (bestRow b) as [j|].
    + destruct Hb as (rj & Hj & Hr & Hw & Hfj & Hadm & Hmin & Hfirst).
      exists rj. split_and!; try done.
      * apply lookup_app_l_Some, Hj.
      * intros k rk Hk Hfk. apply lookup_snoc_Some in Hk as [[Hlt Hk]|[-> <-]]; [eauto|done].
      * intros k rk Hlt Hk Hfk Hak. apply (Hfirst k); try done.
        apply lookup_lt_Some in Hj. by rewrite lookup_app_l in Hk by lia.
    + destruct Hb as (Hr & Hw & Hnone). split_and!; try done.
      intros k rk Hk Hfk. apply lookup_snoc_Some in Hk as [[Hlt Hk]|[-> <-]]; [eauto|done].
Qed.

Lemma scanned_scan rows pre b :
  scanned ax w h pre b →
  scanned ax w h (pre ++ rows) (FindRow_scan ax w h b (length pre) rows).
Proof.
  revert pre b. induction rows as [|row rows IH]; intros pre b Hb; simpl.
  - by rewrite app_nil_r.
  - apply scanned_step with (row := row) in Hb.
    apply IH in Hb. rewrite length_app in Hb. simpl in Hb.
    rewrite Nat.add_1_r in Hb. by rewrite <- app_assoc in Hb.
Qed.

Lemma scanned_all rows :
  scanned ax w h rows (FindRow_scan ax w h (mk_best ax f10000 None) 0%nat rows).
Proof. apply (scanned_scan rows []). simpl. split_and!; try done. Qed.
End FindRow_scan.

Lemma beats_false a b :
  beats a b = false →
  flt a.1 b.1 = false ∧ (feq a.1 b.1 = true → b.2 ≤ a.2).
Proof.
  unfold beats. intros [Hlt Heq]%orb_false_iff. split; [done|].
  intros Hfeq. rewrite Hfeq in Heq. simpl in Heq. by apply Z.ltb_ge in Heq.
Qed.

(** C3 (amended).  [FindRow] considers the rows with room for the request
    (remaining width at least the requested width, height at least the
    requested height) whose ratio, the single-precision quotient of row
    height by requested height, is below 10000, or equal to 10000 with used
    width below the surface width.  If there is such a row it returns the
    first one that no row with room beats: none has a smaller ratio, and
    none with an equal ratio has a smaller used width.  If there is none it
    returns what [AddRow] returns. *)
Theorem FindRow_best_fit (fuel : nat) (st : CRowAtlasAlloc) (w h : Z) :
  let ax := x (atlasSize st) in
  let rows := imageRows st in
  let ratio row := row_ratio row h in
  let considered row :=
    fits ax w h row ∧
    (flt (ratio row) f10000 = true ∨ (feq (ratio row) f10000 = true ∧ width row < ax)) in
  (∃ j rj, rows !! j = Some rj ∧ considered rj ∧
     FindRow fuel st w h = Some (st, Some j) ∧
     (∀ k rk, rows !! k = Some rk → fits ax w h rk →
        flt (ratio rk) (ratio rj) = false ∧
        (feq (ratio rk) (ratio rj) = true → width rj ≤ width rk)) ∧
     (∀ k rk, (k < j)%nat → rows !! k = Some rk → considered rk →
        flt (ratio rj) (ratio rk) = true ∨
        (feq (ratio rj) (ratio rk) = true ∧ width rj < width rk)))
  ∨ ((∀ k rk, rows !! k = Some rk → ¬ considered rk) ∧
     FindRow fuel st w h = AddRow fuel st w h).
Proof.
  intros ax rows ratio considered.
  pose proof (scanned_all ax w h rows) as Hs. unfold scanned in Hs.
  unfold FindRow. fold ax rows.
  destruct (bestRow _) as [j|].
  - left. destruct Hs as (rj & Hj & _ & _ & Hfit & Hadm & Hmin & Hfirst).
    exists j, rj. split_and!; try done.
    + split; [done|]. by apply beats_spec in Hadm.
    + intros k rk Hk Hfk. by apply (beats_false (cand h rk) (cand h rj)), (Hmin k).
    + intros k rk Hlt Hk [Hfk Hak].
      apply (beats_spec (cand h rj) (cand h rk)), (Hfirst k); try done.
      by apply beats_spec.
  - right. destruct Hs as (_ & _ & Hnone). split; [|done].
    intros k rk Hk [Hfk Hak]. apply (beats_spec (cand h rk) (f10000, ax)) in Hak.
    by rewrite (Hnone k rk Hk Hfk) in Hak.
Qed.

(** The row of height 30000 has room for a request of 11 x 2, yet the
    search passes it over (its ratio is 15000) and opens a new row. *)
Lemma FindRow_skips_tall_row : ¬ FindRow_as_specified 0 tall_row 11 2.
Proof.
  intros [H _]. destruct H as (j & rj & _ & _ & _ & HF).
  - exists 0%nat, (mk_Row 0 30000 11). split; [done|]. unfold fits. by vm_compute.
  - vm_compute in HF. discriminate HF.
Qed.

(** ** EstimateNeededSize: termination *)

Lemma estimate_loop_unfold fuel needed free st :
  estimate_loop fuel needed free st =
    if lacks_slack free needed then
      if at_max st then Some st
      else match fuel with
           | O => None
           | S fuel' =>
               estimate_loop fuel' needed (estimate_resize free st).1
                 (estimate_resize free st).2
           end
    else Some st.
Proof. destruct fuel; simpl; [done|]. by destruct (estimate_resize free st). Qed.

(** A surface short of slack on which no axis can be doubled within its
    maximum, though not both are at their maxima, is never left. *)
Lemma estimate_loop_stuck fuel needed free st :
  lacks_slack free needed = true → at_max st = false →
  estimate_resize free st = (free, st) →
  estimate_loop fuel needed free st = None.
Proof.
  intros Hslack Hmax Hfix. induction fuel as [|fuel IH];
    rewrite estimate_loop_unfold, Hslack, Hmax; [done|].
  by rewrite Hfix.
Qed.

(** C5.  On a fresh 256 x 256 surface with maxima of 300 x 300 and a single
    250 x 250 entry, the resize loop of the estimator does not end: slack is
    missing, the surface is below both maxima, and neither axis can be
    doubled within its maximum, so each turn leaves everything as it was.
    [EstimateNeededSize], and with it [Allocate], returns for no amount of
    fuel. *)
Theorem EstimateNeededSize_never_returns :
  ∀ fuel, EstimateNeededSize fuel odd_maxima = None ∧ Allocate fuel odd_maxima = None.
Proof.
  intros fuel.
  assert (EstimateNeededSize fuel odd_maxima = None) as Hest.
  { apply estimate_loop_stuck; by vm_compute. }
  split; [done|]. unfold Allocate.
  change (set_atlasSize odd_maxima _) with odd_maxima. by rewrite Hest.
Qed.

(** *** Where the estimator does return *)

Lemma reaches_le a m : 1 ≤ a → reaches a m → a ≤ m.
Proof.
  intros Ha [j ->]. assert (1 ≤ 2 ^ Z.of_nat j) by (apply (Z.pow_le_mono_r 2 0); lia). nia.
Qed.

Lemma reaches_step a m : 1 ≤ a → reaches a m → a < m → 2 * a ≤ m ∧ reaches (2 * a) m.
Proof.
  intros Ha [[|j] ->] Hlt; [lia|].
  rewrite Nat2Z.inj_succ, Z.pow_succ_r in * by lia.
  assert (1 ≤ 2 ^ Z.of_nat j) by (apply (Z.pow_le_mono_r 2 0); lia).
  split; [nia|]. exists j. lia.
Qed.

Lemma estimate_resize_doubling free st :
  doubling_ok st → at_max st = false →
  doubling_ok (estimate_resize free st).2 ∧
  headroom (estimate_resize free st).2 < headroom st.
Proof.
  unfold doubling_ok, at_max, headroom, estimate_resize.
  intros (Hx & Hy & Hmx & Hmy & Hrx & Hry) Hmax.
  apply andb_false_iff in Hmax. rewrite !Z.leb_gt in Hmax.
  pose proof (reaches_le _ _ Hx Hrx). pose proof (reaches_le _ _ Hy Hry).
  rewrite !shl32_1 by lia.
  destruct (Z.leb_spec (2 * x (atlasSize st)) (x (maxsize st))) as [Hdx|Hdx]; simpl;
    rewrite ?shl32_1 by lia;
    destruct (Z.leb_spec (2 * y (atlasSize st)) (y (maxsize st))) as [Hdy|Hdy]; simpl.
  - rewrite !Z.min_r by lia.
    assert (x (atlasSize st) < x (maxsize st)) as Hltx by lia.
    assert (y (atlasSize st) < y (maxsize st)) as Hlty by lia.
    destruct (reaches_step _ _ Hx Hrx Hltx), (reaches_step _ _ Hy Hry Hlty).
    split_and!; try done; lia.
  - rewrite !Z.min_r by lia.
    assert (x (atlasSize st) < x (maxsize st)) as Hltx by lia.
    destruct (reaches_step _ _ Hx Hrx Hltx).
    split_and!; try done; lia.
  - rewrite !Z.min_r by lia.
    assert (y (atlasSize st) < y (maxsize st)) as Hlty by lia.
    destruct (reaches_step _ _ Hy Hry Hlty).
    split_and!; try done; lia.
  - exfalso. destruct Hmax as [Hltx|Hlty].
    + destruct (reaches_step _ _ Hx Hrx Hltx). lia.
    + destruct (reaches_step _ _ Hy Hry Hlty). lia.
Qed.

Lemma estimate_loop_total fuel needed free st :
  doubling_ok st → (Z.to_nat (headroom st) ≤ fuel)%nat →
  is_Some (estimate_loop fuel needed free st).
Proof.
  revert free st. induction fuel as [|fuel IH]; intros free st Hok Hfuel;
    rewrite estimate_loop_unfold;
    (destruct (lacks_slack free needed); [|done]);
    (destruct (at_max st) eqn:Hmax; [done|]);
    destruct (estimate_resize_doubling free st Hok Hmax) as [Hok' Hlt];
    assert (0 ≤ headroom (estimate_resize free st).2) by (unfold headroom; lia).
  - lia.
  - apply IH; [done|lia].
Qed.

(** With maxima that doubling reaches exactly, the estimator returns. *)
Theorem EstimateNeededSize_returns (st : CRowAtlasAlloc) :
  doubling_ok st → ∃ fuel st', EstimateNeededSize fuel st = Some st'.
Proof.
  intros Hok.
  destruct (estimate_loop_total (Z.to_nat (headroom st))
              (entries_area (entries st)) (initial_free st) st Hok) as [st' H]; [lia|].
  by exists (Z.to_nat (headroom st)), st'.
Qed.

(** The scenario of the specification has such maxima. *)
Example scenario_doubling_ok : doubling_ok scenario.
Proof.
  unfold doubling_ok. simpl. split_and!; try lia; by exists 2%nat.
Qed.

(** ** EstimateNeededSize: what it computes *)

Lemma area_sum_nonneg es :
  Forall (fun it : string * SAtlasEntry => 0 ≤ x (size it.2) ∧ 0 ≤ y (size it.2)) es →
  0 ≤ area_sum es.
Proof. induction 1 as [|it es [? ?] _ IH]; simpl; nia. Qed.

Lemma entries_area_acc es acc :
  Forall (fun it : string * SAtlasEntry => 0 ≤ x (size it.2) ∧ 0 ≤ y (size it.2)) es →
  0 ≤ acc → acc + area_sum es < 2^31 →
  fold_left (fun acc it => add32 acc (mul32 (x (size it.2)) (y (size it.2)))) es acc
  = acc + area_sum es.
Proof.
  intros Hes. revert acc. induction Hes as [|it es [? ?] Hes IH]; intros acc Hacc Hlt; simpl.
  - lia.
  - pose proof (area_sum_nonneg es Hes). simpl in Hlt.
    assert (0 ≤ x (size it.2) * y (size it.2)) by nia.
    rewrite mul32_small, add32_small by lia. rewrite IH by lia. lia.
Qed.

Lemma entries_area_exact es :
  Forall (fun it : string * SAtlasEntry => 0 ≤ x (size it.2) ∧ 0 ≤ y (size it.2)) es →
  area_sum es < 2^31 → entries_area es = area_sum es.
Proof. intros Hes Hlt. unfold entries_area. rewrite entries_area_acc; [lia|done|lia|lia]. Qed.

Lemma rows_free_area_bounds ax rows :
  Forall (fun row => 0 ≤ height row ∧ 0 ≤ width row ≤ ax) rows →
  0 ≤ rows_free_area ax rows ≤ ax * sum_heights rows ∧ 0 ≤ sum_heights rows.
Proof. induction 1 as [|row rows (? & ? & ?) _ IH]; simpl; [lia|nia]. Qed.

Lemma rows_free_area_double ax rows :
  rows_free_area (2 * ax) rows = rows_free_area ax rows + ax * sum_heights rows.
Proof. induction rows as [|row rows IH]; simpl; [lia|]. rewrite IH. lia. Qed.

Lemma rows_free_acc ax rows acc :
  Forall (fun row => 0 ≤ height row ∧ 0 ≤ width row ≤ ax) rows →
  0 ≤ ax < 2^31 → 0 ≤ acc → acc + rows_free_area ax rows < 2^31 →
  rows_free ax rows acc = acc + rows_free_area ax rows.
Proof.
  intros Hrows Hax. revert acc. unfold rows_free.
  induction Hrows as [|row rows (? & ? & ?) Hrows IH]; intros acc Hacc Hlt; simpl.
  - lia.
  - pose proof (rows_free_area_bounds ax rows Hrows) as [[? _] _]. simpl in Hlt.
    assert (0 ≤ height row * (ax - width row)) by nia.
    rewrite sub32_small, mul32_small, add32_small by lia. rewrite IH by lia. lia.
Qed.

Lemma free_area_bounds st :
  estimate_ok st → 0 ≤ free_area st ≤ x (atlasSize st) * y (atlasSize st).
Proof.
  intros (Hx & Hy & Hmx & Hmy & Hnext & Hle & Hrows & _).
  pose proof (rows_free_area_bounds _ _ Hrows) as [[? ?] ?].
  unfold free_area. rewrite <- Hnext in *. nia.
Qed.

Lemma initial_free_exact st : estimate_ok st → initial_free st = free_area st.
Proof.
  intros Hok. pose proof (free_area_bounds st Hok) as Hb.
  destruct Hok as (Hx & Hy & Hmx & Hmy & Hnext & Hle & Hrows & _).
  pose proof (rows_free_area_bounds _ _ Hrows) as [[? ?] ?].
  unfold initial_free, free_area in *. rewrite <- Hnext in *.
  assert (0 ≤ x (atlasSize st) * (y (atlasSize st) - nextRowPos st)) by nia.
  assert (x (atlasSize st) * y (atlasSize st) ≤ 2^15 * 2^15) by nia.
  rewrite sub32_small, mul32_small by lia.
  apply rows_free_acc; [done|lia..].
Qed.

Lemma resize_dims_ok st : estimate_ok st → estimate_ok (resize_dims st).
Proof.
  intros (Hx & Hy & Hmx & Hmy & Hnext & Hle & Hrows & Hes & Harea).
  unfold estimate_ok, resize_dims. simpl.
  split_and!; try done; try (case_match; rewrite ?Z.leb_le, ?Z.leb_gt in *; lia).
  eapply Forall_impl; [exact Hrows|]. simpl. intros row (? & ? & ?).
  case_match; rewrite ?Z.leb_le, ?Z.leb_gt in *; lia.
Qed.

(** The loop body adds to [spaceFree] exactly the area that the resize
    exposes: the running value stays the free area of the surface. *)
Lemma estimate_resize_exact st :
  estimate_ok st →
  estimate_resize (free_area st) st = (free_area (resize_dims st), resize_dims st).
Proof.
  intros Hok. pose proof (free_area_bounds st Hok) as Hb.
  destruct Hok as (Hx & Hy & Hmx & Hmy & Hnext & Hle & Hrows & _).
  pose proof (rows_free_area_bounds _ _ Hrows) as [[? ?] ?].
  unfold estimate_resize, resize_dims, free_area in *.
  destruct st as [es [ax ay] [mx my] nl md next rows]. simpl in *.
  rewrite !shl32_1 by lia.
  assert (0 ≤ ax * ay ≤ 2^15 * 2^15) by nia.
  destruct (Z.leb_spec (2 * ax) mx) as [Hdx|Hdx]; simpl;
    rewrite ?shl32_1 by lia;
    destruct (Z.leb_spec (2 * ay) my) as [Hdy|Hdy]; simpl; unfold set_atlasSize; simpl.
  - rewrite (Z.min_r mx) by lia. rewrite (Z.min_r my) by lia.
    assert (0 ≤ ax * ay ≤ 2^14 * 2^14) by nia.
    assert (0 ≤ 2 * ax * ay ≤ 2^15 * 2^14) by nia.
    rewrite (mul32_small ax ay) by lia. rewrite (mul32_small (2 * ax) ay) by lia.
    rewrite (add32_small _ (ax * ay)) by lia. rewrite add32_small by lia.
    rewrite rows_free_area_double. f_equal. subst next. lia.
  - rewrite (Z.min_r mx) by lia.
    assert (0 ≤ ax * ay ≤ 2^14 * 2^15) by nia.
    rewrite (mul32_small ax ay) by lia. rewrite add32_small by lia.
    rewrite rows_free_area_double. f_equal. subst next. lia.
  - rewrite (Z.min_r my) by lia.
    assert (0 ≤ ax * ay ≤ 2^15 * 2^14) by nia.
    rewrite (mul32_small ax ay) by lia. rewrite add32_small by lia.
    f_equal. lia.
  - done.
Qed.

Lemma estimate_loop_runs fuel needed st st' :
  estimate_ok st →
  estimate_loop fuel needed (free_area st) st = Some st' →
  ∃ n, st' = Nat.iter n resize_dims st ∧
    (∀ k, (k < n)%nat →
       lacks_slack (free_area (Nat.iter k resize_dims st)) needed = true ∧
       at_max (Nat.iter k resize_dims st) = false) ∧
    (lacks_slack (free_area st') needed = false ∨ at_max st' = true).
Proof.
  revert st. induction fuel as [|fuel IH]; intros st Hok; rewrite estimate_loop_unfold.
  - destruct (lacks_slack (free_area st) needed) eqn:Hs;
      [destruct (at_max st) eqn:Hm; [|done]|];
      intros [= <-]; exists 0%nat; (split; [done|]); (split; [intros k ?; lia|]); eauto.
  - destruct (lacks_slack (free_area st) needed) eqn:Hs;
      [destruct (at_max st) eqn:Hm|];
      try (intros [= <-]; exists 0%nat; (split; [done|]); (split; [intros k ?; lia|]); by eauto).
    rewrite estimate_resize_exact by done. simpl.
    intros H. apply IH in H as (n & -> & Hk & Hend); [|by apply resize_dims_ok].
    exists (S n). rewrite Nat.iter_succ_r. split_and!; [done| |done].
    intros [|k] Hlt; [done|]. rewrite Nat.iter_succ_r. apply Hk. lia.
Qed.

(** X12.  On a surface whose areas fit an [int], the estimator computes
    needed as the sum over the entries of width times height and free as
    surface width times (surface height minus next free row position) plus
    the sum over the rows of row height times (surface width minus used
    width).  A round of its loop doubles each axis whose doubled dimension
    does not exceed its maximum and leaves the other axis as it is, and its
    count of the free area is then the free area of the resized surface.
    Whenever it returns, it has made some number of such rounds, each
    entered because free was below needed times 1.2 (compared in single
    precision) away from both maxima, and has ended with the slack there or
    with both axes at their maxima. *)
Theorem EstimateNeededSize_computes (st : CRowAtlasAlloc) :
  estimate_ok st →
  entries_area (entries st) = area_sum (entries st) ∧
  initial_free st = free_area st ∧
  (∀ s, estimate_ok s →
     estimate_resize (free_area s) s = (free_area (resize_dims s), resize_dims s)) ∧
  (∀ fuel st', EstimateNeededSize fuel st = Some st' →
     ∃ n, st' = Nat.iter n resize_dims st ∧
       (∀ k, (k < n)%nat →
          lacks_slack (free_area (Nat.iter k resize_dims st)) (area_sum (entries st)) = true ∧
          at_max (Nat.iter k resize_dims st) = false) ∧
       (lacks_slack (free_area st') (area_sum (entries st)) = false ∨
        at_max st' = true)).
Proof.
  intros Hok.
  assert (entries_area (entries st) = area_sum (entries st)) as Hneeded.
  { destruct Hok as (_ & _ & _ & _ & _ & _ & _ & Hes & Harea).
    by apply entries_area_exact. }
  split_and!; [done|by apply initial_free_exact|apply estimate_resize_exact|].
  intros fuel st'. unfold EstimateNeededSize.
  rewrite Hneeded, initial_free_exact by done. by apply estimate_loop_runs.
Qed.

(** The scenario of the specification is such a surface. *)
Lemma EstimateNeededSize_computes_witness : initial_free scenario = free_area scenario.
Proof.
  apply (EstimateNeededSize_computes scenario).
  unfold estimate_ok. simpl. split_and!; try lia; repeat constructor; simpl; lia.
Defined.

(** C6.  On the surface as constructed, 256 x 256, with maxima of 300 x 512
    and one entry of 250 x 300, the estimator returns a surface of
    256 x 512: the width, below its maximum of 300, is neither doubled nor
    clamped to the maximum, because the doubling is guarded by
    [(atlasSize.x << 1) <= maxsize.x], under which the [std::min] that
    clamps is dead.  The estimator as the claim words it, which doubles an
    axis below its maximum and clamps it, returns 300 x 512. *)
Lemma EstimateNeededSize_leaves_width :
  (atlasSize <$> EstimateNeededSize 4 odd_width_maximum) = Some (mk_int2 256 512) ∧
  (atlasSize <$> EstimateNeededSize_as_specified 4 odd_width_maximum)
    = Some (mk_int2 300 512) ∧
  EstimateNeededSize 4 odd_width_maximum ≠ EstimateNeededSize_as_specified 4 odd_width_maximum.
Proof. split_and!; [by vm_compute..|]. vm_compute. discriminate. Qed.

(** ** Row heights *)

Lemma sum_heights_app rows1 rows2 :
  sum_heights (rows1 ++ rows2) = sum_heights rows1 + sum_heights rows2.
Proof. induction rows1 as [|row rows1 IH]; simpl; [done|]. rewrite IH. lia. Qed.

Lemma sum_heights_alter f i rows :
  (∀ row, height (f row) = height row) →
  sum_heights (alter f i rows) = sum_heights rows.
Proof.
  intros Hf. revert i. induction rows as [|row rows IH]; intros [|i]; simpl; try done.
  - by rewrite Hf.
  - f_equal. apply IH.
Qed.

Lemma push_row_heights st h : heights_add_up st → heights_add_up (push_row st h).
Proof.
  unfold heights_add_up, push_row. simpl. intros ->.
  rewrite sum_heights_app. simpl. unfold add32. rewrite wrap32_add_l. f_equal. lia.
Qed.

Lemma AddRow_heights fuel st w h st' r :
  heights_add_up st → AddRow fuel st w h = Some (st', r) → heights_add_up st'.
Proof.
  intros Hst H. apply AddRow_runs in H as (n & _ & _ & Hr).
  assert (heights_add_up (Nat.iter n grow st)) as Hg.
  { destruct (grow_n_frame n st) as [a ->]. done. }
  destruct r as [i|].
  - destruct Hr as (_ & -> & _). by apply push_row_heights.
  - by destruct Hr as (_ & _ & ->).
Qed.

Lemma FindRow_heights fuel st w h st' r :
  heights_add_up st → FindRow fuel st w h = Some (st', r) → heights_add_up st'.
Proof.
  intros Hst. destruct (FindRow_found_or_added fuel st w h) as [(i & _ & ->)| ->].
  - by intros [= <- _].
  - by apply AddRow_heights.
Qed.

Lemma place_heights st k padding i : heights_add_up st → heights_add_up (place st k padding i).
Proof.
  unfold heights_add_up, place. simpl. intros ->. by rewrite sum_heights_alter.
Qed.

Lemma place_all_heights fuel padding mem st ok st' ok' :
  heights_add_up st → place_all fuel padding mem st ok = Some (st', ok') →
  heights_add_up st'.
Proof.
  revert st ok. induction mem as [|k mem IH]; intros st ok Hst; simpl.
  - by intros [= <- _].
  - destruct (FindRow _ _ _ _) as [[st1 [i|]]|] eqn:HF; [| |done];
      apply FindRow_heights in HF; try done; apply IH; [|done].
    by apply place_heights.
Qed.

(** ** Partial failure *)

Lemma entry_update_keys es k f : (entry_update es k f).*1 = es.*1.
Proof.
  induction es as [|[k' e] es IH]; simpl; [done|].
  destruct (String.eqb k' k); simpl; [done|]. f_equal. exact IH.
Qed.

Lemma entry_at_update_ne es k k' f :
  k ≠ k' → entry_at (entry_update es k f) k' = entry_at es k'.
Proof.
  intros Hne. induction es as [|[k0 e] es IH]; simpl; [done|].
  rewrite !String_eqb_decide.
  destruct (decide (k0 = k)) as [->|Hk].
  - rewrite bool_decide_eq_true_2 by done. simpl. rewrite String_eqb_decide.
    by rewrite bool_decide_eq_false_2 by done.
  - rewrite (bool_decide_eq_false_2 (k0 = k)) by done. simpl. rewrite String_eqb_decide.
    by rewrite IH.
Qed.

Lemma entry_at_update_eq es k f :
  k ∈ es.*1 → entry_at (entry_update es k f) k = f (entry_at es k).
Proof.
  induction es as [|[k0 e] es IH]; simpl; [set_solver|].
  rewrite !String_eqb_decide. intros Hin.
  destruct (decide (k0 = k)) as [->|Hk].
  - rewrite bool_decide_eq_true_2 by done. simpl. rewrite String_eqb_decide.
    by rewrite bool_decide_eq_true_2 by done.
  - rewrite (bool_decide_eq_false_2 (k0 = k)) by done. simpl. rewrite String_eqb_decide.
    rewrite (bool_decide_eq_false_2 (k0 = k)) by done. apply IH. set_solver.
Qed.

Lemma AddRow_entries fuel st w h st' r :
  AddRow fuel st w h = Some (st', r) → entries st' = entries st.
Proof.
  intros H. apply AddRow_runs in H as (n & _ & _ & Hr).
  destruct (grow_n_frame n st) as [a Ha]. rewrite Ha in Hr.
  destruct r; [by destruct Hr as (_ & -> & _)|by destruct Hr as (_ & _ & ->)].
Qed.

Lemma FindRow_entries fuel st w h st' r :
  FindRow fuel st w h = Some (st', r) → entries st' = entries st.
Proof.
  destruct (FindRow_found_or_added fuel st w h) as [(i & _ & ->)| ->].
  - by intros [= <- _].
  - apply AddRow_entries.
Qed.

Lemma place_entries_ne st k padding i k' :
  k ≠ k' → entry_at (entries (place st k padding i)) k' = entry_at (entries st) k'.
Proof. intros Hne. unfold place. simpl. by apply entry_at_update_ne. Qed.

Lemma place_entries_eq st k padding i :
  k ∈ (entries st).*1 →
  texCoords (entry_at (entries (place st k padding i)) k)
  = rect_in (imageRows st !!! i) (entry_at (entries st) k).
Proof. intros Hin. unfold place. simpl. by rewrite entry_at_update_eq. Qed.

Lemma place_keys st k padding i : (entries (place st k padding i)).*1 = (entries st).*1.
Proof. unfold place. simpl. apply entry_update_keys. Qed.

(** The loop and its record of placements run alike, and the loop touches
    the rectangles of the entries it walks only. *)
Lemma place_all_placements fuel padding mem st ok st' ok' :
  place_all fuel padding mem st ok = Some (st', ok') →
  NoDup mem → (∀ k, k ∈ mem → k ∈ (entries st).*1) →
  ∃ tr, placements fuel padding mem st = Some tr ∧ tr.*1 = mem ∧
    (ok' = true ↔ ok = true ∧ ∀ k r, (k, r) ∈ tr → is_Some r) ∧
    (entries st').*1 = (entries st).*1 ∧
    (∀ k, k ∉ mem → entry_at (entries st') k = entry_at (entries st) k) ∧
    (∀ k, (k, None) ∈ tr → entry_at (entries st') k = entry_at (entries st) k) ∧
    (∀ k i t, (k, Some (i, t)) ∈ tr →
       texCoords (entry_at (entries st') k) = t ∧
       size (entry_at (entries st') k) = size (entry_at (entries st) k) ∧
       ∃ row, t = rect_in row (entry_at (entries st) k)).
Proof.
  revert st ok. induction mem as [|k mem IH]; intros st ok; simpl.
  - intros [= <- <-] _ _. exists []. split_and!; try done; set_solver.
  - intros H Hnd Hin. apply NoDup_cons in Hnd as [Hk Hnd].
    destruct (FindRow _ _ _ _) as [[st1 [i|]]|] eqn:HF; [| |done];
      pose proof (FindRow_entries _ _ _ _ _ _ HF) as Hes.
    + (* the entry got row [i] *)
      apply IH in H as (tr & -> & Htr & Hok & Hkeys & Hout & Hnone & Hsome);
        [|done|intros k' Hk'; rewrite place_keys, Hes; apply Hin; set_solver].
      eexists. split; [done|]. rewrite place_keys, Hes in Hkeys.
      assert (k ∉ tr.*1) as Hktr by by rewrite Htr.
      assert (k ∈ (entries st1).*1) as Hk1 by (rewrite Hes; apply Hin; set_solver).
      split_and!.
      * simpl. f_equal. exact Htr.
      * rewrite Hok. split; intros [? Hall]; (split; [done|]).
        -- intros k' r [[= -> ->]|Hin']%elem_of_cons; [done|eauto].
        -- intros k' r Hin'. apply (Hall k'). set_solver.
      * done.
      * intros k' Hk'. rewrite Hout by set_solver.
        rewrite place_entries_ne by set_solver. by rewrite Hes.
      * intros k' [[=]|Hin']%elem_of_cons. rewrite (Hnone k' Hin').
        rewrite place_entries_ne; [by rewrite Hes|].
        intros ->. apply Hktr. apply list_elem_of_fmap. by exists (k', None).
      * intros k' i' t [[= -> -> ->]|Hin']%elem_of_cons.
        -- rewrite Hout by done. rewrite place_entries_eq by done.
           rewrite <- Hes. split_and!; [done| |by eexists].
           unfold place. simpl. by rewrite entry_at_update_eq.
        -- assert (k ≠ k') as Hne.
           { intros ->. apply Hktr. apply list_elem_of_fmap. by exists (k', Some (i', t)). }
           destruct (Hsome k' i' t Hin') as (Ht & Hsz & row & Hrow).
           rewrite place_entries_ne in Hsz, Hrow by done. rewrite Hes in Hsz, Hrow.
           split_and!; [done..|by exists row].
    + (* the entry got no row *)
      apply IH in H as (tr & -> & Htr & Hok & Hkeys & Hout & Hnone & Hsome);
        [|done|intros k' Hk'; rewrite Hes; apply Hin; set_solver].
      eexists. split; [done|]. rewrite Hes in Hkeys.
      assert (k ∉ tr.*1) as Hktr by by rewrite Htr.
      split_and!.
      * simpl. f_equal. exact Htr.
      * rewrite Hok. split; [by intros [? _]|].
        intros [_ Hall]. by destruct (Hall k None) as [? ?]; [set_solver|].
      * done.
      * intros k' Hk'. rewrite Hout by set_solver. by rewrite Hes.
      * intros k' [[= ->]|Hin']%elem_of_cons.
        -- rewrite Hout by done. by rewrite Hes.
        -- rewrite (Hnone k' Hin'). by rewrite Hes.
      * intros k' i' t [[=]|Hin']%elem_of_cons.
        destruct (Hsome k' i' t Hin') as (Ht & Hsz & row & Hrow).
        rewrite Hes in Hsz, Hrow. split_and!; [done..|by exists row].
Qed.

(** C2.  When [Allocate] returns, every registered entry has been walked
    once, in processing order, and has obtained a row or none.  The result
    is [true] exactly when every entry obtained a row.  An entry without a
    row keeps its rectangle, and the loop goes on: every entry that obtained
    a row, before or after a failure, has the rectangle written in that row
    (left edge at the used width, top at the row position, right and bottom
    at these plus its size). *)
Theorem Allocate_partial_failure (fuel : nat) (st st' : CRowAtlasAlloc) (ok : bool) :
  Allocate fuel st = Some (st', ok) →
  ∃ tr, Allocate_placements fuel st = Some tr ∧
    tr.*1 = memtextures (entries st) ∧
    (∀ k, k ∈ (entries st).*1 ↔ k ∈ tr.*1) ∧
    (ok = true ↔ ∀ k r, (k, r) ∈ tr → is_Some r) ∧
    (∀ k, (k, None) ∈ tr → entry_at (entries st') k = entry_at (entries st) k) ∧
    (∀ k i t, (k, Some (i, t)) ∈ tr →
       texCoords (entry_at (entries st') k) = t ∧
       ∃ row, t = mk_float4 (width row) (position row)
                    (add32 (width row) (x (size (entry_at (entries st) k))))
                    (add32 (position row) (y (size (entry_at (entries st) k))))).
Proof.
  unfold Allocate, Allocate_placements.
  destruct (EstimateNeededSize fuel _) as [st1|] eqn:E; [|done].
  apply EstimateNeededSize_frame in E as [a ->].
  destruct (place_all _ _ _ _ _) as [[st2 ok']|] eqn:Ep; [|done].
  intros [= <- <-].
  apply place_all_placements in Ep as (tr & Htr & Hkeys & Hok & _ & _ & Hnone & Hsome).
  - exists tr. simpl in *. split_and!; try done.
    + intros k. by rewrite Hkeys, memtextures_elem.
    + rewrite Hok. naive_solver.
    + intros k i t Hin. destruct (Hsome k i t Hin) as (Ht & _ & row & ->).
      split; [done|]. by exists row.
  - apply memtextures_NoDup.
  - intros k. simpl. by rewrite memtextures_elem.
Qed.

Lemma Allocate_partial_failure_witness :
  ∃ st' tr, Allocate 0 too_tall = Some (st', false) ∧
    Allocate_placements 0 too_tall = Some tr ∧
    tr.*1 = memtextures (entries too_tall).
Proof.
  assert (∃ st', Allocate 0 too_tall = Some (st', false)) as [st' E]
    by (eexists; vm_compute; reflexivity).
  destruct (Allocate_partial_failure 0 too_tall st' false E) as (tr & H1 & H2 & _).
  by exists st', tr.
Defined.

(** ** Independence of the registration order *)

Lemma entries_area_Permutation es1 es2 : es1 ≡ₚ es2 → entries_area es1 = entries_area es2.
Proof.
  intros Hp. unfold entries_area. generalize 0.
  induction Hp as [|it es1 es2 _ IH|it1 it2 es|es1 es2 es3 _ IH1 _ IH2]; intros acc; simpl.
  - done.
  - apply IH.
  - f_equal. unfold add32. rewrite !wrap32_add_l. f_equal. lia.
  - by rewrite IH1.
Qed.

Lemma entry_update_Permutation es1 es2 k f :
  NoDup es1.*1 → es1 ≡ₚ es2 → entry_update es1 k f ≡ₚ entry_update es2 k f.
Proof.
  intros Hnd Hp. revert Hnd.
  induction Hp as [|[k1 e1] es1 es2 Hp IH|[k1 e1] [k2 e2] es|es1 es2 es3 Hp1 IH1 Hp2 IH2];
    intros Hnd; simpl.
  - done.
  - apply NoDup_cons in Hnd as [_ Hnd].
    destruct (String.eqb k1 k); [by constructor|]. constructor. by apply IH.
  - assert (k2 ≠ k1) as Hne by (apply NoDup_cons in Hnd as [Hn _]; set_solver).
    rewrite !String_eqb_decide.
    repeat (case_bool_decide; simpl; rewrite ?String_eqb_decide); simplify_eq;
      apply Permutation_swap.
  - etrans; [by apply IH1|]. apply IH2. by rewrite <- Hp1.
Qed.

Lemma memtextures_Permutation_eq es1 es2 :
  NoDup es1.*1 → es1 ≡ₚ es2 → memtextures es1 = memtextures es2.
Proof.
  intros Hnd Hp. unfold memtextures. rewrite (sortedNames_Permutation es1 es2 Hp).
  apply stable_sort_ext. intros a b _ _.
  by rewrite !(entry_at_Permutation es1 es2).
Qed.

(** The steps that do not read the registry do the same on a surface whose
    registry is listed otherwise. *)
Lemma estimate_resize_set_entries free st es :
  estimate_resize free (set_entries st es)
  = ((estimate_resize free st).1, set_entries (estimate_resize free st).2 es).
Proof.
  unfold estimate_resize. simpl.
  destruct (shl32 (x (atlasSize st)) 1 <=? x (maxsize st)); simpl;
    destruct (shl32 (y (atlasSize st)) 1 <=? y (maxsize st)); done.
Qed.

Lemma estimate_loop_set_entries fuel needed free st es :
  estimate_loop fuel needed free (set_entries st es)
  = (fun s => set_entries s es) <$> estimate_loop fuel needed free st.
Proof.
  revert free st. induction fuel as [|fuel IH]; intros free st;
    rewrite (estimate_loop_unfold _ needed free (set_entries st es)),
      (estimate_loop_unfold _ needed free st);
    change (at_max (set_entries st es)) with (at_max st);
    destruct (lacks_slack free needed); try done; destruct (at_max st); try done.
  rewrite estimate_resize_set_entries. simpl. apply IH.
Qed.

Lemma AddRow_set_entries fuel st es w h :
  AddRow fuel (set_entries st es) w h
  = prod_map (fun s => set_entries s es) id <$> AddRow fuel st w h.
Proof.
  revert st. induction fuel as [|fuel IH]; intros st;
    rewrite (AddRow_unfold _ (set_entries st es)), (AddRow_unfold _ st);
    change (short (set_entries st es) h) with (short st h);
    change (at_max (set_entries st es)) with (at_max st);
    destruct (short st h); try done; destruct (at_max st); try done.
  apply (IH (grow st)).
Qed.

Lemma FindRow_set_entries fuel st es w h :
  FindRow fuel (set_entries st es) w h
  = prod_map (fun s => set_entries s es) id <$> FindRow fuel st w h.
Proof.
  unfold FindRow. simpl. destruct (bestRow _); [done|]. apply AddRow_set_entries.
Qed.

Lemma place_all_set_entries fuel padding mem st es ok :
  NoDup (entries st).*1 → entries st ≡ₚ es →
  match place_all fuel padding mem st ok,
        place_all fuel padding mem (set_entries st es) ok with
  | Some (s1, ok1), Some (s2, ok2) =>
      ok1 = ok2 ∧ entries s1 ≡ₚ entries s2 ∧ s2 = set_entries s1 (entries s2) ∧
      NoDup (entries s1).*1
  | None, None => True
  | _, _ => False
  end.
Proof.
  revert st es ok. induction mem as [|k mem IH]; intros st es ok Hnd Hp; simpl.
  - done.
  - rewrite <- (entry_at_Permutation (entries st) es) by done.
    rewrite FindRow_set_entries.
    destruct (FindRow _ _ _ _) as [[st1 [i|]]|] eqn:HF; simpl; [| |done];
      pose proof (FindRow_entries _ _ _ _ _ _ HF) as Hes.
    + assert (place (set_entries st1 es) k padding i
              = set_entries (place st1 k padding i)
                  (entry_update es k
                     (set_texCoords (rect_in (imageRows st1 !!! i) (entry_at es k))))) as ->.
      { unfold place. simpl. by rewrite <- (entry_at_Permutation (entries st1) es) by by rewrite Hes. }
      apply IH.
      * by rewrite place_keys, Hes.
      * unfold place. simpl.
        rewrite <- (entry_at_Permutation (entries st1) es) by by rewrite Hes.
        apply entry_update_Permutation; by rewrite Hes.
    + apply IH; by rewrite Hes.
Qed.

(** C8.  Two allocators that differ only in the order in which the registry
    lists the same entries (distinct keys) behave alike under [Allocate]:
    either neither returns, or both return the same result, the same final
    surface size and rows, and the same entry, rectangle included, under
    every name. *)
Theorem Allocate_order_independent (fuel : nat) (st : CRowAtlasAlloc)
    (es : list (string * SAtlasEntry)) :
  NoDup (entries st).*1 → entries st ≡ₚ es →
  match Allocate fuel st, Allocate fuel (set_entries st es) with
  | Some (s1, ok1), Some (s2, ok2) =>
      ok1 = ok2 ∧ atlasSize s1 = atlasSize s2 ∧
      nextRowPos s1 = nextRowPos s2 ∧ imageRows s1 = imageRows s2 ∧
      entries s1 ≡ₚ entries s2 ∧
      ∀ k, entry_at (entries s1) k = entry_at (entries s2) k
  | None, None => True
  | _, _ => False
  end.
Proof.
  intros Hnd Hp. unfold Allocate, EstimateNeededSize. simpl.
  rewrite <- (entries_area_Permutation _ _ Hp).
  change (initial_free (set_atlasSize (set_entries st es) ?a))
    with (initial_free (set_atlasSize st a)).
  change (set_atlasSize (set_entries st es) ?a) with (set_entries (set_atlasSize st a) es).
  rewrite estimate_loop_set_entries.
  destruct (estimate_loop _ _ _ _) as [st1|] eqn:E; simpl; [|done].
  apply estimate_loop_frame in E as [a ->]. simpl.
  rewrite <- (memtextures_Permutation_eq (entries st) es) by done.
  pose proof (place_all_set_entries fuel
    (shl32 1 (GetNumTexLevels (set_atlasSize (set_atlasSize st
       (mk_int2 (x (atlasSize st)) (wrap32 (bit_ceil (to_uint32 (y (atlasSize st))))))) a)))
    (memtextures (entries st))
    (set_atlasSize (set_atlasSize st
       (mk_int2 (x (atlasSize st)) (wrap32 (bit_ceil (to_uint32 (y (atlasSize st))))))) a)
    es true Hnd Hp) as H.
  simpl in H.
  destruct (place_all _ _ _ _ _) as [[s1 ok1]|];
    destruct (place_all _ _ _ _ _) as [[s2 ok2]|]; try done.
  destruct H as (-> & Hp' & Hs2 & Hnd'). rewrite Hs2. simpl.
  split_and!; try done. intros k. by apply entry_at_Permutation.
Qed.

(** The scenario registered in the opposite order. *)
Lemma Allocate_order_independent_witness :
  match Allocate 0 scenario, Allocate 0 (set_entries scenario (reverse (entries scenario))) with
  | Some (s1, ok1), Some (s2, ok2) =>
      ok1 = ok2 ∧ atlasSize s1 = atlasSize s2 ∧
      nextRowPos s1 = nextRowPos s2 ∧ imageRows s1 = imageRows s2 ∧
      entries s1 ≡ₚ entries s2 ∧
      ∀ k, entry_at (entries s1) k = entry_at (entries s2) k
  | None, None => True
  | _, _ => False
  end.
Proof.
  apply (Allocate_order_independent 0 scenario).
  - simpl. repeat (apply NoDup_cons; split; [set_solver|]). apply NoDup_nil_2.
  - symmetry. apply reverse_Permutation.
Defined.

(** ** Placed rectangles do not overlap

    What a pass does keep, on surfaces and entries that stay clear of
    integer overflow: rows are bands stacked from
    0, and the rectangles placed in one pass, padding included, are
    pairwise disjoint and lie above the final surface height. *)

Lemma sum_heights_take_S rows i row :
  rows !! i = Some row →
  sum_heights (take (S i) rows) = sum_heights (take i rows) + height row.
Proof.
  intros Hi. rewrite (take_S_r _ _ _ Hi), sum_heights_app. simpl. lia.
Qed.

Lemma sum_heights_take_mono rows i j :
  (∀ k row, rows !! k = Some row → 0 ≤ height row) → (i ≤ j)%nat →
  sum_heights (take i rows) ≤ sum_heights (take j rows).
Proof.
  intros Hh. induction 1 as [|j Hle IH]; [done|].
  destruct (rows !! j) as [row|] eqn:Hj.
  - rewrite (sum_heights_take_S _ _ _ Hj). specialize (Hh _ _ Hj). lia.
  - apply lookup_ge_None in Hj. rewrite (take_ge rows (S j)) by lia.
    by rewrite (take_ge rows j) in IH by lia.
Qed.

Lemma banded_below rows i j ri rj :
  banded rows → rows !! i = Some ri → rows !! j = Some rj → (i < j)%nat →
  position ri + height ri ≤ position rj.
Proof.
  intros Hb Hi Hj Hlt.
  destruct (Hb _ _ Hi) as (-> & _ & _), (Hb _ _ Hj) as (-> & _ & _).
  rewrite <- (sum_heights_take_S _ _ _ Hi).
  apply sum_heights_take_mono; [|lia]. intros k row Hk. by destruct (Hb _ _ Hk) as (_ & ? & _).
Qed.

Lemma banded_within rows i ri :
  banded rows → rows !! i = Some ri →
  0 ≤ position ri ∧ position ri + height ri ≤ sum_heights rows.
Proof.
  intros Hb Hi.
  assert (∀ k row, rows !! k = Some row → 0 ≤ height row) as Hh.
  { intros k row Hk. by destruct (Hb _ _ Hk) as (_ & ? & _). }
  destruct (Hb _ _ Hi) as (-> & _ & _). split.
  - change 0 with (sum_heights (take 0 rows)). apply sum_heights_take_mono; [done|lia].
  - rewrite <- (sum_heights_take_S _ _ _ Hi).
    rewrite <- (take_ge rows (length rows)) at 2 by done.
    apply sum_heights_take_mono; [done|]. apply lookup_lt_Some in Hi. lia.
Qed.

Lemma banded_snoc rows h :
  banded rows → 0 ≤ h → banded (rows ++ [mk_Row (sum_heights rows) h 0]).
Proof.
  intros Hb Hh i row Hi. apply lookup_snoc_Some in Hi as [[Hlt Hi]|[-> <-]].
  - rewrite take_app_le by lia. by apply Hb.
  - rewrite take_app_length. simpl. lia.
Qed.

Lemma sum_heights_take_alter f i j rows :
  (∀ row, height (f row) = height row) →
  sum_heights (take j (alter f i rows)) = sum_heights (take j rows).
Proof.
  intros Hf. revert i j. induction rows as [|row rows IH]; intros [|i] [|j]; simpl; try done.
  - by rewrite Hf.
  - f_equal. apply IH.
Qed.

Lemma banded_add_width rows i w ri :
  banded rows → rows !! i = Some ri → 0 ≤ w → width ri + w ≤ 2^29 →
  banded (alter (add_width w) i rows).
Proof.
  intros Hb Hi Hw Hle j row Hj.
  rewrite sum_heights_take_alter by done.
  destruct (decide (i = j)) as [<-|Hne].
  - rewrite list_lookup_alter_eq, Hi in Hj. simpl in Hj. injection Hj as <-.
    destruct (Hb _ _ Hi) as (? & ? & ? & ?). unfold add_width. simpl.
    rewrite add32_small by lia. lia.
  - rewrite list_lookup_alter_ne in Hj by done. by apply Hb.
Qed.

Lemma in_row_snoc pad rows r p : in_row pad rows p → in_row pad (rows ++ [r]) p.
Proof.
  intros (row & Hi & H). exists row. split; [|done]. by apply lookup_app_l_Some.
Qed.

Lemma in_row_add_width pad rows i w ri p :
  rows !! i = Some ri → 0 ≤ w → -2^31 ≤ width ri + w < 2^31 →
  in_row pad rows p → in_row pad (alter (add_width w) i rows) p.
Proof.
  intros Hi Hw Hle (row & Hp & H).
  destruct (decide (i = p.1)) as [Heq|Hne].
  - exists (add_width w row). rewrite <- Heq, list_lookup_alter_eq, Hi.
    rewrite <- Heq, Hi in Hp. injection Hp as ->. split; [done|].
    unfold add_width. simpl. rewrite add32_small by lia. lia.
  - exists row. by rewrite list_lookup_alter_ne.
Qed.

Lemma FindRow_cases fuel st w h :
  (∃ j rj, imageRows st !! j = Some rj ∧ fits (x (atlasSize st)) w h rj ∧
     FindRow fuel st w h = Some (st, Some j))
  ∨ FindRow fuel st w h = AddRow fuel st w h.
Proof.
  pose proof (scanned_all (x (atlasSize st)) w h (imageRows st)) as Hs.
  unfold scanned in Hs. unfold FindRow.
  destruct (bestRow _) as [j|]; [|by right].
  left. destruct Hs as (rj & Hj & _ & _ & Hfit & _). by exists j, rj.
Qed.

(** ** New rows and the requested width, concluded *)

(** What [AddRow] hands back for a height that fits below the maximum
    height: never the null pointer, but the index of a row that it has
    appended, which starts at the old next free row position, has the
    requested height and nothing in it yet. *)
Lemma AddRow_grants fuel st w h st' r :
  add32 (nextRowPos st) h ≤ y (maxsize st) →
  AddRow fuel st w h = Some (st', r) →
  r = Some (length (imageRows st)) ∧
  imageRows st' = imageRows st ++ [mk_Row (nextRowPos st) h 0] ∧
  imageRows st' !! length (imageRows st) = Some (mk_Row (nextRowPos st) h 0) ∧
  nextRowPos st' = add32 (nextRowPos st) h ∧
  entries st' = entries st ∧
  add32 (nextRowPos st) h ≤ y (atlasSize st').
Proof.
  intros Hfit Hres. apply AddRow_runs in Hres as (n & _ & _ & Hr).
  destruct (grow_n_frame n st) as [a Ha]. rewrite Ha in Hr.
  destruct r as [i|].
  - destruct Hr as (Hs & -> & ->). unfold short in Hs. simpl in *.
    apply Z.ltb_ge in Hs. split_and!; try done.
    by rewrite lookup_app_r, Nat.sub_diag by done.
  - destruct Hr as (Hs & Hm & _). exfalso.
    unfold short in Hs. unfold at_max in Hm. simpl in *.
    apply Z.ltb_lt in Hs. apply andb_true_iff in Hm as [_ Hm]. apply Z.leb_le in Hm. lia.
Qed.

(** C10.  Whether [AddRow] yields a row does not depend on the requested
    width.  On a surface with sound dimensions, for every request whose
    height fits below the maximum height and whatever its width: [AddRow]
    returns; whenever it returns, it returns not the null pointer but the
    row that it has appended to the rows, at the old next free row position,
    of the requested height and empty, with the next free row position moved
    past it and the surface at least that high; [FindRow] returns, and
    whenever it returns, it returns not the null pointer but a row of the
    allocator that is at least as high as the request.  An entry wider than
    the maximum surface width is thus placed, with its right edge beyond the
    surface width. *)
Theorem new_row_ignores_width (st : CRowAtlasAlloc) (w h : Z) :
  dims_ok st → add32 (nextRowPos st) h ≤ y (maxsize st) →
  (∀ fuel w', AddRow fuel st w' h = AddRow fuel st w h) ∧
  (∃ fuel st', AddRow fuel st w h = Some (st', Some (length (imageRows st)))) ∧
  (∀ fuel st' r, AddRow fuel st w h = Some (st', r) →
     r = Some (length (imageRows st)) ∧
     imageRows st' = imageRows st ++ [mk_Row (nextRowPos st) h 0] ∧
     imageRows st' !! length (imageRows st) = Some (mk_Row (nextRowPos st) h 0) ∧
     nextRowPos st' = add32 (nextRowPos st) h ∧
     entries st' = entries st ∧
     add32 (nextRowPos st) h ≤ y (atlasSize st')) ∧
  (∃ fuel st' i, FindRow fuel st w h = Some (st', Some i)) ∧
  (∀ fuel st' r, FindRow fuel st w h = Some (st', r) →
     ∃ i ri, r = Some i ∧ imageRows st' !! i = Some ri ∧ h ≤ height ri ∧
       entries st' = entries st) ∧
  (∃ st', Allocate 0 wide_entry = Some (st', true) ∧
     x1 (texCoords (entry_at (entries st') "wide")) = 0 ∧
     x2 (texCoords (entry_at (entries st') "wide")) = 3000 ∧
     x (atlasSize st') = 256 ∧ x (maxsize st') = 2048).
Proof.
  intros Hok Hfit. split_and!.
  - intros fuel w'. apply AddRow_width_irrelevant.
  - by apply AddRow_succeeds.
  - intros fuel st' r. by apply AddRow_grants.
  - destruct (AddRow_succeeds st w h Hok Hfit) as (fuel & st' & Hadd).
    destruct (FindRow_found_or_added fuel st w h) as [(i & _ & Hi)|Hi].
    + by exists fuel, st, i.
    + exists fuel, st', (length (imageRows st)). by rewrite Hi.
  - intros fuel st' r HF.
    destruct (FindRow_cases fuel st w h) as [(j & rj & Hj & [_ Hfh] & HF')|HF'];
      rewrite HF' in HF.
    + injection HF as <- <-. by exists j, rj.
    + apply AddRow_grants in HF as (-> & _ & Hrow & _ & Hes & _); [|done].
      eexists _, _. split_and!; [done|exact Hrow|simpl; lia|done].
  - eexists. split; [vm_compute; reflexivity|]. by vm_compute.
Qed.

(** A request wider than the maximum surface width on the fresh surface:
    the row that it gets. *)
Lemma new_row_ignores_width_witness :
  ∃ fuel st', AddRow fuel wide_entry 3001 11 = Some (st', Some 0%nat) ∧
    imageRows st' = [mk_Row 0 11 0] ∧ nextRowPos st' = 11.
Proof.
  assert (dims_ok wide_entry) as Hok by (unfold dims_ok; simpl; lia).
  assert (add32 (nextRowPos wide_entry) 11 ≤ y (maxsize wide_entry)) as Hfit
    by (vm_compute; discriminate).
  destruct (new_row_ignores_width wide_entry 3001 11 Hok Hfit)
    as (_ & (fuel & st' & Hadd) & Hrow & _).
  destruct (Hrow fuel st' _ Hadd) as (_ & Hrows & _ & Hnext & _).
  exists fuel, st'. split_and!; [exact Hadd|exact Hrows|exact Hnext].
Defined.

Lemma banded_sum_nonneg rows : banded rows → 0 ≤ sum_heights rows.
Proof.
  intros Hb. change 0 with (sum_heights (take 0 rows)).
  rewrite <- (take_ge rows (length rows)) at 2 by done.
  apply sum_heights_take_mono; [|lia].
  intros k row Hk. by destruct (Hb _ _ Hk) as (_ & ? & _).
Qed.

Lemma grow_packing st :
  packing st → packing (grow st) ∧ x (atlasSize st) ≤ x (atlasSize (grow st)).
Proof.
  unfold packing, grow. simpl. intros (Hx & Hmx & Hy & Hmy & Hn & Hs & Hb).
  rewrite !shl32_1 by lia. split_and!; try done; lia.
Qed.

Lemma grow_n_packing n st :
  packing st →
  packing (Nat.iter n grow st) ∧ x (atlasSize st) ≤ x (atlasSize (Nat.iter n grow st)).
Proof.
  intros Hst. induction n as [|n [IH1 IH2]]; [done|].
  change (Nat.iter (S n) grow st) with (grow (Nat.iter n grow st)).
  destruct (grow_packing _ IH1) as [H1 H2]. split; [exact H1|].
  etrans; [exact IH2|exact H2].
Qed.

(** What [FindRow] hands back in such a pass: the state stays sound, the
    width does not shrink, rectangles placed before stay in their rows, and
    the row returned has the height and the width left for the request. *)
Lemma FindRow_packing fuel pad st w h st1 r P :
  packing st → 1 ≤ w ≤ 2^29 → 1 ≤ h ≤ 2^29 →
  FindRow fuel st w h = Some (st1, r) →
  Forall (in_row pad (imageRows st)) P →
  packing st1 ∧ entries st1 = entries st ∧
  x (atlasSize st) ≤ x (atlasSize st1) ∧
  Forall (in_row pad (imageRows st1)) P ∧
  match r with
  | Some i => ∃ ri, imageRows st1 !! i = Some ri ∧ h ≤ height ri ∧ width ri + w ≤ 2^29
  | None => True
  end.
Proof.
  intros Hst Hw Hh HF HP.
  pose proof Hst as (Hx & Hmx & Hy & Hmy & Hn & Hs & Hb).
  destruct (FindRow_cases fuel st w h) as [(j & rj & Hj & [Hfw Hfh] & HF')|HF'];
    rewrite HF' in HF.
  - injection HF as <- <-. split_and!; try done.
    exists rj. split_and!; try done.
    destruct (Hb _ _ Hj) as (_ & _ & ? & ?). rewrite sub32_small in Hfw by lia. lia.
  - pose proof (AddRow_entries _ _ _ _ _ _ HF) as Hes.
    apply AddRow_runs in HF as (n & _ & _ & Hr).
    destruct (grow_n_packing n st Hst) as [Hg Hgx].
    destruct (grow_n_frame n st) as [a Ha]. rewrite Ha in *.
    destruct r as [i|].
    + destruct Hr as (Hshort & -> & ->).
      pose proof (banded_sum_nonneg _ Hb).
      unfold short in Hshort. simpl in Hshort. apply Z.ltb_ge in Hshort.
      rewrite add32_small in Hshort by lia.
      destruct Hg as (Hgx' & _ & Hgy & _). simpl in *.
      split_and!; try done.
      * unfold packing. simpl. rewrite add32_small by lia.
        split_and!; try done; try lia.
        -- rewrite sum_heights_app. simpl. lia.
        -- rewrite Hs. apply banded_snoc; [done|lia].
      * eapply Forall_impl; [exact HP|]. intros p. apply in_row_snoc.
      * eexists. split; [by rewrite lookup_app_r, Nat.sub_diag by done|]. simpl. lia.
    + destruct Hr as (_ & _ & ->). by split_and!.
Qed.

Lemma entry_at_Forall (Q : SAtlasEntry → Prop) es k :
  Forall (fun it => Q it.2) es → k ∈ es.*1 → Q (entry_at es k).
Proof.
  induction 1 as [|[k' e] es HQ _ IH]; simpl; [set_solver|].
  rewrite String_eqb_decide. intros Hin.
  case_bool_decide; [done|]. apply IH. set_solver.
Qed.

Lemma entry_update_Forall (Q : SAtlasEntry → Prop) es k f :
  (∀ e, Q e → Q (f e)) → Forall (fun it => Q it.2) es →
  Forall (fun it => Q it.2) (entry_update es k f).
Proof.
  intros Hf. induction 1 as [|[k' e] es HQ Hes IH]; simpl; [done|].
  destruct (String.eqb k' k); constructor; simpl; eauto.
Qed.

(** Disjoint from everything placed before, and in its row. *)
Lemma place_packing pad st k i ri P :
  packing st → sizes_ok pad (entries st) → k ∈ (entries st).*1 →
  imageRows st !! i = Some ri →
  add32 (y (size (entry_at (entries st) k))) pad ≤ height ri →
  width ri + add32 (x (size (entry_at (entries st) k))) pad ≤ 2^29 →
  Forall (in_row pad (imageRows st)) P →
  let t := rect_in ri (entry_at (entries st) k) in
  packing (place st k pad i) ∧ sizes_ok pad (entries (place st k pad i)) ∧
  Forall (in_row pad (imageRows (place st k pad i))) ((i, t) :: P) ∧
  Forall (fun p => rect_disjoint pad t p.2) P ∧
  0 ≤ x1 t ≤ x2 t ∧ 0 ≤ y1 t ≤ y2 t.
Proof.
  intros Hst [Hpad Hsz] Hk Hi Hh Hw HP t.
  pose proof Hst as (Hx & Hmx & Hy & Hmy & Hn & Hs & Hb).
  pose proof (entry_at_Forall
    (fun e => 0 ≤ x (size e) ≤ 2^28 ∧ 0 ≤ y (size e) ≤ 2^28) _ k Hsz Hk) as [Hsx Hsy].
  rewrite add32_small in Hh, Hw by lia.
  destruct (Hb _ _ Hi) as (Hpos & Hhi & Hwi).
  destruct (banded_within _ _ _ Hb Hi) as [Hp0 Hp1].
  assert (x2 t = width ri + x (size (entry_at (entries st) k))) as Hx2.
  { unfold t, rect_in. simpl. rewrite add32_small; lia. }
  assert (y2 t = position ri + y (size (entry_at (entries st) k))) as Hy2.
  { unfold t, rect_in. simpl. rewrite add32_small; lia. }
  assert (x1 t = width ri ∧ y1 t = position ri) as [Hx1 Hy1] by done.
  unfold place. rewrite (list_lookup_total_correct _ _ _ Hi). simpl.
  rewrite add32_small by lia.
  split_and!; try lia.
  - unfold packing. simpl. rewrite sum_heights_alter by done.
    split_and!; try done; try lia.
    eapply banded_add_width; [done..|lia|lia].
  - split; [done|]. simpl.
    by apply (entry_update_Forall
      (fun e => 0 ≤ x (size e) ≤ 2^28 ∧ 0 ≤ y (size e) ≤ 2^28)).
  - constructor.
    + exists (add_width (x (size (entry_at (entries st) k)) + pad) ri). simpl.
      rewrite list_lookup_alter_eq, Hi. split; [done|].
      unfold add_width, t, rect_in. simpl. rewrite !add32_small by lia. lia.
    + eapply Forall_impl; [exact HP|]. intros p.
      eapply in_row_add_width; [done|lia|lia].
  - clearbody t. eapply Forall_impl; [exact HP|].
    intros [i' t'] (row & Hi' & Hin). simpl in Hi', Hin |- *.
    unfold rect_disjoint.
    destruct (Nat.lt_trichotomy i' i) as [Hlt|[->|Hlt]].
    + pose proof (banded_below _ _ _ _ _ Hb Hi' Hi Hlt). lia.
    + rewrite Hi in Hi'. injection Hi' as <-. lia.
    + pose proof (banded_below _ _ _ _ _ Hb Hi Hi' Hlt). lia.
  - rewrite add32_small; lia.
  - rewrite add32_small; lia.
Qed.

Lemma rect_disjoint_sym pad t1 t2 : rect_disjoint pad t1 t2 → rect_disjoint pad t2 t1.
Proof. unfold rect_disjoint. lia. Qed.

Lemma placements_packing fuel pad mem st ok st' ok' tr P :
  packing st → sizes_ok pad (entries st) →
  (∀ k, k ∈ mem → k ∈ (entries st).*1) →
  Forall (in_row pad (imageRows st)) P →
  place_all fuel pad mem st ok = Some (st', ok') →
  placements fuel pad mem st = Some tr →
  packing st' ∧ sizes_ok pad (entries st') ∧
  x (atlasSize st) ≤ x (atlasSize st') ∧
  Forall (in_row pad (imageRows st')) (P ++ placed tr) ∧
  Forall (fun p => Forall (fun q => rect_disjoint pad p.2 q.2) (placed tr)) P ∧
  StronglySorted (fun p q => rect_disjoint pad p.2 q.2) (placed tr) ∧
  Forall (fun p => 0 ≤ x1 p.2 ≤ x2 p.2 ∧ 0 ≤ y1 p.2 ≤ y2 p.2) (placed tr).
Proof.
  revert st ok tr P. induction mem as [|k mem IH]; intros st ok tr P Hst Hsz Hin HP; simpl.
  - intros [= <- <-] [= <-]. simpl. rewrite app_nil_r.
    split_and!; try done; try constructor.
    eapply Forall_impl; [exact HP|]. intros; constructor.
  - pose proof Hsz as [Hpad Hes].
    assert (k ∈ (entries st).*1) as Hk by (apply Hin; set_solver).
    pose proof (entry_at_Forall
      (fun e => 0 ≤ x (size e) ≤ 2^28 ∧ 0 ≤ y (size e) ≤ 2^28) _ k Hes Hk) as [Hsx Hsy].
    destruct (FindRow _ _ _ _) as [[st1 r]|] eqn:HF; [|done].
    eapply (FindRow_packing _ pad _ _ _ _ _ P) in HF as (Hst1 & Hes1 & Hx1 & HP1 & Hr);
      [|done|rewrite add32_small; lia..|done].
    destruct r as [i|].
    + destruct Hr as (ri & Hi & Hh & Hw).
      rewrite (list_lookup_total_correct _ _ _ Hi).
      destruct (placements fuel pad mem _) as [tr'|] eqn:Htr; [|done].
      intros Hpl [= <-].
      rewrite <- Hes1 in Hh, Hw, Hsz, Hk.
      destruct (place_packing pad st1 k i ri P Hst1 Hsz Hk Hi Hh Hw HP1)
        as (Hst2 & Hsz2 & HP2 & Hdis & Hxr & Hyr).
      eapply IH in Hpl as (Hst' & Hsz' & Hx' & HP' & Hdis' & Hsorted & Hrange);
        [|done|done| |exact HP2|exact Htr].
      2:{ intros k' Hk'. rewrite place_keys, Hes1. apply Hin. set_solver. }
      assert (x (atlasSize (place st1 k pad i)) = x (atlasSize st1)) as Hxp by done.
      apply Forall_cons in Hdis' as [Ht Hdis'].
      change (placed ((k, Some (i, rect_in ri (entry_at (entries st1) k))) :: tr'))
        with ((i, rect_in ri (entry_at (entries st1) k)) :: placed tr').
      simpl in HP'. apply Forall_cons in HP' as [Hti HP'].
      apply Forall_app in HP' as [HPa HPb].
      split_and!; try done; try lia.
      * apply Forall_app. split; [done|]. by constructor.
      * apply Forall_forall. intros p Hp. constructor.
        -- apply rect_disjoint_sym. by eapply Forall_forall in Hdis.
        -- by eapply Forall_forall in Hdis'.
      * by constructor.
      * constructor; [done|done].
    + destruct (placements fuel pad mem _) as [tr'|] eqn:Htr; [|done].
      intros Hpl [= <-].
      eapply IH in Hpl as (Hst' & Hsz' & Hx' & HP' & Hdis' & Hsorted & Hrange);
        [|done|by rewrite Hes1| |exact HP1|exact Htr].
      2:{ intros k' Hk'. rewrite Hes1. apply Hin. set_solver. }
      split_and!; try done. lia.
Qed.

Lemma bit_ceil_bounds u :
  0 ≤ u ≤ 2^29 → 1 ≤ wrap32 (bit_ceil (to_uint32 u)) ≤ 2^29.
Proof.
  intros Hu. unfold bit_ceil, to_uint32. rewrite (Z.mod_small u) by lia.
  assert (0 ≤ Z.log2_up u ≤ 29) as Hl.
  { split; [apply Z.log2_up_nonneg|].
    destruct (decide (u = 0)) as [->|Hne]; [done|].
    apply Z.log2_up_le_pow2; lia. }
  assert (1 ≤ 2 ^ Z.log2_up u ≤ 2^29) as Hp.
  { split; [apply (Z.pow_le_mono_r 2 0); lia|apply Z.pow_le_mono_r; lia]. }
  rewrite Z.mod_small by lia. rewrite wrap32_small; lia.
Qed.

Lemma padding_bounds st :
  0 ≤ numLevels st ≤ 28 → 1 ≤ shl32 1 (GetNumTexLevels st) ≤ 2^28.
Proof.
  intros Hn. unfold GetNumTexLevels, shl32, bit_width.
  set (u := to_uint32 (GetMinDim st)).
  assert (0 ≤ Z.min (if u =? 0 then 0 else Z.log2 u + 1) (numLevels st) ≤ 28) as Hl.
  { pose proof (Z.log2_nonneg u). destruct (u =? 0); lia. }
  rewrite Z.mod_small by lia. rewrite Z.shiftl_1_l.
  assert (1 ≤ 2 ^ Z.min (if u =? 0 then 0 else Z.log2 u + 1) (numLevels st) ≤ 2^28) as Hp.
  { split; [apply (Z.pow_le_mono_r 2 0); lia|apply Z.pow_le_mono_r; lia]. }
  rewrite wrap32_small; lia.
Qed.

Lemma estimate_resize_dims free st :
  dims_fit st → dims_fit (estimate_resize free st).2.
Proof.
  unfold dims_fit, estimate_resize. intros (Hx & Hmx & Hy & Hmy).
  rewrite !shl32_1 by lia.
  destruct (Z.leb_spec (2 * x (atlasSize st)) (x (maxsize st))); simpl;
    rewrite ?shl32_1 by lia;
    destruct (Z.leb_spec (2 * y (atlasSize st)) (y (maxsize st))); simpl; lia.
Qed.

Lemma estimate_loop_dims fuel needed free st st' :
  dims_fit st → estimate_loop fuel needed free st = Some st' → dims_fit st'.
Proof.
  revert free st. induction fuel as [|fuel IH]; intros free st Hst;
    rewrite estimate_loop_unfold;
    (destruct (lacks_slack free needed); [|by intros [= <-]]);
    (destruct (at_max st); [by intros [= <-]|]).
  - done.
  - apply IH. by apply estimate_resize_dims.
Qed.

Lemma place_all_numLevels fuel padding mem st ok st' ok' :
  place_all fuel padding mem st ok = Some (st', ok') → numLevels st' = numLevels st.
Proof.
  revert st ok. induction mem as [|k mem IH]; intros st ok; simpl.
  - by intros [= <- _].
  - destruct (FindRow _ _ _ _) as [[st1 r]|] eqn:HF; [|done].
    assert (numLevels st1 = numLevels st) as Hn.
    { destruct (FindRow_cases fuel st
        (add32 (x (size (entry_at (entries st) k))) padding)
        (add32 (y (size (entry_at (entries st) k))) padding))
        as [(j & rj & _ & _ & HF')|HF']; rewrite HF' in HF.
      - by injection HF as <- _.
      - apply AddRow_runs in HF as (n & _ & _ & Hr).
        destruct (grow_n_frame n st) as [a Ha]. rewrite Ha in Hr.
        destruct r; [by destruct Hr as (_ & -> & _)|by destruct Hr as (_ & _ & ->)]. }
    destruct r as [i|]; intros H; apply IH in H; by rewrite H.
Qed.

(** In a pass that stays clear of overflow, the rectangles placed are
    pairwise disjoint, padding included, start at non-negative coordinates
    and end, padding included, within the final surface height, which is
    the sum of the row heights; the allocator is left fit for the next
    pass. *)
Theorem Allocate_packs (fuel : nat) (st st' : CRowAtlasAlloc) (ok : bool)
    (tr : list (string * option (nat * float4))) :
  alloc_ok st →
  Allocate fuel st = Some (st', ok) → Allocate_placements fuel st = Some tr →
  let pad := shl32 1 (GetNumTexLevels st) in
  alloc_ok st' ∧ 1 ≤ pad ∧
  StronglySorted (fun p q => rect_disjoint pad p.2 q.2) (placed tr) ∧
  Forall (fun p => 0 ≤ x1 p.2 ≤ x2 p.2 ∧ 0 ≤ y1 p.2 ≤ y2 p.2 ∧
                   y2 p.2 + pad ≤ y (atlasSize st')) (placed tr) ∧
  y (atlasSize st') = sum_heights (imageRows st') ∧
  nextRowPos st' = sum_heights (imageRows st').
Proof.
  intros (Hx & Hmx & Hy & Hmy & Hnl & Hn & Hs & Hb & Hes) HA HT pad.
  unfold Allocate, Allocate_placements in *.
  destruct (EstimateNeededSize fuel _) as [st1|] eqn:E; [|done].
  pose proof (bit_ceil_bounds _ Hy) as Hceil.
  pose proof E as Hd. apply estimate_loop_dims in Hd; [|by unfold dims_fit].
  apply EstimateNeededSize_frame in E as [a ->].
  destruct Hd as (Hx1 & Hmx1 & Hy1 & Hmy1). simpl in *.
  destruct (place_all _ _ _ _ _) as [[st2 ok2]|] eqn:Ep; [|done].
  injection HA as <- <-.
  pose proof (padding_bounds st Hnl) as Hpad. fold pad in Hpad.
  pose proof (place_all_numLevels _ _ _ _ _ _ _ Ep) as Hnl2.
  change (shl32 1 (GetNumTexLevels (set_atlasSize (set_atlasSize st ?b) a)))
    with pad in *.
  clearbody pad.
  eapply (placements_packing _ _ _ _ _ _ _ _ []) in Ep
    as (Hst2 & [_ Hsz2] & _ & HP & _ & Hsorted & Hrange); [| | | |done|exact HT].
  - destruct Hst2 as (Hx2 & Hmx2 & Hy2 & Hmy2 & Hn2 & Hs2 & Hb2).
    pose proof (banded_sum_nonneg _ Hb2). simpl in *.
    split_and!; try done; try lia.
    + unfold alloc_ok. simpl. rewrite Hnl2. split_and!; try done; lia.
    + apply Forall_forall. intros p Hp.
      pose proof (proj1 (Forall_forall _ _) Hrange p Hp) as (? & ?).
      pose proof (proj1 (Forall_forall _ _) HP p Hp) as (row & Hi & Hin).
      destruct (banded_within _ _ _ Hb2 Hi). lia.
  - unfold packing. simpl. split_and!; try done; lia.
  - split; [exact Hpad|done].
  - intros k. simpl. by rewrite memtextures_elem.
Qed.

(** The scenario of the specification is fit for such a pass. *)
Example scenario_alloc_ok : alloc_ok scenario.
Proof.
  unfold alloc_ok. simpl. split_and!; try lia; [by intros [|i] row|].
  repeat constructor; simpl; lia.
Qed.

(** ** Placement and the surface width *)

(** C1.  [Allocate] on a fresh 256 x 256 surface with the single entry
    "wide" of 300 x 10 succeeds, leaves the surface 256 wide and 11 high,
    and places the entry at x from 0 to 300: the rectangle of a placed
    entry reaches beyond the surface width.  The new row was opened by
    [AddRow], which does not look at the requested width. *)
Theorem placed_entry_exceeds_surface :
  ∃ st', Allocate 0 over_wide = Some (st', true) ∧
    atlasSize st' = mk_int2 256 11 ∧
    texCoords (entry_at (entries st') "wide") = mk_float4 0 0 300 10 ∧
    ¬ (x2 (texCoords (entry_at (entries st') "wide")) < x (atlasSize st')).
Proof.
  eexists. split; [vm_compute; reflexivity|]. simpl. split_and!; [done..|lia].
Qed.

(** ** Height tightness *)

Lemma Allocate_placements_total fuel st st' ok :
  Allocate fuel st = Some (st', ok) → is_Some (Allocate_placements fuel st).
Proof.
  unfold Allocate, Allocate_placements.
  destruct (EstimateNeededSize fuel _) as [st1|]; [|done].
  destruct (place_all _ _ _ _ _) as [[st2 ok2]|] eqn:Ep; [|done]. intros _.
  apply place_all_placements in Ep as (tr & -> & _); [done|apply memtextures_NoDup|].
  intros k. by rewrite memtextures_elem.
Qed.

(** C9.  When [Allocate] returns, the surface height is the next free row
    position.  The next free row position is the sum of the heights of all
    rows, in [int] arithmetic: this holds of the allocator as constructed
    (no rows, position 0), [AddRow] (which alone creates rows), [FindRow]
    and the placement of an entry keep it, and so it holds after every
    [Allocate].  Where the sum fits an [int] the two are the same number,
    and they are after every pass over surfaces and entries of sizes that
    stay clear of overflow. *)
Theorem height_tightness (st : CRowAtlasAlloc) :
  nextRowPos st = wrap32 (sum_heights (imageRows st)) →
  (∀ fuel w h st' r, AddRow fuel st w h = Some (st', r) →
     nextRowPos st' = wrap32 (sum_heights (imageRows st'))) ∧
  (∀ fuel w h st' r, FindRow fuel st w h = Some (st', r) →
     nextRowPos st' = wrap32 (sum_heights (imageRows st'))) ∧
  (∀ k padding i,
     nextRowPos (place st k padding i)
     = wrap32 (sum_heights (imageRows (place st k padding i)))) ∧
  (∀ fuel st' ok, Allocate fuel st = Some (st', ok) →
     y (atlasSize st') = nextRowPos st' ∧
     nextRowPos st' = wrap32 (sum_heights (imageRows st')) ∧
     (-2^31 ≤ sum_heights (imageRows st') < 2^31 →
      y (atlasSize st') = sum_heights (imageRows st') ∧
      nextRowPos st' = sum_heights (imageRows st')) ∧
     (alloc_ok st →
      y (atlasSize st') = sum_heights (imageRows st') ∧
      nextRowPos st' = sum_heights (imageRows st') ∧ alloc_ok st')).
Proof.
  intros Hst. split_and!.
  - intros fuel w h st' r. by apply AddRow_heights.
  - intros fuel w h st' r. by apply FindRow_heights.
  - intros k padding i. by apply place_heights.
  - intros fuel st' ok HA.
    assert (y (atlasSize st') = nextRowPos st' ∧ heights_add_up st') as [Hy Hh].
    { revert HA. unfold Allocate.
      destruct (EstimateNeededSize fuel _) as [st1|] eqn:E; [|done].
      apply EstimateNeededSize_frame in E as [a ->].
      destruct (place_all _ _ _ _ _) as [[st2 ok']|] eqn:Ep; [|done].
      apply place_all_heights in Ep; [|done]. by intros [= <- <-]. }
    unfold heights_add_up in Hh. split_and!; try done.
    + intros Hfit. rewrite wrap32_small in Hh by done. by rewrite Hy.
    + intros Hok. destruct (Allocate_placements_total _ _ _ _ HA) as [tr Htr].
      by destruct (Allocate_packs _ _ _ _ _ Hok HA Htr) as (? & _ & _ & _ & ? & ?).
Qed.

(** The scenario starts without rows, at position 0. *)
Lemma height_tightness_witness :
  ∃ st', Allocate 0 scenario = Some (st', true) ∧
    y (atlasSize st') = nextRowPos st' ∧
    nextRowPos st' = wrap32 (sum_heights (imageRows st')).
Proof.
  assert (∃ st', Allocate 0 scenario = Some (st', true)) as [st' E]
    by (eexists; vm_compute; reflexivity).
  destruct (height_tightness scenario eq_refl) as (_ & _ & _ & H).
  destruct (H 0%nat st' true E) as (H1 & H2 & _).
  by exists st'.
Defined.

(** * Further properties of the allocator *)

(** ** The power-of-two ceiling of the height *)

Lemma bit_ceil_small u :
  0 ≤ u ≤ 2^30 → wrap32 (bit_ceil (to_uint32 u)) = 2 ^ Z.log2_up u.
Proof.
  intros Hu. unfold bit_ceil, to_uint32. rewrite (Z.mod_small u) by lia.
  assert (0 ≤ Z.log2_up u ≤ 30) as Hl.
  { split; [apply Z.log2_up_nonneg|].
    destruct (decide (u = 0)) as [->|Hne]; [done|].
    apply Z.log2_up_le_pow2; lia. }
  assert (1 ≤ 2 ^ Z.log2_up u ≤ 2^30) as Hp.
  { split; [apply (Z.pow_le_mono_r 2 0); lia|apply Z.pow_le_mono_r; lia]. }
  rewrite Z.mod_small by lia. rewrite wrap32_small; lia.
Qed.

(** X1.  The height that a pass works with is the least power of two that
    is not below the height it finds (1 for a height of 0): it is a power
    of two, not below the height and below its double.  Normalising twice
    is normalising once, so that [Allocate] gives the same on an allocator
    and on the same allocator with its height normalised. *)
Theorem normalize_height_power_of_two (st : CRowAtlasAlloc) :
  0 ≤ y (atlasSize st) ≤ 2^30 →
  let y' := y (atlasSize (normalize_height st)) in
  (∃ k : nat, y' = 2 ^ Z.of_nat k) ∧
  y (atlasSize st) ≤ y' ∧
  (1 ≤ y (atlasSize st) → y' < 2 * y (atlasSize st)) ∧
  (y (atlasSize st) = 0 → y' = 1) ∧
  normalize_height (normalize_height st) = normalize_height st ∧
  ∀ fuel, Allocate fuel (normalize_height st) = Allocate fuel st.
Proof.
  intros Hy y'.
  assert (y' = 2 ^ Z.log2_up (y (atlasSize st))) as Hy'.
  { unfold y', normalize_height. simpl. by apply bit_ceil_small. }
  pose proof (Z.log2_up_nonneg (y (atlasSize st))) as Hl.
  assert (normalize_height (normalize_height st) = normalize_height st) as Hidem.
  { unfold normalize_height, set_atlasSize. simpl. do 2 f_equal.
    rewrite !(bit_ceil_small (y (atlasSize st))) by done. rewrite bit_ceil_small.
    - by rewrite Z.log2_up_pow2.
    - split; [apply Z.pow_nonneg; lia|].
      apply Z.pow_le_mono_r; [lia|].
      destruct (decide (y (atlasSize st) = 0)) as [->|Hne]; [done|].
      apply Z.log2_up_le_pow2; lia. }
  split_and!.
  - exists (Z.to_nat (Z.log2_up (y (atlasSize st)))). rewrite Z2Nat.id by done. done.
  - rewrite Hy'. destruct (decide (y (atlasSize st) ≤ 1)) as [Hle|Hgt].
    + assert (1 ≤ 2 ^ Z.log2_up (y (atlasSize st)))
        by (apply (Z.pow_le_mono_r 2 0); lia). lia.
    + apply Z.log2_up_spec. lia.
  - intros H1. rewrite Hy'. destruct (decide (y (atlasSize st) = 1)) as [->|Hne]; [done|].
    pose proof (Z.log2_up_spec (y (atlasSize st))) as [Hlo _]; [lia|].
    replace (Z.log2_up (y (atlasSize st)))
      with (Z.succ (Z.pred (Z.log2_up (y (atlasSize st))))) by lia.
    rewrite Z.pow_succ_r; [lia|].
    assert (0 < Z.log2_up (y (atlasSize st))) by (apply Z.log2_up_pos; lia). lia.
  - intros H0. rewrite Hy', H0. done.
  - exact Hidem.
  - intros fuel. unfold Allocate at 1.
    change (set_atlasSize (normalize_height st) _)
      with (normalize_height (normalize_height st)).
    rewrite Hidem. done.
Qed.

(** The height of the scenario, 64, is its own ceiling. *)
Lemma normalize_height_power_of_two_witness :
  normalize_height (normalize_height scenario) = normalize_height scenario.
Proof.
  apply (normalize_height_power_of_two scenario). simpl. lia.
Defined.

(** ** The padding *)

Lemma bit_width_small u : 0 ≤ u < 2^32 → to_uint32 u = u.
Proof. intros Hu. unfold to_uint32. by rewrite Z.mod_small. Qed.

(** X2.  With a number of mip levels between 0 and 30, the padding
    [1 << GetNumTexLevels()] is the power of two [2 ^ levels], where
    [levels] is the number of levels capped by the bit width of the
    smallest dimension: it lies between 1 and [2 ^ numLevels], it is 1 when
    the smallest dimension is 0, and it never exceeds twice a positive
    smallest dimension. *)
Theorem padding_power_of_two (st : CRowAtlasAlloc) :
  0 ≤ numLevels st ≤ 30 →
  let levels := GetNumTexLevels st in
  let padding := shl32 1 levels in
  0 ≤ levels ≤ numLevels st ∧ padding = 2 ^ levels ∧
  1 ≤ padding ≤ 2 ^ numLevels st ∧
  (minDim st = 0 → padding = 1) ∧
  (1 ≤ minDim st < 2^31 →
     levels = Z.min (Z.log2 (minDim st) + 1) (numLevels st) ∧
     padding ≤ 2 * minDim st).
Proof.
  intros Hn levels padding.
  assert (0 ≤ bit_width (to_uint32 (GetMinDim st))) as Hbw.
  { unfold bit_width. pose proof (Z.log2_nonneg (to_uint32 (GetMinDim st))).
    destruct (_ =? 0); lia. }
  assert (0 ≤ levels ≤ numLevels st) as Hl by (unfold levels, GetNumTexLevels; lia).
  assert (padding = 2 ^ levels) as Hp.
  { unfold padding, shl32. rewrite Z.mod_small by lia. rewrite Z.shiftl_1_l.
    apply wrap32_small. split.
    - assert (0 ≤ 2 ^ levels) by (apply Z.pow_nonneg; lia). lia.
    - apply (Z.lt_le_trans _ (2 ^ 31)); [|done]. apply Z.pow_lt_mono_r; lia. }
  assert (1 ≤ 2 ^ levels) as Hp1 by (apply (Z.pow_le_mono_r 2 0); lia).
  assert (2 ^ levels ≤ 2 ^ numLevels st) as Hp2 by (apply Z.pow_le_mono_r; lia).
  split_and!; try lia; try done.
  - intros H0. rewrite Hp. unfold levels, GetNumTexLevels, GetMinDim. rewrite H0.
    change (bit_width (to_uint32 0)) with 0. by rewrite Z.min_l by lia.
  - intros Hm.
    assert (levels = Z.min (Z.log2 (minDim st) + 1) (numLevels st)) as Hlv.
    { unfold levels, GetNumTexLevels, GetMinDim, bit_width.
      rewrite bit_width_small by lia.
      destruct (Z.eqb_spec (minDim st) 0); [lia|done]. }
    split; [done|]. rewrite Hp, Hlv.
    pose proof (Z.log2_spec (minDim st)) as [Hlo _]; [lia|].
    pose proof (Z.log2_nonneg (minDim st)).
    apply (Z.le_trans _ (2 ^ (Z.log2 (minDim st) + 1))).
    + apply Z.pow_le_mono_r; lia.
    + rewrite Z.pow_add_r by lia. lia.
Qed.

(** The scenario: one level, smallest dimension 10, padding 2. *)
Lemma padding_power_of_two_witness :
  shl32 1 (GetNumTexLevels scenario) = 2 ^ GetNumTexLevels scenario.
Proof.
  apply (padding_power_of_two scenario). simpl. lia.
Defined.

(** ** A pass comes to an end *)

Lemma doubling_dims_ok st : doubling_ok st → dims_ok st.
Proof.
  intros (Hx & Hy & Hmx & Hmy & Hrx & Hry).
  pose proof (reaches_le _ _ Hx Hrx). pose proof (reaches_le _ _ Hy Hry).
  unfold dims_ok. lia.
Qed.

Lemma headroom_bound st :
  dims_ok st → (Z.to_nat (headroom st) ≤ Z.to_nat (x (maxsize st) + y (maxsize st)))%nat.
Proof. unfold dims_ok, headroom. lia. Qed.

Lemma estimate_loop_doubling fuel needed free st st' :
  doubling_ok st → estimate_loop fuel needed free st = Some st' → doubling_ok st'.
Proof.
  revert free st. induction fuel as [|fuel IH]; intros free st Hst;
    rewrite estimate_loop_unfold;
    (destruct (lacks_slack free needed); [|by intros [= <-]]);
    (destruct (at_max st) eqn:Hmax; [by intros [= <-]|]).
  - done.
  - apply IH. by apply estimate_resize_doubling.
Qed.

Lemma grow_n_dims_ok n st : dims_ok st → dims_ok (Nat.iter n grow st).
Proof.
  intros Hst. induction n as [|n IH]; [done|].
  change (Nat.iter (S n) grow st) with (grow (Nat.iter n grow st)). by apply grow_dims_ok.
Qed.

Lemma AddRow_dims_ok fuel st w h st' r :
  dims_ok st → AddRow fuel st w h = Some (st', r) →
  dims_ok st' ∧ maxsize st' = maxsize st.
Proof.
  intros Hst H. apply AddRow_runs in H as (n & _ & _ & Hr).
  pose proof (grow_n_dims_ok n st Hst) as Hg.
  destruct (grow_n_frame n st) as [a Ha]. rewrite Ha in *.
  destruct r; [by destruct Hr as (_ & -> & _)|by destruct Hr as (_ & _ & ->)].
Qed.

Lemma FindRow_dims_ok fuel st w h st' r :
  dims_ok st → FindRow fuel st w h = Some (st', r) →
  dims_ok st' ∧ maxsize st' = maxsize st.
Proof.
  intros Hst. destruct (FindRow_cases fuel st w h) as [(j & rj & _ & _ & ->)| ->].
  - by intros [= <- _].
  - by apply AddRow_dims_ok.
Qed.

Lemma FindRow_total fuel st w h :
  dims_ok st → (Z.to_nat (headroom st) ≤ fuel)%nat → is_Some (FindRow fuel st w h).
Proof.
  intros Hst Hfuel. destruct (FindRow_cases fuel st w h) as [(j & rj & _ & _ & ->)| ->].
  - done.
  - by apply AddRow_total.
Qed.

Lemma place_all_total fuel padding mem st ok :
  dims_ok st → (Z.to_nat (x (maxsize st) + y (maxsize st)) ≤ fuel)%nat →
  is_Some (place_all fuel padding mem st ok).
Proof.
  revert st ok. induction mem as [|k mem IH]; intros st ok Hst Hfuel; simpl; [done|].
  destruct (FindRow_total fuel st
    (add32 (x (size (entry_at (entries st) k))) padding)
    (add32 (y (size (entry_at (entries st) k))) padding) Hst) as [[st1 r] HF].
  { pose proof (headroom_bound st Hst). lia. }
  rewrite HF. destruct (FindRow_dims_ok _ _ _ _ _ _ Hst HF) as [Hst1 Hmax].
  destruct r as [i|]; apply IH; try exact Hst1; simpl; by rewrite Hmax.
Qed.

(** X3.  On surfaces with sound dimensions whose maxima doubling reaches
    exactly (powers of two, as constructed), [Allocate] returns: the
    estimator and every row request come to an end within
    [maxsize.x + maxsize.y] turns of their loops. *)
Theorem Allocate_returns (st : CRowAtlasAlloc) (fuel : nat) :
  pass_ok st →
  (Z.to_nat (x (maxsize st) + y (maxsize st)) ≤ fuel)%nat →
  ∃ st' ok, Allocate fuel st = Some (st', ok).
Proof.
  intros (Hx & Hy & Hmx & Hmy & Hrx & Hry) Hfuel.
  pose proof (bit_ceil_bounds _ Hy) as Hceil.
  assert (doubling_ok (normalize_height st)) as Hd.
  { unfold doubling_ok. simpl. split_and!; try done; lia. }
  unfold Allocate. fold (normalize_height st).
  destruct (estimate_loop_total fuel (entries_area (entries (normalize_height st)))
              (initial_free (normalize_height st)) (normalize_height st) Hd)
    as [st1 E].
  { pose proof (headroom_bound _ (doubling_dims_ok _ Hd)). simpl in *. lia. }
  unfold EstimateNeededSize. rewrite E.
  pose proof (estimate_loop_doubling _ _ _ _ _ Hd E) as Hd1.
  apply estimate_loop_frame in E as [a ->].
  destruct (place_all_total fuel
    (shl32 1 (GetNumTexLevels (set_atlasSize (normalize_height st) a)))
    (memtextures (entries (set_atlasSize (normalize_height st) a)))
    (set_atlasSize (normalize_height st) a) true (doubling_dims_ok _ Hd1))
    as [[st2 ok] Hp]; [done|].
  rewrite Hp. by eexists _, _.
Qed.

(** The scenario: 64 x 64 with maxima of 256 x 256. *)
Lemma Allocate_returns_witness :
  ∃ st' ok, Allocate 512 scenario = Some (st', ok).
Proof.
  apply (Allocate_returns scenario 512).
  - unfold pass_ok. simpl. split_and!; try lia; by exists 2%nat.
  - simpl. lia.
Defined.

(** ** A pass succeeds when the heights fit *)

Lemma entry_at_update_size es k k' f :
  (∀ e, size (f e) = size e) →
  size (entry_at (entry_update es k f) k') = size (entry_at es k').
Proof.
  intros Hf. induction es as [|[k0 e] es IH]; simpl; [done|].
  destruct (String.eqb k0 k) eqn:Ek; simpl; destruct (String.eqb k0 k'); try done.
Qed.

Lemma place_size st k padding i k' :
  size (entry_at (entries (place st k padding i)) k') = size (entry_at (entries st) k').
Proof. unfold place. simpl. by apply entry_at_update_size. Qed.

Lemma mem_heights_ext pad es1 es2 mem :
  (∀ k, size (entry_at es1 k) = size (entry_at es2 k)) →
  mem_heights pad es1 mem = mem_heights pad es2 mem.
Proof. intros H. induction mem as [|k mem IH]; simpl; [done|]. by rewrite H, IH. Qed.

Lemma mem_heights_Permutation pad es mem1 mem2 :
  mem1 ≡ₚ mem2 → mem_heights pad es mem1 = mem_heights pad es mem2.
Proof. induction 1; simpl; lia. Qed.

Lemma mem_heights_keys pad es :
  NoDup es.*1 → mem_heights pad es es.*1 = padded_heights pad es.
Proof.
  intros Hnd.
  assert (∀ l : list (string * SAtlasEntry),
            (∀ it, it ∈ l → entry_at es it.1 = it.2) →
            mem_heights pad es l.*1 = padded_heights pad l) as Hl.
  { induction l as [|it l IH]; intros Hin; simpl; [done|].
    rewrite (Hin it) by set_solver. f_equal. apply IH. intros; apply Hin; set_solver. }
  apply Hl. intros [k e] Hin. by apply entry_at_elem.
Qed.

Lemma mem_heights_memtextures pad es :
  NoDup es.*1 → mem_heights pad es (memtextures es) = padded_heights pad es.
Proof.
  intros Hnd. rewrite <- (mem_heights_keys pad es Hnd).
  apply mem_heights_Permutation. by apply memtextures_keys.
Qed.

(** With room left below the maximum height, a row request is granted, and
    it moves the next free row position by the requested height at most. *)
Lemma FindRow_granted fuel st w h st1 r :
  packing st → 1 ≤ h ≤ 2^29 → nextRowPos st + h ≤ y (maxsize st) →
  FindRow fuel st w h = Some (st1, r) →
  is_Some r ∧ nextRowPos st1 ≤ nextRowPos st + h ∧ maxsize st1 = maxsize st.
Proof.
  intros Hst Hh Hfit HF.
  pose proof Hst as (Hx & Hmx & Hy & Hmy & Hn & Hs & Hb).
  pose proof (banded_sum_nonneg _ Hb).
  destruct (FindRow_cases fuel st w h) as [(j & rj & _ & _ & HF')|HF']; rewrite HF' in HF.
  - injection HF as <- <-. split_and!; [done|lia|done].
  - apply AddRow_runs in HF as (n & _ & _ & Hr).
    destruct (grow_n_frame n st) as [a Ha]. rewrite Ha in Hr.
    destruct r as [i|].
    + destruct Hr as (_ & -> & _). simpl. rewrite add32_small by lia. by split_and!.
    + destruct Hr as (Hshort & Hmax & _). exfalso.
      unfold short in Hshort. unfold at_max in Hmax. simpl in *.
      rewrite add32_small in Hshort by lia.
      apply Z.ltb_lt in Hshort. apply andb_true_iff in Hmax as [_ Hmax].
      apply Z.leb_le in Hmax. lia.
Qed.

Lemma place_all_all_placed fuel pad mem st ok st' ok' :
  packing st → sizes_ok pad (entries st) →
  (∀ k, k ∈ mem → k ∈ (entries st).*1) →
  nextRowPos st + mem_heights pad (entries st) mem ≤ y (maxsize st) →
  place_all fuel pad mem st ok = Some (st', ok') → ok' = ok.
Proof.
  revert st ok. induction mem as [|k mem IH]; intros st ok Hst Hsz Hin Hfit; simpl.
  - by intros [= _ <-].
  - pose proof Hsz as [Hpad Hes].
    assert (k ∈ (entries st).*1) as Hk by (apply Hin; set_solver).
    pose proof (entry_at_Forall
      (fun e => 0 ≤ x (size e) ≤ 2^28 ∧ 0 ≤ y (size e) ≤ 2^28) _ k Hes Hk) as [Hsx Hsy].
    simpl in Hfit.
    assert (0 ≤ mem_heights pad (entries st) mem) as Hrest.
    { clear -Hpad Hes Hin. induction mem as [|k' mem IH]; simpl; [done|].
      assert (k' ∈ (entries st).*1) as Hk' by (apply Hin; set_solver).
      pose proof (entry_at_Forall
        (fun e => 0 ≤ x (size e) ≤ 2^28 ∧ 0 ≤ y (size e) ≤ 2^28) _ k' Hes Hk') as [_ ?].
      assert (0 ≤ mem_heights pad (entries st) mem)
        by (apply IH; intros; apply Hin; set_solver). lia. }
    destruct (FindRow _ _ _ _) as [[st1 r]|] eqn:HF; [|done].
    pose proof HF as HF2.
    eapply (FindRow_packing _ pad _ _ _ _ _ []) in HF as (Hst1 & Hes1 & _ & _ & Hr);
      [|done|rewrite add32_small; lia..|done].
    eapply FindRow_granted in HF2 as ([i ->] & Hnext & Hmax);
      [|done|rewrite add32_small; lia|rewrite add32_small; lia].
    rewrite add32_small in Hnext by lia.
    destruct Hr as (ri & Hi & Hh & Hw).
    rewrite <- Hes1 in Hh, Hw, Hsz, Hk.
    destruct (place_packing pad st1 k i ri [] Hst1 Hsz Hk Hi Hh Hw)
      as (Hst2 & Hsz2 & _); [done|].
    apply IH; try done.
    + intros k' Hk'. rewrite place_keys, Hes1. apply Hin. set_solver.
    + rewrite (mem_heights_ext pad _ (entries st)).
      * change (nextRowPos (place st1 k pad i)) with (nextRowPos st1).
        change (maxsize (place st1 k pad i)) with (maxsize st1). rewrite Hmax. lia.
      * intros k'. by rewrite place_size, Hes1.
Qed.

Lemma Allocate_heights_fit fuel st st' ok :
  alloc_ok st → NoDup (entries st).*1 →
  nextRowPos st + padded_heights (shl32 1 (GetNumTexLevels st)) (entries st)
    ≤ y (maxsize st) →
  Allocate fuel st = Some (st', ok) → ok = true.
Proof.
  intros (Hx & Hmx & Hy & Hmy & Hnl & Hn & Hs & Hb & Hes) Hnd Hfit.
  unfold Allocate.
  destruct (EstimateNeededSize fuel _) as [st1|] eqn:E; [|done].
  pose proof (bit_ceil_bounds _ Hy) as Hceil.
  pose proof E as Hd. apply estimate_loop_dims in Hd; [|by unfold dims_fit].
  apply EstimateNeededSize_frame in E as [a ->].
  destruct Hd as (Hx1 & Hmx1 & Hy1 & Hmy1). simpl in *.
  destruct (place_all _ _ _ _ _) as [[st2 ok2]|] eqn:Ep; [|done].
  intros [= _ <-].
  pose proof (padding_bounds st Hnl) as Hpad.
  eapply place_all_all_placed in Ep; [done| | | |].
  - unfold packing. simpl. split_and!; try done; lia.
  - split; [exact Hpad|done].
  - intros k. simpl. by rewrite memtextures_elem.
  - simpl. by rewrite mem_heights_memtextures.
Qed.

(** A pass on surfaces whose maxima doubling reaches comes to an end. *)
Lemma Allocate_total fuel st :
  pass_ok st → (Z.to_nat (x (maxsize st) + y (maxsize st)) ≤ fuel)%nat →
  is_Some (Allocate fuel st).
Proof.
  intros (Hx & Hy & Hmx & Hmy & Hrx & Hry) Hfuel.
  pose proof (bit_ceil_bounds _ Hy) as Hceil.
  assert (doubling_ok (normalize_height st)) as Hd.
  { unfold doubling_ok. simpl. split_and!; try done; lia. }
  unfold Allocate. fold (normalize_height st).
  destruct (estimate_loop_total fuel (entries_area (entries (normalize_height st)))
              (initial_free (normalize_height st)) (normalize_height st) Hd)
    as [st1 E].
  { pose proof (headroom_bound _ (doubling_dims_ok _ Hd)). simpl in *. lia. }
  unfold EstimateNeededSize. rewrite E.
  pose proof (estimate_loop_doubling _ _ _ _ _ Hd E) as Hd1.
  apply estimate_loop_frame in E as [a ->].
  destruct (place_all_total fuel
    (shl32 1 (GetNumTexLevels (set_atlasSize (normalize_height st) a)))
    (memtextures (entries (set_atlasSize (normalize_height st) a)))
    (set_atlasSize (normalize_height st) a) true (doubling_dims_ok _ Hd1))
    as [[st2 ok] Hp]; [done|].
  by rewrite Hp.
Qed.

(** X4.  In a pass that stays clear of overflow, on surfaces whose maxima
    doubling reaches exactly (powers of two, as constructed) and over a
    registry of distinct names: if the entries would fit below the maximum
    height even with a row of its own for each (the next free row position
    plus every padded height is within the maximum height), then [Allocate]
    returns, within [maxsize.x + maxsize.y] turns of its loops, and it
    returns [true]: no entry is turned away. *)
Theorem Allocate_succeeds_when_heights_fit (fuel : nat) (st : CRowAtlasAlloc) :
  alloc_ok st → pass_ok st → NoDup (entries st).*1 →
  (Z.to_nat (x (maxsize st) + y (maxsize st)) ≤ fuel)%nat →
  nextRowPos st + padded_heights (shl32 1 (GetNumTexLevels st)) (entries st)
    ≤ y (maxsize st) →
  ∃ st', Allocate fuel st = Some (st', true).
Proof.
  intros Hok Hpass Hnd Hfuel Hfit.
  destruct (Allocate_total fuel st Hpass Hfuel) as [[st' ok] HA].
  exists st'. rewrite HA. do 2 f_equal.
  by apply (Allocate_heights_fit fuel st st' ok).
Qed.

(** The scenario: padded heights 22 + 22 + 12 within 256. *)
Lemma Allocate_succeeds_when_heights_fit_witness :
  ∃ st', Allocate 512 scenario = Some (st', true).
Proof.
  apply (Allocate_succeeds_when_heights_fit 512 scenario).
  - unfold alloc_ok. simpl. split_and!; try lia; [by intros [|i] row|].
    repeat constructor; simpl; lia.
  - unfold pass_ok. simpl. split_and!; try lia; by exists 2%nat.
  - simpl. repeat (apply NoDup_cons; split; [set_solver|]). apply NoDup_nil_2.
  - simpl. lia.
  - vm_compute. discriminate.
Defined.

(** ** Rectangles of distinct entries *)

Lemma placed_pairs (R : float4 → float4 → Prop) tr k1 k2 p1 p2 :
  (∀ t1 t2, R t1 t2 → R t2 t1) →
  StronglySorted (fun p q : nat * float4 => R p.2 q.2) (placed tr) →
  (k1, Some p1) ∈ tr → (k2, Some p2) ∈ tr → k1 ≠ k2 → R p1.2 p2.2.
Proof.
  intros Hsym. induction tr as [|[k r] tr IH]; intros Hs H1 H2 Hne; [set_solver|].
  assert (∀ k' (p q : nat * float4),
            StronglySorted (fun p q : nat * float4 => R p.2 q.2) (p :: placed tr) →
            (k', Some q) ∈ tr → R p.2 q.2) as Hhead.
  { intros k' p q Hpq Hin. apply StronglySorted_inv in Hpq as [_ Hall].
    eapply Forall_forall in Hall; [done|].
    apply list_elem_of_omap. by exists (k', Some q). }
  assert (StronglySorted (fun p q : nat * float4 => R p.2 q.2) (placed tr)) as Hs'.
  { destruct r; [by apply StronglySorted_inv in Hs as [? _]|done]. }
  apply elem_of_cons in H1 as [E1|H1], H2 as [E2|H2]; simplify_eq.
  - by apply (Hhead k2).
  - apply Hsym. by apply (Hhead k1).
  - by apply IH.
Qed.

Lemma Allocate_placements_rects fuel st st' ok tr :
  Allocate fuel st = Some (st', ok) → Allocate_placements fuel st = Some tr →
  ∀ k i t, (k, Some (i, t)) ∈ tr → texCoords (entry_at (entries st') k) = t.
Proof.
  unfold Allocate, Allocate_placements.
  destruct (EstimateNeededSize fuel _) as [st1|]; [|done].
  destruct (place_all _ _ _ _ _) as [[st2 ok2]|] eqn:Ep; [|done].
  intros [= <- <-] Htr k i t Hin.
  apply place_all_placements in Ep as (tr' & Htr' & _ & _ & _ & _ & _ & Hsome).
  - rewrite Htr in Htr'. injection Htr' as <-. by destruct (Hsome k i t Hin) as [? _].
  - apply memtextures_NoDup.
  - intros k'. by rewrite memtextures_elem.
Qed.

(** X5.  In a pass that stays clear of overflow, the rectangles that
    [Allocate] leaves in the registry for any two different entries that
    obtained a row are disjoint, padding included; every such rectangle
    starts at non-negative coordinates, is not inverted, and ends, padding
    included, within the final surface height. *)
Theorem placed_rectangles_disjoint (fuel : nat) (st st' : CRowAtlasAlloc) (ok : bool) :
  alloc_ok st → Allocate fuel st = Some (st', ok) →
  let pad := shl32 1 (GetNumTexLevels st) in
  ∃ tr, Allocate_placements fuel st = Some tr ∧
    (∀ k1 k2 p1 p2, k1 ≠ k2 → (k1, Some p1) ∈ tr → (k2, Some p2) ∈ tr →
       rect_disjoint pad (texCoords (entry_at (entries st') k1))
                         (texCoords (entry_at (entries st') k2))) ∧
    (∀ k p, (k, Some p) ∈ tr →
       let t := texCoords (entry_at (entries st') k) in
       0 ≤ x1 t ≤ x2 t ∧ 0 ≤ y1 t ≤ y2 t ∧ y2 t + pad ≤ y (atlasSize st')).
Proof.
  intros Hok HA pad.
  destruct (Allocate_placements_total _ _ _ _ HA) as [tr Htr].
  destruct (Allocate_packs _ _ _ _ _ Hok HA Htr) as (_ & _ & Hsorted & Hrange & _).
  pose proof (Allocate_placements_rects _ _ _ _ _ HA Htr) as Hrect.
  exists tr. split_and!; [done| |].
  - intros k1 k2 [i1 t1] [i2 t2] Hne H1 H2.
    rewrite (Hrect _ _ _ H1), (Hrect _ _ _ H2).
    apply (placed_pairs (rect_disjoint pad) tr k1 k2 (i1, t1) (i2, t2));
      [apply rect_disjoint_sym|done..].
  - intros k [i t] Hin. simpl. rewrite (Hrect _ _ _ Hin).
    apply (proj1 (Forall_forall _ _) Hrange (i, t)).
    apply list_elem_of_omap. by exists (k, Some (i, t)).
Qed.

(** The scenario. *)
Lemma placed_rectangles_disjoint_witness :
  ∃ tr, Allocate_placements 0 scenario = Some tr ∧ length tr = 3%nat.
Proof.
  assert (∃ st' ok, Allocate 0 scenario = Some (st', ok)) as (st' & ok & E)
    by (eexists _, _; vm_compute; reflexivity).
  destruct (placed_rectangles_disjoint 0 scenario st' ok) as (tr & Htr & _); [|exact E|].
  - unfold alloc_ok. simpl. split_and!; try lia; [by intros [|i] row|].
    repeat constructor; simpl; lia.
  - exists tr. split; [done|]. vm_compute in Htr. by injection Htr as <-.
Defined.

(** ** What the estimator does to the surface *)

Lemma reaches_refl a : reaches a a.
Proof. exists 0%nat. simpl. lia. Qed.

Lemma reaches_double a m : reaches (2 * a) m → reaches a m.
Proof.
  intros [j ->]. exists (S j). rewrite Nat2Z.inj_succ, Z.pow_succ_r by lia. lia.
Qed.

Lemma estimate_resize_grows free st :
  dims_fit st →
  let st' := (estimate_resize free st).2 in
  dims_fit st' ∧
  (x (atlasSize st') = x (atlasSize st) ∨ x (atlasSize st') = 2 * x (atlasSize st)) ∧
  (y (atlasSize st') = y (atlasSize st) ∨ y (atlasSize st') = 2 * y (atlasSize st)) ∧
  (y (atlasSize st) ≤ y (maxsize st) → y (atlasSize st') ≤ y (maxsize st)).
Proof.
  unfold dims_fit, estimate_resize. intros (Hx & Hmx & Hy & Hmy).
  rewrite !shl32_1 by lia.
  destruct (Z.leb_spec (2 * x (atlasSize st)) (x (maxsize st))); simpl;
    rewrite ?shl32_1 by lia;
    destruct (Z.leb_spec (2 * y (atlasSize st)) (y (maxsize st))); simpl; lia.
Qed.

Lemma estimate_loop_grows fuel needed free st st' :
  dims_fit st → estimate_loop fuel needed free st = Some st' →
  dims_fit st' ∧ maxsize st' = maxsize st ∧
  reaches (x (atlasSize st)) (x (atlasSize st')) ∧
  reaches (y (atlasSize st)) (y (atlasSize st')) ∧
  (y (atlasSize st) ≤ y (maxsize st) → y (atlasSize st') ≤ y (maxsize st)).
Proof.
  revert free st. induction fuel as [|fuel IH]; intros free st Hst;
    rewrite estimate_loop_unfold;
    (destruct (lacks_slack free needed);
       [|intros [= <-]; split_and!; try done; apply reaches_refl]);
    (destruct (at_max st) eqn:Hmax;
       [intros [= <-]; split_and!; try done; apply reaches_refl|]).
  - done.
  - destruct (estimate_resize_grows free st Hst) as (Hst1 & Hx1 & Hy1 & Hle1).
    destruct (estimate_resize_frame free st) as [a Ha].
    intros H. apply IH in H as (Hst' & Hmax' & Hrx & Hry & Hle); [|done].
    rewrite Ha in Hmax', Hle. simpl in Hmax', Hle.
    split_and!; try done.
    + destruct Hx1 as [<-|Hx1]; [done|]. rewrite Hx1 in Hrx. by apply reaches_double.
    + destruct Hy1 as [<-|Hy1]; [done|]. rewrite Hy1 in Hry. by apply reaches_double.
    + intros Hy. apply Hle. rewrite Ha in Hle1. simpl in Hle1. by apply Hle1.
Qed.

(** X6.  On sound dimensions, [EstimateNeededSize] changes nothing but the
    surface dimensions; it multiplies each by a power of two, so that none
    shrinks; the width stays within its maximum, and so does a height that
    started within its maximum. *)
Theorem EstimateNeededSize_grows (fuel : nat) (st st' : CRowAtlasAlloc) :
  dims_fit st → EstimateNeededSize fuel st = Some st' →
  st' = set_atlasSize st (atlasSize st') ∧
  (∃ j : nat, x (atlasSize st') = x (atlasSize st) * 2 ^ Z.of_nat j) ∧
  (∃ j : nat, y (atlasSize st') = y (atlasSize st) * 2 ^ Z.of_nat j) ∧
  x (atlasSize st) ≤ x (atlasSize st') ≤ x (maxsize st) ∧
  y (atlasSize st) ≤ y (atlasSize st') ∧
  (y (atlasSize st) ≤ y (maxsize st) → y (atlasSize st') ≤ y (maxsize st)).
Proof.
  intros Hst H. pose proof H as Hf. apply EstimateNeededSize_frame in Hf as [a ->].
  apply estimate_loop_grows in H as (Hst' & Hmax & Hrx & Hry & Hle); [|done].
  destruct Hst as (Hx & Hmx & Hy & Hmy).
  pose proof (reaches_le _ _ (proj1 Hx) Hrx). pose proof (reaches_le _ _ (proj1 Hy) Hry).
  destruct Hst' as (Hx' & _). simpl in *. split_and!; try done; lia.
Qed.

(** The scenario, on which the estimator has nothing to do. *)
Lemma EstimateNeededSize_grows_witness :
  ∃ st', EstimateNeededSize 0 scenario = Some st' ∧
    x (atlasSize scenario) ≤ x (atlasSize st') ≤ x (maxsize scenario).
Proof.
  assert (∃ st', EstimateNeededSize 0 scenario = Some st') as [st' E]
    by (eexists; vm_compute; reflexivity).
  exists st'. split; [done|].
  apply (EstimateNeededSize_grows 0 scenario st'); [|exact E].
  unfold dims_fit. simpl. lia.
Defined.

(** ** Placement within the surface width *)

Lemma FindRow_within fuel st w h st1 r :
  packing st → 1 ≤ w ≤ 2^29 → 1 ≤ h ≤ 2^29 → w ≤ x (atlasSize st) →
  Forall (fun row => width row ≤ x (atlasSize st)) (imageRows st) →
  FindRow fuel st w h = Some (st1, r) →
  Forall (fun row => width row ≤ x (atlasSize st1)) (imageRows st1) ∧
  match r with
  | Some i => ∃ ri, imageRows st1 !! i = Some ri ∧ width ri + w ≤ x (atlasSize st1)
  | None => True
  end.
Proof.
  intros Hst Hw Hh Hwx Hrows HF.
  pose proof Hst as (Hx & Hmx & Hy & Hmy & Hn & Hs & Hb).
  destruct (FindRow_cases fuel st w h) as [(j & rj & Hj & [Hfw Hfh] & HF')|HF'];
    rewrite HF' in HF.
  - injection HF as <- <-. split; [done|]. exists rj. split; [done|].
    destruct (Hb _ _ Hj) as (_ & _ & ? & ?). rewrite sub32_small in Hfw by lia. lia.
  - apply AddRow_runs in HF as (n & _ & _ & Hr).
    destruct (grow_n_packing n st Hst) as [_ Hgx].
    destruct (grow_n_frame n st) as [a Ha]. rewrite Ha in *. simpl in Hgx.
    assert (Forall (fun row => width row ≤ x a) (imageRows st)) as Hrows'.
    { eapply Forall_impl; [exact Hrows|]. simpl. intros; lia. }
    destruct r as [i|].
    + destruct Hr as (_ & -> & ->). simpl. split.
      * apply Forall_app. split; [done|]. constructor; [simpl; lia|done].
      * eexists. split; [by rewrite lookup_app_r, Nat.sub_diag by done|]. simpl. lia.
    + destruct Hr as (_ & _ & ->). done.
Qed.

Lemma place_all_within fuel pad W mem st ok st' ok' :
  packing st → sizes_ok pad (entries st) →
  (∀ k, k ∈ mem → k ∈ (entries st).*1) →
  W ≤ x (atlasSize st) →
  Forall (fun it => x (size it.2) + pad ≤ W) (entries st) →
  Forall (fun row => width row ≤ x (atlasSize st)) (imageRows st) →
  place_all fuel pad mem st ok = Some (st', ok') →
  Forall (fun row => width row ≤ x (atlasSize st')) (imageRows st').
Proof.
  revert st ok. induction mem as [|k mem IH]; intros st ok Hst Hsz Hin HW Hfit Hrows; simpl.
  - by intros [= <- _].
  - pose proof Hsz as [Hpad Hes].
    assert (k ∈ (entries st).*1) as Hk by (apply Hin; set_solver).
    pose proof (entry_at_Forall
      (fun e => 0 ≤ x (size e) ≤ 2^28 ∧ 0 ≤ y (size e) ≤ 2^28) _ k Hes Hk) as [Hsx Hsy].
    pose proof (entry_at_Forall (fun e => x (size e) + pad ≤ W) _ k Hfit Hk) as HkW.
    simpl in HkW.
    destruct (FindRow _ _ _ _) as [[st1 r]|] eqn:HF; [|done].
    pose proof HF as HF2.
    eapply (FindRow_packing _ pad _ _ _ _ _ []) in HF as (Hst1 & Hes1 & Hx1 & _ & Hr);
      [|done|rewrite add32_small; lia..|done].
    eapply FindRow_within in HF2 as [Hrows1 Hr'];
      [|done|rewrite add32_small; lia..|done].
    destruct r as [i|].
    + destruct Hr as (ri & Hi & Hh & Hw). destruct Hr' as (ri' & Hi' & Hw').
      rewrite Hi in Hi'. injection Hi' as <-.
      rewrite <- Hes1 in Hh, Hw, Hsz, Hk.
      destruct (place_packing pad st1 k i ri [] Hst1 Hsz Hk Hi Hh Hw)
        as (Hst2 & Hsz2 & _); [done|].
      apply IH; try done.
      * intros k' Hk'. rewrite place_keys, Hes1. apply Hin. set_solver.
      * change (x (atlasSize (place st1 k pad i))) with (x (atlasSize st1)). lia.
      * unfold place. simpl. rewrite Hes1.
        by apply (entry_update_Forall (fun e => x (size e) + pad ≤ W)).
      * unfold place. simpl. apply Forall_alter; [done|].
        intros row Hrow. rewrite Hi in Hrow. injection Hrow as <-.
        unfold add_width. simpl. rewrite Hes1.
        destruct Hst1 as (? & ? & _ & _ & _ & _ & Hb1).
        destruct (Hb1 _ _ Hi) as (_ & _ & ? & ?). intros _.
        rewrite add32_small in Hw' by lia.
        rewrite (add32_small (x _) pad) by lia. rewrite add32_small by lia. lia.
    + apply IH; try done.
      * by rewrite Hes1.
      * intros k' Hk'. rewrite Hes1. apply Hin. set_solver.
      * lia.
      * by rewrite Hes1.
Qed.

(** X7.  In a pass that stays clear of overflow, on an allocator in which
    no row is filled beyond the surface width and every entry, padding
    included, is not wider than the surface, no row is filled beyond the
    final surface width, and every rectangle that the pass places ends,
    padding included, within the final surface width. *)
Theorem placed_within_width (fuel : nat) (st st' : CRowAtlasAlloc) (ok : bool) :
  let pad := shl32 1 (GetNumTexLevels st) in
  alloc_ok st →
  Forall (fun row => width row ≤ x (atlasSize st)) (imageRows st) →
  Forall (fun it => x (size it.2) + pad ≤ x (atlasSize st)) (entries st) →
  Allocate fuel st = Some (st', ok) →
  ∃ tr, Allocate_placements fuel st = Some tr ∧
    x (atlasSize st) ≤ x (atlasSize st') ∧
    Forall (fun row => width row ≤ x (atlasSize st')) (imageRows st') ∧
    (∀ k p, (k, Some p) ∈ tr →
       x2 (texCoords (entry_at (entries st') k)) + pad ≤ x (atlasSize st')).
Proof.
  intros pad (Hx & Hmx & Hy & Hmy & Hnl & Hn & Hs & Hb & Hes) Hrows Hfit HA.
  destruct (Allocate_placements_total _ _ _ _ HA) as [tr Htr].
  pose proof (Allocate_placements_rects _ _ _ _ _ HA Htr) as Hrect.
  exists tr. split; [done|].
  unfold Allocate, Allocate_placements in *.
  destruct (EstimateNeededSize fuel _) as [st1|] eqn:E; [|done].
  pose proof (bit_ceil_bounds _ Hy) as Hceil.
  pose proof E as Hd. apply estimate_loop_grows in Hd as (Hd & _ & Hrx & _);
    [|by unfold dims_fit].
  apply EstimateNeededSize_frame in E as [a ->].
  destruct Hd as (Hx1 & Hmx1 & Hy1 & Hmy1). simpl in *.
  apply reaches_le in Hrx; [|lia].
  destruct (place_all _ _ _ _ _) as [[st2 ok2]|] eqn:Ep; [|done].
  injection HA as <- <-.
  pose proof (padding_bounds st Hnl) as Hpad. fold pad in Hpad.
  change (shl32 1 (GetNumTexLevels (set_atlasSize (set_atlasSize st ?b) a)))
    with pad in *.
  clearbody pad.
  assert (packing (set_atlasSize (set_atlasSize st
            (mk_int2 (x (atlasSize st)) (wrap32 (bit_ceil (to_uint32 (y (atlasSize st)))))))
            a)) as Hpk.
  { unfold packing. simpl. split_and!; try done; lia. }
  assert (Forall (fun row => width row ≤ x (atlasSize st2)) (imageRows st2)) as Hrows2.
  { eapply (place_all_within _ pad (x (atlasSize st))) in Ep; try done.
    - intros k. simpl. by rewrite memtextures_elem.
    - simpl. eapply Forall_impl; [exact Hrows|]. simpl. intros; lia. }
  eapply (placements_packing _ _ _ _ _ _ _ _ []) in Ep
    as (Hst2 & _ & Hx2 & HP & _); [|done| | |done|exact Htr].
  - simpl in *. split_and!; [lia|done|].
    intros k [i t] Hin. rewrite (Hrect _ _ _ Hin).
    assert ((i, t) ∈ placed tr) as Hp
      by (apply list_elem_of_omap; by exists (k, Some (i, t))).
    pose proof (proj1 (Forall_forall _ _) HP _ Hp) as (row & Hi & Hin').
    simpl in Hi, Hin'.
    pose proof (proj1 (Forall_forall _ _) Hrows2 row (list_elem_of_lookup_2 _ _ _ Hi)).
    simpl in *. lia.
  - split; [exact Hpad|done].
  - intros k. simpl. by rewrite memtextures_elem.
Qed.

(** The scenario: no rows yet, and padded widths of 62, 52 and 42 on a
    surface 64 wide. *)
Lemma placed_within_width_witness :
  ∃ st' tr, Allocate 0 scenario = Some (st', true) ∧
    Allocate_placements 0 scenario = Some tr ∧
    Forall (fun row => width row ≤ x (atlasSize st')) (imageRows st').
Proof.
  assert (∃ st', Allocate 0 scenario = Some (st', true)) as [st' E]
    by (eexists; vm_compute; reflexivity).
  destruct (placed_within_width 0 scenario st' true) as (tr & Htr & _ & Hrows & _);
    [| | |exact E|].
  - unfold alloc_ok. simpl. split_and!; try lia; [by intros [|i] row|].
    repeat constructor; simpl; lia.
  - constructor.
  - repeat constructor; vm_compute; discriminate.
  - by exists st', tr.
Defined.

(** ** When a new row is refused *)

Lemma grow_fit st :
  dims_fit st → y (atlasSize st) ≤ y (maxsize st) →
  dims_fit (grow st) ∧ y (atlasSize (grow st)) ≤ y (maxsize (grow st)) ∧
  y (atlasSize (grow st)) ≤ 2 * y (atlasSize st).
Proof.
  unfold dims_fit, grow. simpl. intros (Hx & Hmx & Hy & Hmy) Hle.
  rewrite !shl32_1 by lia. lia.
Qed.

Lemma grow_n_fit n st :
  dims_fit st → y (atlasSize st) ≤ y (maxsize st) →
  dims_fit (Nat.iter n grow st) ∧
  y (atlasSize (Nat.iter n grow st)) ≤ y (maxsize (Nat.iter n grow st)).
Proof.
  intros Hst Hle. induction n as [|n [IH1 IH2]]; [done|].
  change (Nat.iter (S n) grow st) with (grow (Nat.iter n grow st)).
  by destruct (grow_fit _ IH1 IH2) as (? & ? & _).
Qed.

(** X8.  On sound dimensions within their maxima, a returning [AddRow]
    refuses the row exactly when the row would end beyond the maximum
    height.  A refusal leaves the rows, the next free row position and the
    registry alone, but not the surface: it has been blown up to both
    maxima.  A row that is granted leaves the surface as it was or lower
    than twice the end of the new row. *)
Theorem AddRow_refusal (fuel : nat) (st st' : CRowAtlasAlloc) (w h : Z)
    (r : option nat) :
  dims_fit st → y (atlasSize st) ≤ y (maxsize st) →
  -2^31 ≤ nextRowPos st + h < 2^31 →
  AddRow fuel st w h = Some (st', r) →
  (r = None ↔ y (maxsize st) < nextRowPos st + h) ∧
  (r = None →
     atlasSize st' = maxsize st ∧ imageRows st' = imageRows st ∧
     nextRowPos st' = nextRowPos st ∧ entries st' = entries st) ∧
  (is_Some r →
     nextRowPos st + h ≤ y (atlasSize st') ≤ y (maxsize st) ∧
     (atlasSize st' = atlasSize st ∨ y (atlasSize st') < 2 * (nextRowPos st + h))).
Proof.
  intros Hst Hle Hh H. apply AddRow_runs in H as (n & _ & Hk & Hr).
  destruct (grow_n_fit n st Hst Hle) as [Hg Hgle].
  assert (∀ k, nextRowPos (Nat.iter k grow st) = nextRowPos st ∧
               maxsize (Nat.iter k grow st) = maxsize st ∧
               imageRows (Nat.iter k grow st) = imageRows st ∧
               entries (Nat.iter k grow st) = entries st) as Hfr.
  { intros k. destruct (grow_n_frame k st) as [a ->]. done. }
  destruct (Hfr n) as (Hnx & Hmx & Hrows & Hes).
  unfold short, at_max in Hr. rewrite Hnx, ?Hmx in Hr. rewrite Hmx in Hgle.
  rewrite add32_small in Hr by done.
  destruct r as [i|].
  - destruct Hr as (Hs & -> & ->). apply Z.ltb_ge in Hs. simpl.
    split_and!; [split; [done|lia]|done|].
    intros _. split; [lia|].
    destruct n as [|n]; [by left|right].
    destruct (Hk n) as [Hs' _]; [lia|].
    unfold short in Hs'. destruct (Hfr n) as (Hnx' & _). rewrite Hnx' in Hs'.
    rewrite add32_small in Hs' by done. apply Z.ltb_lt in Hs'.
    destruct (grow_n_fit n st Hst Hle) as [Hg' Hgle'].
    destruct (grow_fit _ Hg' Hgle') as (_ & _ & Hdouble).
    change (Nat.iter (S n) grow st) with (grow (Nat.iter n grow st)). lia.
  - destruct Hr as (Hs & Hm & ->). apply Z.ltb_lt in Hs.
    apply andb_true_iff in Hm as [Hm1 Hm2]. apply Z.leb_le in Hm1, Hm2.
    destruct Hg as (Hgx & _). rewrite Hmx in Hgx.
    split_and!; [split; [lia|done]| |by intros [? [=]]].
    intros _. split_and!; try done.
    destruct (atlasSize (Nat.iter n grow st)) as [ax ay], (maxsize st) as [mx my].
    simpl in *. f_equal; lia.
Qed.

(** A surface of 64 x 64 at its maxima and a row of height 100. *)
Lemma AddRow_refusal_witness :
  ∃ st', AddRow 0 too_tall 11 100 = Some (st', None) ∧ atlasSize st' = maxsize too_tall.
Proof.
  assert (∃ st', AddRow 0 too_tall 11 100 = Some (st', None)) as [st' E]
    by (eexists; vm_compute; reflexivity).
  exists st'. split; [exact E|].
  destruct (AddRow_refusal 0 too_tall st' 11 100 None) as (_ & H & _);
    [unfold dims_fit; simpl; lia|simpl; lia|simpl; lia|exact E|].
  by destruct H.
Defined.

(** ** What a pass leaves alone *)

(** The rows of [rows] are still there in [rows'], where and as high as
    they were. *)
Lemma rows_kept_alter (f : Row → Row) i (rows : list Row) j row :
  (∀ r, position (f r) = position r ∧ height (f r) = height r) →
  rows !! j = Some row →
  ∃ row', alter f i rows !! j = Some row' ∧
    position row' = position row ∧ height row' = height row.
Proof.
  intros Hf Hj. destruct (decide (i = j)) as [->|Hne].
  - exists (f row). rewrite list_lookup_alter_eq, Hj. split; [done|apply Hf].
  - exists row. by rewrite list_lookup_alter_ne.
Qed.

Lemma entry_at_update_name es k k' f :
  (∀ e, name (f e) = name e) →
  name (entry_at (entry_update es k f) k') = name (entry_at es k').
Proof.
  intros Hf. induction es as [|[k0 e] es IH]; simpl; [done|].
  destruct (String.eqb k0 k) eqn:Ek; simpl; destruct (String.eqb k0 k'); try done.
Qed.

Lemma FindRow_kept fuel st w h st1 r :
  FindRow fuel st w h = Some (st1, r) →
  maxsize st1 = maxsize st ∧ numLevels st1 = numLevels st ∧ minDim st1 = minDim st ∧
  entries st1 = entries st ∧
  (∃ new, imageRows st1 = imageRows st ++ new) ∧
  match r with Some i => (i < length (imageRows st1))%nat | None => True end.
Proof.
  intros HF.
  destruct (FindRow_found_or_added fuel st w h) as [(j & Hj & HF')|HF'];
    rewrite HF' in HF.
  - injection HF as <- <-. split_and!; try done. exists []. by rewrite app_nil_r.
  - apply AddRow_runs in HF as (n & _ & _ & Hr).
    destruct (grow_n_frame n st) as [a Ha]. rewrite Ha in Hr.
    destruct r as [i|].
    + destruct Hr as (_ & -> & ->). simpl. split_and!; try done.
      * by eexists.
      * rewrite length_app. simpl. lia.
    + destruct Hr as (_ & _ & ->). split_and!; try done. exists []. by rewrite app_nil_r.
Qed.

Lemma place_all_kept fuel pad mem st ok st' ok' :
  place_all fuel pad mem st ok = Some (st', ok') →
  maxsize st' = maxsize st ∧ numLevels st' = numLevels st ∧ minDim st' = minDim st ∧
  (entries st').*1 = (entries st).*1 ∧
  (∀ k, size (entry_at (entries st') k) = size (entry_at (entries st) k) ∧
        name (entry_at (entries st') k) = name (entry_at (entries st) k)) ∧
  (length (imageRows st) ≤ length (imageRows st'))%nat ∧
  (∀ i row, imageRows st !! i = Some row →
     ∃ row', imageRows st' !! i = Some row' ∧
       position row' = position row ∧ height row' = height row).
Proof.
  revert st ok. induction mem as [|k mem IH]; intros st ok; simpl.
  - intros [= <- _]. split_and!; try done. intros i row Hi. by exists row.
  - destruct (FindRow _ _ _ _) as [[st1 r]|] eqn:HF; [|done].
    apply FindRow_kept in HF as (Hmx & Hnl & Hmd & Hes & [new Hrows] & Hr).
    destruct r as [i|]; intros H;
      apply IH in H as (Hmx' & Hnl' & Hmd' & Hes' & Hsz' & Hlen' & Hrows').
    + rewrite place_keys in Hes'.
      change (maxsize (place st1 k pad i)) with (maxsize st1) in Hmx'.
      change (numLevels (place st1 k pad i)) with (numLevels st1) in Hnl'.
      change (minDim (place st1 k pad i)) with (minDim st1) in Hmd'.
      split_and!; try congruence.
      * intros k'. destruct (Hsz' k') as [-> ->]. rewrite place_size.
        unfold place. simpl. rewrite entry_at_update_name by done. by rewrite Hes.
      * unfold place in Hlen'. simpl in Hlen'. rewrite length_alter, Hrows in Hlen'.
        rewrite length_app in Hlen'. lia.
      * intros j row Hj.
        assert (imageRows st1 !! j = Some row) as Hj1
          by (rewrite Hrows; by apply lookup_app_l_Some).
        destruct (rows_kept_alter
          (add_width (add32 (x (size (entry_at (entries st1) k))) pad)) i
          (imageRows st1) j row) as (row1 & Hj2 & Hp1 & Hh1); [done|done|].
        destruct (Hrows' j row1) as (row' & Hj' & Hp' & Hh').
        { unfold place. simpl. exact Hj2. }
        exists row'. split_and!; [done|congruence..].
    + split_and!; try congruence.
      * intros k'. destruct (Hsz' k') as [-> ->]. by rewrite Hes.
      * rewrite Hrows, length_app in Hlen'. lia.
      * intros j row Hj. apply Hrows'. rewrite Hrows. by apply lookup_app_l_Some.
Qed.

(** X9.  Whatever the sizes, a returning [Allocate] changes rectangles, row
    widths, the surface size and, by appending rows, the next free row
    position, and nothing else: the maxima, the number of mip levels and the
    smallest dimension stay; the registry lists the same names in the same
    order, each entry with the size and the name it had; no row is removed
    or reordered, and every row is where and as high as it was. *)
Theorem Allocate_keeps (fuel : nat) (st st' : CRowAtlasAlloc) (ok : bool) :
  Allocate fuel st = Some (st', ok) →
  maxsize st' = maxsize st ∧ numLevels st' = numLevels st ∧ minDim st' = minDim st ∧
  (entries st').*1 = (entries st).*1 ∧
  (∀ k, size (entry_at (entries st') k) = size (entry_at (entries st) k) ∧
        name (entry_at (entries st') k) = name (entry_at (entries st) k)) ∧
  (length (imageRows st) ≤ length (imageRows st'))%nat ∧
  (∀ i row, imageRows st !! i = Some row →
     ∃ row', imageRows st' !! i = Some row' ∧
       position row' = position row ∧ height row' = height row).
Proof.
  unfold Allocate.
  destruct (EstimateNeededSize fuel _) as [st1|] eqn:E; [|done].
  apply EstimateNeededSize_frame in E as [a ->].
  destruct (place_all _ _ _ _ _) as [[st2 ok2]|] eqn:Ep; [|done].
  intros [= <- <-]. by apply place_all_kept in Ep.
Qed.

(** The scenario. *)
Lemma Allocate_keeps_witness :
  ∃ st', Allocate 0 scenario = Some (st', true) ∧ maxsize st' = maxsize scenario ∧
    (entries st').*1 = (entries scenario).*1.
Proof.
  assert (∃ st', Allocate 0 scenario = Some (st', true)) as [st' E]
    by (eexists; vm_compute; reflexivity).
  destruct (Allocate_keeps 0 scenario st' true E) as (H1 & _ & _ & H2 & _).
  by exists st'.
Defined.

(** ** A pass over an empty registry *)

(** An [int] that is not negative converts to a float that is not below
    zero. *)
Lemma float_of_int_not_below_zero z sz :
  0 ≤ z → flt (float_of_int z) (S754_zero sz) = false.
Proof.
  intros Hz. unfold float_of_int, binary_normalize.
  destruct z as [|m|m]; [done| |lia].
  unfold binary_round. destruct (shl_align _ _ _) as [mz ez].
  unfold binary_round_aux.
  destruct (shr_fexp 24 128 (Z.pos mz) ez loc_Exact) as [mrs' e'].
  destruct (shr_fexp 24 128 _ e' loc_Exact) as [mrs'' e''].
  destruct (shr_m mrs'') as [|m'|m']; [done| |done].
  by destruct (e'' <=? 128 - 24).
Qed.

Lemma lacks_slack_nothing_needed free : 0 ≤ free → lacks_slack free 0 = false.
Proof. intros Hf. unfold lacks_slack. by apply float_of_int_not_below_zero. Qed.

(** X10.  With nothing registered and the free area that the estimator
    counts not negative, [Allocate] returns [true] at once, whatever the
    maxima: it opens no row and resizes nothing but the height, which it
    sets to the next free row position, 0 on an allocator without rows. *)
Theorem Allocate_nothing_registered (fuel : nat) (st : CRowAtlasAlloc) :
  entries st = [] → 0 ≤ initial_free (normalize_height st) →
  Allocate fuel st
  = Some (set_atlasSize st (mk_int2 (x (atlasSize st)) (nextRowPos st)), true).
Proof.
  intros Hes Hfree. unfold Allocate, EstimateNeededSize.
  fold (normalize_height st).
  change (entries (normalize_height st)) with (entries st). rewrite Hes.
  rewrite estimate_loop_unfold.
  change (entries_area []) with 0. rewrite lacks_slack_nothing_needed by done.
  change (entries (normalize_height st)) with (entries st). by rewrite Hes.
Qed.

(** The allocator as constructed, 256 x 256, with nothing registered: the
    pass leaves a surface of height 0. *)
Lemma Allocate_nothing_registered_witness :
  ∃ st', Allocate 0 (fresh [] (mk_int2 256 256) (mk_int2 2048 2048) 0 0)
         = Some (st', true) ∧ atlasSize st' = mk_int2 256 0.
Proof.
  eexists. split.
  - apply (Allocate_nothing_registered 0
             (fresh [] (mk_int2 256 256) (mk_int2 2048 2048) 0 0)); [done|].
    vm_compute. discriminate.
  - done.
Defined.

(** ** The estimator on maxima that doubling reaches *)

(** X11.  Where doubling arrives at the maxima exactly, as with powers of
    two, and the areas fit an [int], the estimator returns after at most as
    many rounds as the two dimensions are short of their maxima; it leaves
    dimensions of the same kind, none beyond its maximum, and a surface
    whose free area is not below 1.2 times the area needed (compared in
    single precision) or that has both its maximal dimensions. *)
Theorem EstimateNeededSize_ends (fuel : nat) (st : CRowAtlasAlloc) :
  doubling_ok st → estimate_ok st → (Z.to_nat (headroom st) ≤ fuel)%nat →
  ∃ st', EstimateNeededSize fuel st = Some st' ∧ doubling_ok st' ∧
    x (atlasSize st') ≤ x (maxsize st) ∧ y (atlasSize st') ≤ y (maxsize st) ∧
    (lacks_slack (free_area st') (area_sum (entries st)) = false ∨
     atlasSize st' = maxsize st).
Proof.
  intros Hok Hest Hfuel.
  destruct (estimate_loop_total fuel (entries_area (entries st)) (initial_free st) st
              Hok Hfuel) as [st' H].
  exists st'. split; [exact H|].
  pose proof (estimate_loop_doubling _ _ _ _ _ Hok H) as Hok'.
  assert (lacks_slack (free_area st') (area_sum (entries st)) = false ∨
          at_max st' = true) as Hend.
  { assert (entries_area (entries st) = area_sum (entries st)) as Hneeded.
    { destruct Hest as (_ & _ & _ & _ & _ & _ & _ & Hes & Harea).
      by apply entries_area_exact. }
    rewrite Hneeded, initial_free_exact in H by done.
    by apply estimate_loop_runs in H as (n & _ & _ & Hend). }
  apply estimate_loop_frame in H as [a ->].
  pose proof Hok' as (Hx & Hy & _ & _ & Hrx & Hry). simpl in Hx, Hy, Hrx, Hry.
  pose proof (reaches_le _ _ Hx Hrx). pose proof (reaches_le _ _ Hy Hry).
  simpl. split_and!; [done..|].
  destruct Hend as [?|Hmax]; [by left|right].
  unfold at_max in Hmax. simpl in Hmax.
  apply andb_true_iff in Hmax as [Hm1 Hm2]. apply Z.leb_le in Hm1, Hm2.
  destruct a as [ax ay], (maxsize st) as [mx my]. simpl in *. f_equal; lia.
Qed.

(** The scenario of the specification: 64 x 64 with maxima of 256 x 256. *)
Lemma EstimateNeededSize_ends_witness :
  ∃ st', EstimateNeededSize 384 scenario = Some st' ∧ doubling_ok st'.
Proof.
  destruct (EstimateNeededSize_ends 384 scenario) as (st' & H & Hok & _).
  - unfold doubling_ok. simpl. split_and!; try lia; by exists 2%nat.
  - unfold estimate_ok. simpl. split_and!; try lia; repeat constructor; simpl; lia.
  - vm_compute. lia.
  - by exists st'.
Defined.

(** * Properties of the CPU topology probing *)
Module cpu_topology_facts.
Import cpu_topology.

Lemma testbit_set b pos i :
  0 ≤ pos → 0 ≤ i →
  Z.testbit (Z.lor b (Z.shiftl 1 pos)) i = Z.testbit b i || bool_decide (i = pos).
Proof.
  intros Hpos Hi. rewrite Z.lor_spec, Z.shiftl_1_l, Z.pow2_bits_eqb by done.
  f_equal. case_bool_decide; [subst; apply Z.eqb_refl|]. apply Z.eqb_neq. lia.
Qed.

Lemma bitset_set_Some b pos :
  0 ≤ pos < MAX_CPUS → bitset_set b pos = Some (Z.lor b (Z.shiftl 1 pos)).
Proof. intros H. unfold bitset_set. by rewrite decide_True. Qed.

Lemma min_element_least a l :
  min_element a l ∈ a :: l ∧ ∀ j, j ∈ a :: l → min_element a l ≤ j.
Proof.
  unfold min_element. revert a. induction l as [|b l IH]; intros a; simpl.
  - split; [set_solver|]. intros j Hj. apply list_elem_of_singleton in Hj. lia.
  - destruct (IH (Z.min a b)) as [Hin Hle]. split.
    + apply elem_of_cons in Hin as [Hin|Hin]; [|set_solver].
      rewrite Hin. destruct (Z.min_spec a b) as [[_ ->]|[_ ->]]; set_solver.
    + intros j Hj. assert (Z.min a b ≤ j ∨ j ∈ l) as [?|?].
      { apply elem_of_cons in Hj as [->|Hj]; [left; lia|].
        apply elem_of_cons in Hj as [->|Hj]; [left; lia|by right]. }
      * trans (Z.min a b); [apply Hle; set_solver|done].
      * apply Hle. set_solver.
Qed.

(** A cpu is the least of its siblings. *)
Lemma min_element_iff c a l :
  c = min_element a l ↔ c ∈ a :: l ∧ ∀ j, j ∈ a :: l → c ≤ j.
Proof.
  destruct (min_element_least a l) as [Hin Hle]. split.
  - by intros ->.
  - intros [Hc Hcle]. apply Z.le_antisymm; [by apply Hcle|by apply Hle].
Qed.

Lemma adds_refl m E (S : Z → Prop) ms : (∀ i, ¬ S i) → adds m E S ms ms.
Proof. intros HS i Hi. specialize (HS i). tauto. Qed.

Lemma adds_trans m E (S1 S2 S : Z → Prop) ms ms1 ms2 :
  (∀ i, S i ↔ S1 i ∨ S2 i) →
  adds m E S1 ms ms1 → adds m E S2 ms1 ms2 → adds m E S ms ms2.
Proof.
  intros HS H1 H2 i Hi. specialize (HS i).
  destruct (H1 i Hi) as (A1 & B1 & C1 & D1), (H2 i Hi) as (A2 & B2 & C2 & D2).
  split_and!; [rewrite A2, A1|rewrite B2, B1|rewrite C2, C1|rewrite D2, D1];
    clear -HS; tauto.
Qed.

Lemma smt_step_adds m cpu ms :
  0 ≤ cpu < MAX_CPUS →
  ∃ ms', smt_step m cpu ms = Some ms' ∧
    efficiencyCoreMask ms' = efficiencyCoreMask ms ∧
    performanceCoreMask ms' = performanceCoreMask ms ∧
    ∀ i, 0 ≤ i →
      (Z.testbit (hyperThreadLowMask ms') i = true ↔
         Z.testbit (hyperThreadLowMask ms) i = true ∨
         (i = cpu ∧ smt_enabled m i ∧ least_sibling m i)) ∧
      (Z.testbit (hyperThreadHighMask ms') i = true ↔
         Z.testbit (hyperThreadHighMask ms) i = true ∨
         (i = cpu ∧ smt_enabled m i ∧ ¬ least_sibling m i)).
Proof.
  intros Hcpu. unfold smt_step, collect_smt_affinity_masks.
  destruct (get_thread_siblings m cpu) as [|a [|b rest]] eqn:Hs.
  - assert (¬ smt_enabled m cpu) as Hno
      by (unfold smt_enabled; rewrite Hs; simpl; lia).
    simpl. eexists. split_and!; [done..|]. intros i Hi. simpl.
    split; (split; [tauto|]); (intros [?|(-> & ? & _)]; [done|tauto]).
  - assert (¬ smt_enabled m cpu) as Hno
      by (unfold smt_enabled; rewrite Hs; simpl; lia).
    simpl. eexists. split_and!; [done..|]. intros i Hi. simpl.
    split; (split; [tauto|]); (intros [?|(-> & ? & _)]; [done|tauto]).
  - assert (smt_enabled m cpu) as Hlen
      by (unfold smt_enabled; rewrite Hs; simpl; lia).
    assert (cpu = min_element a (b :: rest) ↔ least_sibling m cpu) as Hmin
      by (unfold least_sibling; rewrite Hs; apply min_element_iff).
    destruct (decide (cpu = min_element a (b :: rest))) as [Heq|Hne].
    + apply Hmin in Heq. rewrite bitset_set_Some by done. simpl.
      eexists. split_and!; [done..|]. intros i Hi. simpl.
      rewrite testbit_set by lia. rewrite orb_true_iff, bool_decide_eq_true.
      split; split.
      * intros [?| ->]; [by left|by right].
      * intros [?|(-> & _)]; [by left|by right].
      * tauto.
      * intros [?|(-> & _ & Hn)]; [done|tauto].
    + rewrite Hmin in Hne. rewrite bitset_set_Some by done. simpl.
      eexists. split_and!; [done..|]. intros i Hi. simpl.
      rewrite testbit_set by lia. rewrite orb_true_iff, bool_decide_eq_true.
      split; split.
      * tauto.
      * intros [?|(-> & _ & Hn)]; [done|tauto].
      * intros [?| ->]; [by left|by right].
      * intros [?|(-> & _)]; [by left|by right].
Qed.

(** An update of a mask at [cpu], seen at bit [i]. *)
Lemma set_iff b cpu i (P : Z → Prop) :
  0 ≤ cpu → 0 ≤ i → P cpu →
  (Z.testbit (Z.lor b (Z.shiftl 1 cpu)) i = true ↔
   Z.testbit b i = true ∨ ((i = cpu ∧ i < MAX_CPUS) ∧ P i)) ∨ ¬ cpu < MAX_CPUS.
Proof.
  intros Hcpu Hi HP. destruct (decide (cpu < MAX_CPUS)) as [Hlt|?]; [left|by right].
  rewrite testbit_set by done. rewrite orb_true_iff, bool_decide_eq_true.
  split; [intros [?| ->]; [by left|by right]|intros [?|[[-> _] _]]; [by left|by right]].
Qed.

Lemma keep_iff b cpu i (P : Z → Prop) :
  ¬ P cpu →
  (Z.testbit b i = true ↔ Z.testbit b i = true ∨ ((i = cpu ∧ i < MAX_CPUS) ∧ P i)).
Proof. intros HP. split; [tauto|]. intros [?|[[-> _] ?]]; [done|tauto]. Qed.

Lemma smt_adds m cpu ms ms' i :
  (Z.testbit (hyperThreadLowMask ms') i = true ↔
     Z.testbit (hyperThreadLowMask ms) i = true ∨
     (i = cpu ∧ smt_enabled m i ∧ least_sibling m i)) →
  cpu < MAX_CPUS →
  (Z.testbit (hyperThreadLowMask ms') i = true ↔
     Z.testbit (hyperThreadLowMask ms) i = true ∨
     ((i = cpu ∧ i < MAX_CPUS) ∧ smt_enabled m i ∧ least_sibling m i)).
Proof. intros -> Hlt. split; (intros [?|[H ?]]; [by left|right]); [|tauto]. split; [|done]. destruct H. subst. tauto. Qed.

Lemma intel_body_adds m cpu ms :
  0 ≤ cpu →
  ∃ ms', intel_body m cpu ms = Some ms' ∧
    adds m (fun i => get_intel_core_type m i = CORE_EFFICIENCY)
      (fun i => i = cpu ∧ i < MAX_CPUS) ms ms'.
Proof.
  intros Hcpu. unfold intel_body.
  destruct (decide (MAX_CPUS ≤ cpu)) as [Hge|Hlt].
  { eexists. split; [done|]. apply adds_refl. intros i. lia. }
  assert (0 ≤ cpu < MAX_CPUS) as Hin by lia.
  destruct (get_intel_core_type m cpu) eqn:Ht; rewrite bitset_set_Some by done; simpl;
    match goal with |- context [smt_step m cpu ?ms1] =>
      destruct (smt_step_adds m cpu ms1 Hin) as (ms' & -> & He & Hp & Hlh)
    end; simpl in He, Hp; (exists ms'; split; [done|]); intros i Hi;
    destruct (Hlh i Hi) as [Hl Hh]; simpl in Hl, Hh; rewrite He, Hp.
  - split_and!.
    + apply (keep_iff _ cpu i (fun i => get_intel_core_type m i = CORE_EFFICIENCY)).
      congruence.
    + destruct (set_iff (performanceCoreMask ms) cpu i
        (fun i => get_intel_core_type m i ≠ CORE_EFFICIENCY)) as [H|H];
        [lia|done|congruence|exact H|lia].
    + rewrite Hl. split; (intros [?|H]; [by left|right]); [|tauto].
      destruct H as (-> & ?). split; [split; [done|lia]|done].
    + rewrite Hh. split; (intros [?|H]; [by left|right]); [|tauto].
      destruct H as (-> & ?). split; [split; [done|lia]|done].
  - split_and!.
    + destruct (set_iff (efficiencyCoreMask ms) cpu i
        (fun i => get_intel_core_type m i = CORE_EFFICIENCY)) as [H|H];
        [lia|done|done|exact H|lia].
    + apply (keep_iff _ cpu i (fun i => get_intel_core_type m i ≠ CORE_EFFICIENCY)).
      intros H. by apply H.
    + rewrite Hl. split; (intros [?|H]; [by left|right]); [|tauto].
      destruct H as (-> & ?). split; [split; [done|lia]|done].
    + rewrite Hh. split; (intros [?|H]; [by left|right]); [|tauto].
      destruct H as (-> & ?). split; [split; [done|lia]|done].
  - split_and!.
    + apply (keep_iff _ cpu i (fun i => get_intel_core_type m i = CORE_EFFICIENCY)).
      congruence.
    + destruct (set_iff (performanceCoreMask ms) cpu i
        (fun i => get_intel_core_type m i ≠ CORE_EFFICIENCY)) as [H|H];
        [lia|done|congruence|exact H|lia].
    + rewrite Hl. split; (intros [?|H]; [by left|right]); [|tauto].
      destruct H as (-> & ?). split; [split; [done|lia]|done].
    + rewrite Hh. split; (intros [?|H]; [by left|right]); [|tauto].
      destruct H as (-> & ?). split; [split; [done|lia]|done].
Qed.

Lemma amd_body_adds m cpu ms :
  0 ≤ cpu →
  ∃ ms', amd_body m cpu ms = Some ms' ∧
    adds m (fun _ => False) (fun i => i = cpu ∧ i < MAX_CPUS) ms ms'.
Proof.
  intros Hcpu. unfold amd_body.
  destruct (decide (MAX_CPUS ≤ cpu)) as [Hge|Hlt].
  { eexists. split; [done|]. apply adds_refl. intros i. lia. }
  assert (0 ≤ cpu < MAX_CPUS) as Hin by lia.
  rewrite bitset_set_Some by done; simpl.
  match goal with |- context [smt_step m cpu ?ms1] =>
    destruct (smt_step_adds m cpu ms1 Hin) as (ms' & -> & He & Hp & Hlh)
  end. simpl in He, Hp. exists ms'. split; [done|]. intros i Hi.
  destruct (Hlh i Hi) as [Hl Hh]. simpl in Hl, Hh. rewrite He, Hp.
  split_and!.
  - apply (keep_iff _ cpu i (fun _ => False)). tauto.
  - destruct (set_iff (performanceCoreMask ms) cpu i (fun _ => ¬ False)) as [H|H];
      [lia|done|tauto|exact H|lia].
  - rewrite Hl. split; (intros [?|H]; [by left|right]); [|tauto].
    destruct H as (-> & ?). split; [split; [done|lia]|done].
  - rewrite Hh. split; (intros [?|H]; [by left|right]); [|tauto].
    destruct H as (-> & ?). split; [split; [done|lia]|done].
Qed.

Lemma for_cpus_adds m E body cpus ms :
  (∀ cpu ms, 0 ≤ cpu →
     ∃ ms', body cpu ms = Some ms' ∧ adds m E (fun i => i = cpu ∧ i < MAX_CPUS) ms ms') →
  Forall (fun cpu => 0 ≤ cpu) cpus →
  ∃ ms', for_cpus body cpus ms = Some ms' ∧
    adds m E (fun i => i ∈ cpus ∧ i < MAX_CPUS) ms ms'.
Proof.
  intros Hbody Hcpus. revert ms.
  induction Hcpus as [|cpu cpus Hcpu _ IH]; intros ms; simpl.
  - eexists. split; [done|]. apply adds_refl. set_solver.
  - destruct (Hbody cpu ms Hcpu) as (ms1 & -> & H1). simpl.
    destruct (IH ms1) as (ms' & -> & H2). exists ms'. split; [done|].
    eapply adds_trans; [|exact H1|exact H2]. intros i. simpl. set_solver.
Qed.

Lemma seqZ_nonneg n : Forall (fun cpu => 0 ≤ cpu) (seqZ 0 n).
Proof. apply Forall_forall. intros i Hi%elem_of_seqZ. lia. Qed.

Lemma probed_seqZ m i :
  probed m i ↔ i ∈ seqZ 0 (get_cpu_count m) ∧ i < MAX_CPUS.
Proof. unfold probed. rewrite elem_of_seqZ. lia. Qed.

(** What [GetProcessorMasks] returns for a vendor whose loop adds the bits
    of [E]. *)
Lemma adds_from_zero m E S pm :
  adds m E S (mk_ProcessorMasks 0 0 0 0) pm →
  Z.land (efficiencyCoreMask pm) (performanceCoreMask pm) = 0 ∧
  Z.land (hyperThreadLowMask pm) (hyperThreadHighMask pm) = 0 ∧
  ∀ i,
    (Z.testbit (efficiencyCoreMask pm) i = true ↔ 0 ≤ i ∧ S i ∧ E i) ∧
    (Z.testbit (performanceCoreMask pm) i = true ↔ 0 ≤ i ∧ S i ∧ ¬ E i) ∧
    (Z.testbit (hyperThreadLowMask pm) i = true ↔
       0 ≤ i ∧ S i ∧ smt_enabled m i ∧ least_sibling m i) ∧
    (Z.testbit (hyperThreadHighMask pm) i = true ↔
       0 ≤ i ∧ S i ∧ smt_enabled m i ∧ ¬ least_sibling m i).
Proof.
  intros H.
  assert (∀ i,
    (Z.testbit (efficiencyCoreMask pm) i = true ↔ 0 ≤ i ∧ S i ∧ E i) ∧
    (Z.testbit (performanceCoreMask pm) i = true ↔ 0 ≤ i ∧ S i ∧ ¬ E i) ∧
    (Z.testbit (hyperThreadLowMask pm) i = true ↔
       0 ≤ i ∧ S i ∧ smt_enabled m i ∧ least_sibling m i) ∧
    (Z.testbit (hyperThreadHighMask pm) i = true ↔
       0 ≤ i ∧ S i ∧ smt_enabled m i ∧ ¬ least_sibling m i)) as Hbits.
  { intros i. destruct (decide (0 ≤ i)) as [Hi|Hi].
    - destruct (H i Hi) as (A & B & C & D). simpl in A, B, C, D.
      rewrite Z.testbit_0_l in A, B, C, D. rewrite A, B, C, D.
      split_and!; (split; [intros [?|?]; [done|tauto]|tauto]).
    - rewrite !Z.testbit_neg_r by lia. split_and!; (split; [done|tauto]). }
  split_and!; [| |done]; apply Z.bits_inj'; intros i Hi;
    rewrite Z.land_spec, Z.testbit_0_l; destruct (Hbits i) as (A & B & C & D);
    apply andb_false_iff.
  - destruct (Z.testbit (efficiencyCoreMask pm) i) eqn:E1; [|by left]. right.
    apply not_true_is_false. rewrite B. tauto.
  - destruct (Z.testbit (hyperThreadLowMask pm) i) eqn:E1; [|by left]. right.
    apply not_true_is_false. rewrite D. tauto.
Qed.

Lemma detect_cpu_vendor_x86 m :
  detect_cpu_vendor m = VENDOR_INTEL ∨ detect_cpu_vendor m = VENDOR_AMD ∨
  detect_cpu_vendor m = VENDOR_UNKNOWN.
Proof. unfold detect_cpu_vendor. repeat case_decide; tauto. Qed.

(** The bits of the four masks, vendor by vendor. *)
Lemma GetProcessorMasks_bits m :
  ∃ pm, GetProcessorMasks m = Some pm ∧
    Z.land (efficiencyCoreMask pm) (performanceCoreMask pm) = 0 ∧
    Z.land (hyperThreadLowMask pm) (hyperThreadHighMask pm) = 0 ∧
    ∀ i,
      (Z.testbit (efficiencyCoreMask pm) i = true ↔
         detect_cpu_vendor m = VENDOR_INTEL ∧ probed m i ∧
         get_intel_core_type m i = CORE_EFFICIENCY) ∧
      (Z.testbit (performanceCoreMask pm) i = true ↔
         probed m i ∧
         (detect_cpu_vendor m = VENDOR_AMD ∨
          detect_cpu_vendor m = VENDOR_INTEL ∧
          get_intel_core_type m i ≠ CORE_EFFICIENCY)) ∧
      (Z.testbit (hyperThreadLowMask pm) i = true ↔
         (detect_cpu_vendor m = VENDOR_INTEL ∨ detect_cpu_vendor m = VENDOR_AMD) ∧
         probed m i ∧ smt_enabled m i ∧ least_sibling m i) ∧
      (Z.testbit (hyperThreadHighMask pm) i = true ↔
         (detect_cpu_vendor m = VENDOR_INTEL ∨ detect_cpu_vendor m = VENDOR_AMD) ∧
         probed m i ∧ smt_enabled m i ∧ ¬ least_sibling m i).
Proof.
  unfold GetProcessorMasks.
  destruct (detect_cpu_vendor m) eqn:Hv.
  - destruct (for_cpus_adds m (fun i => get_intel_core_type m i = CORE_EFFICIENCY)
      (intel_body m) (seqZ 0 (get_cpu_count m)) (mk_ProcessorMasks 0 0 0 0)
      (intel_body_adds m) (seqZ_nonneg _)) as (pm & Hpm & Hadds).
    exists pm. split; [exact Hpm|].
    apply adds_from_zero in Hadds as (H1 & H2 & Hbits). split_and!; [done..|].
    intros i. destruct (Hbits i) as (A & B & C & D).
    pose proof (probed_seqZ m i) as Hpr. unfold probed in Hpr |- *.
    rewrite A, B, C, D. clear A B C D.
    split_and!; (split; [intros (? & ? & ?)|intros ?]); intuition (try done; try lia).
  - destruct (for_cpus_adds m (fun _ => False)
      (amd_body m) (seqZ 0 (get_cpu_count m)) (mk_ProcessorMasks 0 0 0 0)
      (amd_body_adds m) (seqZ_nonneg _)) as (pm & Hpm & Hadds).
    exists pm. split; [exact Hpm|].
    apply adds_from_zero in Hadds as (H1 & H2 & Hbits). split_and!; [done..|].
    intros i. destruct (Hbits i) as (A & B & C & D).
    pose proof (probed_seqZ m i) as Hpr. unfold probed in Hpr |- *.
    rewrite A, B, C, D. clear A B C D.
    split_and!; (split; [intros (? & ? & ?)|intros ?]); intuition (try done; try lia).
  - destruct (detect_cpu_vendor_x86 m) as [H|[H|H]]; congruence.
  - eexists. split; [done|]. simpl. split_and!; [done..|].
    intros i. rewrite Z.testbit_0_l. split_and!; (split; [done|]); intuition done.
Qed.

Lemma no_bits_zero a : (∀ i, Z.testbit a i = true → False) → a = 0.
Proof.
  intros H. apply Z.bits_inj'. intros i _. rewrite Z.testbit_0_l.
  apply not_true_is_false. intros Hi. by apply (H i).
Qed.

(** X13.  [GetProcessorMasks] on x86 never meets the [std::out_of_range] of
    [std::bitset::set]: it returns.  The efficiency and the performance
    mask it returns have no cpu in common, and together they hold exactly
    the cpus from 0 below the smaller of the cpu count and [MAX_CPUS] if the
    vendor is Intel or AMD, and none otherwise.  A cpu is in the efficiency
    mask exactly if the vendor is Intel and the cpu reports an efficiency
    core; every other cpu looked at, one of unknown core type included,
    counts as a performance core. *)
Theorem GetProcessorMasks_core_masks (m : Machine) :
  ∃ pm, GetProcessorMasks m = Some pm ∧
    Z.land (efficiencyCoreMask pm) (performanceCoreMask pm) = 0 ∧
    (∀ i, Z.testbit (Z.lor (efficiencyCoreMask pm) (performanceCoreMask pm)) i = true ↔
       (detect_cpu_vendor m = VENDOR_INTEL ∨ detect_cpu_vendor m = VENDOR_AMD) ∧
       0 ≤ i < Z.min (get_cpu_count m) MAX_CPUS) ∧
    (∀ i, Z.testbit (efficiencyCoreMask pm) i = true ↔
       detect_cpu_vendor m = VENDOR_INTEL ∧
       0 ≤ i < Z.min (get_cpu_count m) MAX_CPUS ∧
       get_intel_core_type m i = CORE_EFFICIENCY) ∧
    (detect_cpu_vendor m ≠ VENDOR_INTEL → efficiencyCoreMask pm = 0) ∧
    (detect_cpu_vendor m = VENDOR_UNKNOWN → pm = mk_ProcessorMasks 0 0 0 0).
Proof.
  destruct (GetProcessorMasks_bits m) as (pm & Hpm & Hdis & _ & Hbits).
  exists pm. split_and!; [done|done| | | |].
  - intros i. destruct (Hbits i) as (A & B & _). unfold probed in A, B.
    rewrite Z.lor_spec, orb_true_iff, A, B.
    destruct (get_intel_core_type m i) eqn:Ht; intuition congruence.
  - intros i. by destruct (Hbits i) as (A & _).
  - intros Hv. apply no_bits_zero. intros i Hi.
    destruct (Hbits i) as (A & _). apply A in Hi. tauto.
  - intros Hv. unfold GetProcessorMasks in Hpm. rewrite Hv in Hpm. by injection Hpm.
Qed.

(** X14.  The two hyperthread masks that [GetProcessorMasks] returns on x86
    have no cpu in common and hold cpus of the two core masks only.  For an
    Intel or AMD processor, a cpu looked at whose sibling list names more
    than one cpu is in the low mask if it is in the list and none in the
    list is below it, and in the high mask otherwise; a cpu whose list names
    one cpu or none is in neither. *)
Theorem GetProcessorMasks_smt_masks (m : Machine) :
  ∃ pm, GetProcessorMasks m = Some pm ∧
    Z.land (hyperThreadLowMask pm) (hyperThreadHighMask pm) = 0 ∧
    (∀ i, Z.testbit (hyperThreadLowMask pm) i = true ↔
       (detect_cpu_vendor m = VENDOR_INTEL ∨ detect_cpu_vendor m = VENDOR_AMD) ∧
       0 ≤ i < Z.min (get_cpu_count m) MAX_CPUS ∧
       (1 < length (get_thread_siblings m i))%nat ∧
       (i ∈ get_thread_siblings m i ∧ ∀ j, j ∈ get_thread_siblings m i → i ≤ j)) ∧
    (∀ i, Z.testbit (hyperThreadHighMask pm) i = true ↔
       (detect_cpu_vendor m = VENDOR_INTEL ∨ detect_cpu_vendor m = VENDOR_AMD) ∧
       0 ≤ i < Z.min (get_cpu_count m) MAX_CPUS ∧
       (1 < length (get_thread_siblings m i))%nat ∧
       ¬ (i ∈ get_thread_siblings m i ∧ ∀ j, j ∈ get_thread_siblings m i → i ≤ j)) ∧
    (∀ i, Z.testbit (Z.lor (hyperThreadLowMask pm) (hyperThreadHighMask pm)) i = true →
       Z.testbit (Z.lor (efficiencyCoreMask pm) (performanceCoreMask pm)) i = true).
Proof.
  destruct (GetProcessorMasks_bits m) as (pm & Hpm & _ & Hdis & Hbits).
  exists pm. split_and!; [done|done| | |].
  - intros i. by destruct (Hbits i) as (_ & _ & C & _).
  - intros i. by destruct (Hbits i) as (_ & _ & _ & D).
  - intros i. destruct (Hbits i) as (A & B & C & D).
    rewrite !Z.lor_spec, !orb_true_iff, A, B, C, D.
    destruct (get_intel_core_type m i) eqn:Ht; intuition congruence.
Qed.

Lemma land_bit a k :
  0 ≤ k → Z.land a (2 ^ k) = if Z.testbit a k then 2 ^ k else 0.
Proof.
  intros Hk. apply Z.bits_inj'. intros i Hi.
  rewrite Z.land_spec, Z.pow2_bits_eqb by done.
  destruct (Z.eqb_spec k i) as [->|Hne].
  - destruct (Z.testbit a i); simpl; [|by rewrite Z.testbit_0_l].
    by rewrite Z.pow2_bits_eqb, Z.eqb_refl.
  - rewrite andb_false_r. destruct (Z.testbit a k); [|by rewrite Z.testbit_0_l].
    rewrite Z.pow2_bits_eqb by done. symmetry. by apply Z.eqb_neq.
Qed.

(** X15.  The core type of an Intel cpu is read off two bits of register
    [eax] of CPUID leaf [0x1A]: bit 30 makes a performance core, whatever
    bit 29 is; bit 29 without bit 30 makes an efficiency core; the other
    bits are not looked at, and a processor without the leaf has cores of
    unknown type. *)
Theorem get_intel_core_type_bits (m : Machine) (cpu : Z) :
  get_intel_core_type m cpu =
    match cpuid_1A_eax m cpu with
    | Some eax =>
        if Z.testbit eax 30 then CORE_PERFORMANCE
        else if Z.testbit eax 29 then CORE_EFFICIENCY
        else CORE_UNKNOWN
    | None => CORE_UNKNOWN
    end.
Proof.
  unfold get_intel_core_type. destruct (cpuid_1A_eax m cpu) as [eax|]; [|done].
  assert (∀ k, k = 5 ∨ k = 6 →
            Z.testbit (Z.shiftr (Z.land eax 0xFF000000) 24 mod 2 ^ 8) k
            = Z.testbit eax (k + 24)) as Hbit.
  { intros k Hk. rewrite Z.mod_pow2_bits_low, Z.shiftr_spec, Z.land_spec by lia.
    destruct Hk as [-> | ->];
      [change (Z.testbit 0xFF000000 (5 + 24)) with true
      |change (Z.testbit 0xFF000000 (6 + 24)) with true]; apply andb_true_r. }
  change 0x40 with (2 ^ 6). change 0x20 with (2 ^ 5). rewrite !land_bit by done.
  rewrite !Hbit by tauto. change (6 + 24) with 30. change (5 + 24) with 29.
  destruct (Z.testbit eax 30), (Z.testbit eax 29); done.
Qed.

(** ** The groups of [GetProcessorCache] *)

Lemma one_shl_cpu cpu : 0 ≤ cpu < MAX_CPUS → to_uint32 (shl32 1 cpu) = Z.shiftl 1 cpu.
Proof.
  unfold MAX_CPUS. intros Hcpu. unfold to_uint32, shl32, wrap32.
  rewrite (Z.mod_small cpu 32) by lia. rewrite Zminus_mod_idemp_l.
  replace (1 ≪ cpu + 2 ^ 31 - 2 ^ 31) with (1 ≪ cpu) by lia.
  rewrite Z.shiftl_1_l. apply Z.mod_small. split; [lia|].
  apply Z.pow_lt_mono_r; lia.
Qed.

Lemma get_group_cache_grouped m cpus gs c gs1 idx :
  grouped m cpus gs →
  (∀ g, g ∈ gs → groupMask g ≠ 0) →
  get_group_cache gs c = (gs1, idx) →
  grouped m cpus gs1 ∧
  (∃ g0, gs1 !! idx = Some g0 ∧ cacheSizes_2 g0 = c) ∧
  (∀ j g, gs1 !! j = Some g → j ≠ idx → groupMask g ≠ 0).
Proof.
  intros (Hnd & Hbits & Hall) Hne. unfold get_group_cache.
  destruct (list_find _ gs) as [[j g0]|] eqn:Hfind.
  - intros [= <- <-]. apply list_find_Some in Hfind as (Hj & Hc & _).
    split_and!; [done|by exists g0|].
    intros k g Hk _. apply Hne. by eapply list_elem_of_lookup_2.
  - intros [= <- <-]. apply list_find_None in Hfind.
    assert (∀ g, g ∈ gs → cacheSizes_2 g ≠ c) as Hnone
      by (intros g Hg; by apply (proj1 (Forall_forall _ _) Hfind g)).
    split_and!.
    + split_and!.
      * rewrite fmap_app. simpl. apply NoDup_app. split_and!; [done| |apply NoDup_singleton].
        intros s Hs Hs'. apply list_elem_of_singleton in Hs' as ->.
        apply list_elem_of_fmap in Hs as (g & Hgc & Hg). by apply (Hnone g).
      * intros g Hg i Hi. apply elem_of_app in Hg as [Hg|Hg]; [by apply Hbits|].
        apply list_elem_of_singleton in Hg as ->. simpl. rewrite Z.testbit_0_l.
        split; [done|]. intros (Hin & Hlt & Hc). exfalso.
        destruct (Hall i Hin Hlt) as (g & Hg & Hgc). apply (Hnone g Hg). congruence.
      * intros i Hin Hlt. destruct (Hall i Hin Hlt) as (g & Hg & Hgc).
        exists g. split; [|done]. apply elem_of_app. by left.
    + eexists. split; [by rewrite lookup_app_r, Nat.sub_diag by done|done].
    + intros j g Hj Hjne. apply Hne.
      apply lookup_app_Some in Hj as [Hj|[Hge Hj]]; [by eapply list_elem_of_lookup_2|].
      apply list_lookup_singleton_Some in Hj as [Hj _]. lia.
Qed.

Lemma sizes_add_cpu cpu (idx : nat) (gs : list ProcessorGroupCaches) :
  cacheSizes_2 <$> alter (add_cpu cpu) idx gs = cacheSizes_2 <$> gs.
Proof.
  revert idx. induction gs as [|g gs IH]; intros [|idx]; simpl; [done..|].
  f_equal. apply IH.
Qed.

Lemma cache_body_grouped m cpus gs cpu :
  0 ≤ cpu → grouped m cpus gs → (∀ g, g ∈ gs → groupMask g ≠ 0) →
  grouped m (cpus ++ [cpu]) (cache_body m gs cpu) ∧
  (∀ g, g ∈ cache_body m gs cpu → groupMask g ≠ 0).
Proof.
  intros Hcpu Hgr Hne. unfold cache_body.
  destruct (decide (MAX_CPUS ≤ cpu)) as [Hge|Hlt].
  { split; [|done]. destruct Hgr as (Hnd & Hbits & Hall). split_and!; [done| |].
    - intros g Hg i Hi. rewrite (Hbits g Hg i Hi), elem_of_app, list_elem_of_singleton.
      split; [tauto|]. intros ([?| ->] & ? & ?); [done|lia].
    - intros i [Hin| ->%list_elem_of_singleton]%elem_of_app Hlt; [by apply Hall|lia]. }
  assert (0 ≤ cpu < MAX_CPUS) as Hin by lia.
  destruct (get_group_cache gs (get_thread_cache m cpu)) as [gs1 idx] eqn:Hget.
  destruct (get_group_cache_grouped _ _ _ _ _ _ Hgr Hne Hget)
    as ((Hnd & Hbits & Hall) & (g0 & Hidx & Hc0) & Hne1).
  pose proof (sizes_add_cpu cpu idx gs1) as Hsizes.
  assert (∀ i, 0 ≤ i →
            Z.testbit (groupMask (add_cpu cpu g0)) i
            = Z.testbit (groupMask g0) i || bool_decide (i = cpu)) as Hset.
  { intros i Hi. unfold add_cpu. simpl. rewrite one_shl_cpu by done.
    by apply testbit_set. }
  split; [split_and!|].
  - by rewrite Hsizes.
  - intros g Hg i Hi. apply list_elem_of_lookup in Hg as [j Hj].
    rewrite elem_of_app, list_elem_of_singleton.
    destruct (decide (j = idx)) as [->|Hjne].
    + rewrite list_lookup_alter_eq, Hidx in Hj. injection Hj as <-.
      rewrite Hset by done. rewrite orb_true_iff, bool_decide_eq_true.
      rewrite (Hbits g0 (list_elem_of_lookup_2 _ _ _ Hidx) i Hi).
      change (cacheSizes_2 (add_cpu cpu g0)) with (cacheSizes_2 g0).
      split; [intros [(? & ? & ?)| ->]; [tauto|]|intros ([?| ->] & ? & ?); tauto].
      split_and!; [by right|lia|done].
    + rewrite list_lookup_alter_ne in Hj by done.
      rewrite (Hbits g (list_elem_of_lookup_2 _ _ _ Hj) i Hi).
      split; [tauto|]. intros ([?| ->] & ? & Hc); [done|]. exfalso.
      apply Hjne. eapply (NoDup_lookup _ _ _ _ Hnd).
      * by rewrite list_lookup_fmap, Hj.
      * rewrite list_lookup_fmap, Hidx. simpl. congruence.
  - intros i [Hi| ->%list_elem_of_singleton]%elem_of_app Hlt'.
    + destruct (Hall i Hi Hlt') as (g & Hg & Hgc).
      apply list_elem_of_lookup in Hg as [j Hj].
      destruct (decide (j = idx)) as [->|Hjne].
      * exists (add_cpu cpu g). split; [|done].
        apply list_elem_of_lookup. exists idx. by rewrite list_lookup_alter_eq, Hj.
      * exists g. split; [|done].
        apply list_elem_of_lookup. exists j. by rewrite list_lookup_alter_ne.
    + exists (add_cpu cpu g0). split; [|done].
      apply list_elem_of_lookup. exists idx. by rewrite list_lookup_alter_eq, Hidx.
  - intros g Hg. apply list_elem_of_lookup in Hg as [j Hj].
    destruct (decide (j = idx)) as [->|Hjne].
    + rewrite list_lookup_alter_eq, Hidx in Hj. injection Hj as <-.
      intros Hz. pose proof (Hset cpu Hcpu) as Hb. rewrite Hz, Z.testbit_0_l in Hb.
      rewrite (bool_decide_eq_true_2 (cpu = cpu)), orb_true_r in Hb by done. done.
    + rewrite list_lookup_alter_ne in Hj by done. by apply (Hne1 j).
Qed.

Lemma foldl_cache_body_grouped m new cpus gs :
  Forall (fun cpu => 0 ≤ cpu) new →
  grouped m cpus gs → (∀ g, g ∈ gs → groupMask g ≠ 0) →
  grouped m (cpus ++ new) (foldl (cache_body m) gs new) ∧
  (∀ g, g ∈ foldl (cache_body m) gs new → groupMask g ≠ 0).
Proof.
  intros Hnew. revert cpus gs.
  induction Hnew as [|cpu new Hcpu _ IH]; intros cpus gs Hgr Hne; simpl.
  - by rewrite app_nil_r.
  - destruct (cache_body_grouped m cpus gs cpu Hcpu Hgr Hne) as [Hgr1 Hne1].
    rewrite (cons_middle cpu cpus new), app_assoc. by apply IH.
Qed.

(** X16.  [GetProcessorCache] sorts the cpus from 0 below the smaller of the
    cpu count and [MAX_CPUS] into groups by the cache size read for them:
    no two groups have the same cache size, the mask of a group holds
    exactly the cpus with the cache size of the group, so that the masks of
    two groups have no cpu in common, no group is empty, and every such cpu
    is in a group. *)
Theorem GetProcessorCache_groups (m : Machine) :
  let groupCaches := GetProcessorCache m in
  NoDup (cacheSizes_2 <$> groupCaches) ∧
  (∀ g, g ∈ groupCaches → ∀ i,
     Z.testbit (groupMask g) i = true ↔
     0 ≤ i < Z.min (get_cpu_count m) MAX_CPUS ∧ get_thread_cache m i = cacheSizes_2 g) ∧
  (∀ j1 j2 g1 g2, groupCaches !! j1 = Some g1 → groupCaches !! j2 = Some g2 →
     j1 ≠ j2 → Z.land (groupMask g1) (groupMask g2) = 0) ∧
  (∀ g, g ∈ groupCaches → groupMask g ≠ 0) ∧
  (∀ i, 0 ≤ i < Z.min (get_cpu_count m) MAX_CPUS →
     ∃ g, g ∈ groupCaches ∧ Z.testbit (groupMask g) i = true).
Proof.
  intros groupCaches.
  destruct (foldl_cache_body_grouped m (seqZ 0 (get_cpu_count m)) [] [])
    as ((Hnd & Hbits & Hall) & Hne).
  { apply seqZ_nonneg. }
  { split_and!; [constructor|set_solver|set_solver]. }
  { set_solver. }
  simpl in Hnd, Hbits, Hall, Hne. fold (GetProcessorCache m) in Hnd, Hbits, Hall, Hne.
  fold groupCaches in Hnd, Hbits, Hall, Hne.
  assert (∀ g, g ∈ groupCaches → ∀ i,
     Z.testbit (groupMask g) i = true ↔
     0 ≤ i < Z.min (get_cpu_count m) MAX_CPUS ∧ get_thread_cache m i = cacheSizes_2 g)
    as Hbits'.
  { intros g Hg i. destruct (decide (0 ≤ i)) as [Hi|Hi].
    - rewrite (Hbits g Hg i Hi), elem_of_seqZ. lia.
    - rewrite Z.testbit_neg_r by lia. split; [done|lia]. }
  split_and!; [done|done| |done|].
  - intros j1 j2 g1 g2 H1 H2 Hj. apply Z.bits_inj'. intros i Hi.
    rewrite Z.land_spec, Z.testbit_0_l. apply andb_false_iff.
    destruct (Z.testbit (groupMask g1) i) eqn:E1; [|by left]. right.
    apply not_true_is_false. intros E2.
    apply (Hbits' g1 (list_elem_of_lookup_2 _ _ _ H1)) in E1 as [_ E1].
    apply (Hbits' g2 (list_elem_of_lookup_2 _ _ _ H2)) in E2 as [_ E2].
    apply Hj. eapply (NoDup_lookup _ _ _ _ Hnd).
    + by rewrite list_lookup_fmap, H1.
    + rewrite list_lookup_fmap, H2. simpl. congruence.
  - intros i Hi. destruct (Hall i) as (g & Hg & Hgc); [apply elem_of_seqZ; lia|lia|].
    exists g. split; [done|]. by apply Hbits'.
Qed.

End cpu_topology_facts.

(** * Properties of the floating-point environment control *)
Module streflop_facts.
Import streflop.

Lemma testbit_above a n i : 0 ≤ a < 2 ^ n → n ≤ i → Z.testbit a i = false.
Proof.
  intros Ha Hi. assert (0 ≤ n).
  { destruct (decide (0 ≤ n)); [done|]. rewrite Z.pow_neg_r in Ha; lia. }
  rewrite <- (Z.mod_small a (2 ^ n)) by done. apply Z.mod_pow2_bits_high. lia.
Qed.

Lemma below_by_bits a n :
  0 ≤ n → 0 ≤ a → (∀ i, n ≤ i → Z.testbit a i = false) → a < 2 ^ n.
Proof.
  intros Hn Ha Hbits.
  assert (a mod 2 ^ n = a) as <-; [|apply Z.mod_pos_bound; lia].
  apply Z.bits_inj'. intros i Hi. destruct (decide (i < n)).
  - by apply Z.mod_pow2_bits_low.
  - rewrite Z.mod_pow2_bits_high by lia. symmetry. apply Hbits. lia.
Qed.

Lemma land_below a b n : 0 ≤ a < 2 ^ n → 0 ≤ Z.land a b < 2 ^ n.
Proof.
  intros Ha. assert (0 ≤ n).
  { destruct (decide (0 ≤ n)); [done|]. rewrite Z.pow_neg_r in Ha; lia. }
  assert (0 ≤ Z.land a b) by (apply Z.land_nonneg; lia).
  split; [done|]. apply below_by_bits; [done..|].
  intros i Hi. by rewrite Z.land_spec, (testbit_above a n i).
Qed.

Lemma lor_below a b n : 0 ≤ a < 2 ^ n → 0 ≤ b < 2 ^ n → 0 ≤ Z.lor a b < 2 ^ n.
Proof.
  intros Ha Hb. assert (0 ≤ n).
  { destruct (decide (0 ≤ n)); [done|]. rewrite Z.pow_neg_r in Ha; lia. }
  assert (0 ≤ Z.lor a b) by (apply Z.lor_nonneg; lia).
  split; [done|]. apply below_by_bits; [done..|].
  intros i Hi. by rewrite Z.lor_spec, (testbit_above a n i), (testbit_above b n i).
Qed.

Lemma land_below_r a b n : 0 ≤ b < 2 ^ n → 0 ≤ Z.land a b < 2 ^ n.
Proof. rewrite Z.land_comm. apply land_below. Qed.

(** Two numbers of 16 bits are equal if their low 16 bits are. *)
Lemma eq_by_bits a b :
  0 ≤ a < 2 ^ 16 → 0 ≤ b < 2 ^ 16 →
  (∀ k : nat, (k < 16)%nat → Z.testbit a (Z.of_nat k) = Z.testbit b (Z.of_nat k)) →
  a = b.
Proof.
  intros Ha Hb Hbits. apply Z.bits_inj'. intros i Hi.
  destruct (decide (i < 16)).
  - rewrite <- (Z2Nat.id i) by done. apply Hbits. lia.
  - by rewrite (testbit_above a 16), (testbit_above b 16) by lia.
Qed.

Lemma shl32_small a n : 0 ≤ n < 32 → 0 ≤ a → a * 2 ^ n < 2 ^ 31 → shl32 a n = Z.shiftl a n.
Proof.
  intros Hn Ha Hlt. unfold shl32. rewrite (Z.mod_small n 32) by lia.
  rewrite Z.shiftl_mul_pow2 by lia. apply wrap32_small. nia.
Qed.

(** Bit [K] of a closed expression over [Z.land], [Z.lor], [Z.lnot] and
    shifts by constants, brought to a Boolean expression over the bits of
    the variables. *)
Ltac bit_step :=
  first
    [ rewrite Z.land_spec | rewrite Z.lor_spec | rewrite Z.ldiff_spec
    | rewrite Z.lnot_spec by (vm_compute; discriminate)
    | rewrite Z.shiftl_spec by (vm_compute; discriminate)
    | rewrite Z.shiftr_spec by (vm_compute; discriminate) ].

Ltac bit_index :=
  repeat match goal with
    | |- context [Z.of_nat ?n] =>
        let v := eval vm_compute in (Z.of_nat n) in change (Z.of_nat n) with v
    | |- context [Z.testbit ?a (?i + ?j)] =>
        let v := eval vm_compute in (i + j) in change (i + j) with v
    | |- context [Z.testbit ?a (?i - ?j)] =>
        let v := eval vm_compute in (i - j) in change (i - j) with v
    end.

Ltac bit_const :=
  repeat match goal with
    | |- context [Z.testbit ?a (Z.neg ?p)] =>
        rewrite (Z.testbit_neg_r a (Z.neg p)) by (vm_compute; reflexivity)
    | |- context [Z.testbit (Z.pos ?c) ?k] =>
        let v := eval vm_compute in (Z.testbit (Z.pos c) k) in
        change (Z.testbit (Z.pos c) k) with v
    | |- context [Z.testbit 0 ?k] => rewrite (Z.testbit_0_l k)
    end.

Ltac bit_atoms :=
  repeat match goal with
    | |- context [Z.testbit ?a ?k] => generalize (Z.testbit a k); intro
    end;
  repeat match goal with b : bool |- _ => destruct b end; try reflexivity.

Ltac bit_at := bit_index; repeat (bit_step; bit_index); bit_const.

(** A number built from numbers of 16 bits stays within 16 bits. *)
Ltac bounded :=
  first [ assumption | lia
        | apply lor_below; bounded
        | apply land_below; bounded
        | apply land_below_r; bounded
        | rewrite Z.ldiff_land; apply land_below; bounded ].

(** An equation between two numbers of 16 bits, bit by bit. *)
Ltac by_bits :=
  apply eq_by_bits;
  [ bounded | bounded | let k := fresh "k" in let Hk := fresh "Hk" in
        intros k Hk;
        do 16 (destruct k as [|k]; [bit_at; bit_atoms|]); exfalso; lia ].

(** One bit of two numbers of 16 bits, the same away from the bits that
    the context rules out. *)
Ltac same_bit i :=
  destruct (decide (i < 0));
  [ by rewrite !Z.testbit_neg_r by lia
  | destruct (decide (16 ≤ i));
    [ by rewrite !(testbit_above _ 16 i) by (assumption || lia)
    | let k := fresh "k" in
      assert (∃ k : nat, i = Z.of_nat k) as [k ->] by (exists (Z.to_nat i); lia);
      do 16 (destruct k as [|k];
             [try (exfalso; lia); bit_at; bit_atoms|]);
      exfalso; lia ] ].

(** ** The rounding mode *)

Lemma fesetround_mxcsr r s :
  regs_ok s → round_mode r →
  mxcsr (fesetround r s) = Z.lor (Z.land (mxcsr s) 0xFFFF9FFF) (Z.shiftl r 3) ∧
  0 ≤ mxcsr (fesetround r s) < 2 ^ 16.
Proof.
  intros [_ Hm] Hr. unfold fesetround, to_uint32. simpl.
  rewrite (Z.mod_small (mxcsr s)) by lia.
  pose proof (land_below (mxcsr s) 0xFFFF9FFF 16 Hm).
  rewrite wrap32_small by lia.
  assert (shl32 r 3 = Z.shiftl r 3 ∧ 0 ≤ Z.shiftl r 3 < 2 ^ 16) as [-> Hs]
    by (destruct Hr as [-> | [-> | [-> | ->]]]; by vm_compute).
  split; [done|]. by apply lor_below.
Qed.

Lemma fegetround_fesetround r s :
  regs_ok s → round_mode r → fegetround (fesetround r s) = r.
Proof.
  intros Hs Hr. destruct (fesetround_mxcsr r s Hs Hr) as [Hmx _].
  unfold fegetround. rewrite Hmx.
  destruct Hr as [-> | [-> | [-> | ->]]];
    unfold FE_TONEAREST, FE_DOWNWARD, FE_UPWARD, FE_TOWARDZERO;
    by_bits.
Qed.

Lemma fegetround_mode s : regs_ok s → round_mode (fegetround s).
Proof.
  intros [_ Hm]. unfold fegetround, round_mode.
  destruct (Z.testbit (mxcsr s) 13) eqn:E13, (Z.testbit (mxcsr s) 14) eqn:E14;
    [do 3 right|right; left|do 2 right; left|left];
    unfold FE_TONEAREST, FE_DOWNWARD, FE_UPWARD, FE_TOWARDZERO;
    (apply eq_by_bits; [apply land_below_r; lia|lia|]);
    intros k Hk;
    do 16 (destruct k as [|k]; [bit_at; rewrite ?E13, ?E14; bit_atoms|]);
    exfalso; lia.
Qed.

(** X17.  In the build for SSE, [fesetround] with one of the four rounding
    modes and [fegetround] agree: the mode that is set is the mode that is
    then read.  Setting it changes bits 13 and 14 of MXCSR and nothing else:
    not the other bits of the register, not the control word of the x87
    unit, whose own rounding field stays as it was, not [FE_DFL_ENV]; the
    mode set last is the one that counts, and what [fegetround] reads is
    always one of the four modes. *)
Theorem fesetround_fegetround (r : Z) (s : FPU) :
  regs_ok s → round_mode r →
  fegetround (fesetround r s) = r ∧
  (∀ i, i ≠ 13 → i ≠ 14 →
     Z.testbit (mxcsr (fesetround r s)) i = Z.testbit (mxcsr s) i) ∧
  fpu_cw (fesetround r s) = fpu_cw s ∧
  FE_DFL_ENV (fesetround r s) = FE_DFL_ENV s ∧
  regs_ok (fesetround r s) ∧
  (∀ r', round_mode r' → fesetround r' (fesetround r s) = fesetround r' s) ∧
  round_mode (fegetround s).
Proof.
  intros Hs Hr. pose proof Hs as [Hcw Hm].
  destruct (fesetround_mxcsr r s Hs Hr) as [Hmx Hbound].
  assert (regs_ok (fesetround r s)) as Hs' by (split; [exact Hcw|exact Hbound]).
  split_and!; [by apply fegetround_fesetround| |done|done|done| |by apply fegetround_mode].
  - intros i H13 H14. rewrite Hmx.
    assert (0 ≤ Z.lor (Z.land (mxcsr s) 0xFFFF9FFF) (Z.shiftl r 3) < 2 ^ 16) as Hb
      by (by rewrite <- Hmx).
    destruct Hr as [-> | [-> | [-> | ->]]];
      unfold FE_TONEAREST, FE_DOWNWARD, FE_UPWARD, FE_TOWARDZERO in *; same_bit i.
  - intros r' Hr'.
    destruct (fesetround_mxcsr r' s Hs Hr') as [Hmx1 Hb1].
    destruct (fesetround_mxcsr r' (fesetround r s) Hs' Hr') as [Hmx2 Hb2].
    assert (mxcsr (fesetround r' (fesetround r s)) = mxcsr (fesetround r' s)) as Heq.
    { rewrite Hmx in Hmx2. rewrite Hmx2 in Hb2 |- *. rewrite Hmx1 in Hb1 |- *.
      destruct Hr as [-> | [-> | [-> | ->]]], Hr' as [-> | [-> | [-> | ->]]];
        unfold FE_TONEAREST, FE_DOWNWARD, FE_UPWARD, FE_TOWARDZERO in *;
        by_bits. }
    unfold fesetround in Heq |- *. simpl in Heq |- *. by rewrite Heq.
Qed.

(** A processor as it starts, with round to nearest, set to round up. *)
Lemma fesetround_fegetround_witness :
  fegetround (fesetround FE_UPWARD (mk_FPU 0x037F 0x1F80 (mk_fpenv_t 0 0))) = FE_UPWARD.
Proof.
  apply (fesetround_fegetround FE_UPWARD (mk_FPU 0x037F 0x1F80 (mk_fpenv_t 0 0))).
  - unfold regs_ok. simpl. lia.
  - unfold round_mode. tauto.
Defined.

(** ** The exception masks *)

Lemma FPU_eq s1 s2 :
  fpu_cw s1 = fpu_cw s2 → mxcsr s1 = mxcsr s2 → FE_DFL_ENV s1 = FE_DFL_ENV s2 → s1 = s2.
Proof. destruct s1, s2. simpl. by intros -> -> ->. Qed.

Lemma feraiseexcept_regs e s :
  regs_ok s → 0 ≤ e ≤ FE_ALL_EXCEPT →
  fpu_cw (feraiseexcept e s) = Z.ldiff (fpu_cw s) e ∧
  mxcsr (feraiseexcept e s) = Z.ldiff (mxcsr s) (Z.shiftl e 7) ∧
  regs_ok (feraiseexcept e s).
Proof.
  unfold FE_ALL_EXCEPT. intros [Hcw Hm] He. unfold feraiseexcept, regs_ok, to_uint16. simpl.
  rewrite shl32_small by lia. rewrite <- !Z.ldiff_land.
  pose proof (land_below (fpu_cw s) (Z.lnot e) 16 Hcw) as H1.
  pose proof (land_below (mxcsr s) (Z.lnot (Z.shiftl e 7)) 16 Hm) as H2.
  rewrite <- !Z.ldiff_land in H1, H2. rewrite Z.mod_small by lia. done.
Qed.

Lemma feclearexcept_regs e s :
  regs_ok s → 0 ≤ e ≤ FE_ALL_EXCEPT →
  fpu_cw (feclearexcept e s) = Z.lor (fpu_cw s) e ∧
  mxcsr (feclearexcept e s) = Z.lor (mxcsr s) (Z.shiftl e 7) ∧
  regs_ok (feclearexcept e s).
Proof.
  unfold FE_ALL_EXCEPT. intros [Hcw Hm] He. unfold feclearexcept, regs_ok, to_uint16. simpl.
  rewrite shl32_small by lia.
  assert (0 ≤ Z.shiftl e 7 < 2 ^ 16) as Hs by (rewrite Z.shiftl_mul_pow2; lia).
  assert (0 ≤ Z.lor (fpu_cw s) e < 2 ^ 16) as H1 by (apply lor_below; lia).
  pose proof (lor_below (mxcsr s) (Z.shiftl e 7) 16 Hm Hs) as H2.
  rewrite Z.mod_small by lia. done.
Qed.

(** The bits of a set of exceptions above the sixth are zero. *)
Ltac bits_of e :=
  repeat match goal with
    | |- context [Z.testbit e ?k] => rewrite (testbit_above e 6 k) by lia
    end.

Ltac by_bits_of e :=
  apply eq_by_bits;
  [ bounded | bounded | let k := fresh "k" in let Hk := fresh "Hk" in
        intros k Hk;
        do 16 (destruct k as [|k]; [bit_at; bits_of e; bit_atoms|]); exfalso; lia ].

(** X18.  In the build for SSE, for a set [e] of the six exceptions:
    [feraiseexcept e] clears the mask bits of [e] in the control word of the
    x87 unit (bits 0 to 5) and in MXCSR (bits 7 to 12), and [feclearexcept e]
    sets them; each leaves every other bit of the two registers, the
    rounding mode among them, and [FE_DFL_ENV] as they were; of two calls
    for the same set the second decides. *)
Theorem exception_masks (e : Z) (s : FPU) :
  regs_ok s → 0 ≤ e ≤ FE_ALL_EXCEPT →
  let s1 := feraiseexcept e s in
  let s2 := feclearexcept e s in
  Z.land (fpu_cw s1) e = 0 ∧ Z.land (Z.shiftr (mxcsr s1) 7) e = 0 ∧
  Z.land (fpu_cw s2) e = e ∧ Z.land (Z.shiftr (mxcsr s2) 7) e = e ∧
  Z.ldiff (fpu_cw s1) e = Z.ldiff (fpu_cw s) e ∧
  Z.ldiff (fpu_cw s2) e = Z.ldiff (fpu_cw s) e ∧
  Z.ldiff (mxcsr s1) (Z.shiftl e 7) = Z.ldiff (mxcsr s) (Z.shiftl e 7) ∧
  Z.ldiff (mxcsr s2) (Z.shiftl e 7) = Z.ldiff (mxcsr s) (Z.shiftl e 7) ∧
  fegetround s1 = fegetround s ∧ fegetround s2 = fegetround s ∧
  FE_DFL_ENV s1 = FE_DFL_ENV s ∧ FE_DFL_ENV s2 = FE_DFL_ENV s ∧
  regs_ok s1 ∧ regs_ok s2 ∧
  feclearexcept e s1 = s2 ∧ feraiseexcept e s2 = s1.
Proof.
  intros Hs He s1 s2. pose proof Hs as [Hcw Hm].
  destruct (feraiseexcept_regs e s Hs He) as (Hc1 & Hm1 & Hs1).
  destruct (feclearexcept_regs e s Hs He) as (Hc2 & Hm2 & Hs2).
  destruct (feclearexcept_regs e s1 Hs1 He) as (Hc12 & Hm12 & _).
  destruct (feraiseexcept_regs e s2 Hs2 He) as (Hc21 & Hm21 & _).
  fold s1 in Hc1, Hm1, Hs1, Hc12, Hm12. fold s2 in Hc2, Hm2, Hs2, Hc21, Hm21.
  assert (0 ≤ e < 2 ^ 6) as He6 by (unfold FE_ALL_EXCEPT in He; lia).
  assert (0 ≤ e < 2 ^ 16) as He16 by lia.
  assert (0 ≤ Z.shiftl e 7 < 2 ^ 16) as Hsh by (rewrite Z.shiftl_mul_pow2; lia).
  pose proof Hs1 as [Hcw1 Hmx1]. pose proof Hs2 as [Hcw2 Hmx2].
  split_and!; try done.
  - rewrite Hc1. by_bits_of e.
  - rewrite Hm1. by_bits_of e.
  - rewrite Hc2. by_bits_of e.
  - rewrite Hm2. by_bits_of e.
  - rewrite Hc1. by_bits_of e.
  - rewrite Hc2. by_bits_of e.
  - rewrite Hm1. by_bits_of e.
  - rewrite Hm2. by_bits_of e.
  - unfold fegetround. rewrite Hm1. by_bits_of e.
  - unfold fegetround. rewrite Hm2. by_bits_of e.
  - apply FPU_eq; [| |done].
    + rewrite Hc12, Hc2, Hc1. by_bits_of e.
    + rewrite Hm12, Hm2, Hm1. by_bits_of e.
  - apply FPU_eq; [| |done].
    + rewrite Hc21, Hc1, Hc2. by_bits_of e.
    + rewrite Hm21, Hm1, Hm2. by_bits_of e.
Qed.

(** Overflow and division by zero on a processor as it starts. *)
Lemma exception_masks_witness :
  Z.land (fpu_cw (feraiseexcept (Z.lor FE_OVERFLOW FE_DIVBYZERO)
                    (mk_FPU 0x037F 0x1F80 (mk_fpenv_t 0 0))))
         (Z.lor FE_OVERFLOW FE_DIVBYZERO) = 0.
Proof.
  apply (exception_masks (Z.lor FE_OVERFLOW FE_DIVBYZERO)
           (mk_FPU 0x037F 0x1F80 (mk_fpenv_t 0 0))).
  - unfold regs_ok. simpl. lia.
  - by vm_compute.
Defined.

(** ** Saving and restoring the environment *)

Lemma feclearexcept_fegetround e s :
  regs_ok s → 0 ≤ e ≤ FE_ALL_EXCEPT →
  fegetround (feclearexcept e s) = fegetround s.
Proof.
  intros Hs He. pose proof Hs as [Hcw Hm].
  destruct (feclearexcept_regs e s Hs He) as (_ & Hm2 & _).
  assert (0 ≤ e < 2 ^ 6) as He6 by (unfold FE_ALL_EXCEPT in He; lia).
  assert (0 ≤ Z.shiftl e 7 < 2 ^ 16) as Hsh by (rewrite Z.shiftl_mul_pow2; lia).
  unfold fegetround. rewrite Hm2. by_bits_of e.
Qed.

(** X19.  In the build for SSE: [feholdexcept] stores the two control
    registers as they are in the environment of the caller and then masks
    all six exceptions in both units, leaving the other bits of the
    registers, the rounding mode among them, alone; [fegetenv] stores the
    registers and changes neither; [fesetenv] with an environment stored by
    either brings both registers back to what they were when it was stored,
    whatever was done to them since.  [FE_DFL_ENV] takes the value of a
    register the first time any of the three is called with its field still
    zero, and a field that is not zero is never written again;
    [fesetenv(&FE_DFL_ENV)] loads what [FE_DFL_ENV] holds after this. *)
Theorem environment_round_trip (s s' : FPU) :
  regs_ok s →
  let held := feholdexcept s in
  let got := fegetenv s in
  held.2 = mk_fpenv_t (mxcsr s) (fpu_cw s) ∧ got.2 = held.2 ∧
  fpu_cw got.1 = fpu_cw s ∧ mxcsr got.1 = mxcsr s ∧
  fpu_cw held.1 = Z.lor (fpu_cw s) FE_ALL_EXCEPT ∧
  mxcsr held.1 = Z.lor (mxcsr s) (Z.shiftl FE_ALL_EXCEPT 7) ∧
  fegetround held.1 = fegetround s ∧
  fpu_cw (fesetenv (Env held.2) s') = fpu_cw s ∧
  mxcsr (fesetenv (Env held.2) s') = mxcsr s ∧
  FE_DFL_ENV held.1 = save_default s ∧ FE_DFL_ENV got.1 = save_default s ∧
  FE_DFL_ENV (fesetenv (Env held.2) s') = save_default s' ∧
  (x87_mode (FE_DFL_ENV s') ≠ 0 → x87_mode (save_default s') = x87_mode (FE_DFL_ENV s')) ∧
  (sse_mode (FE_DFL_ENV s') ≠ 0 → sse_mode (save_default s') = sse_mode (FE_DFL_ENV s')) ∧
  (x87_mode (FE_DFL_ENV s') = 0 → x87_mode (save_default s') = fpu_cw s') ∧
  (sse_mode (FE_DFL_ENV s') = 0 → sse_mode (save_default s') = mxcsr s') ∧
  fpu_cw (fesetenv DflEnv s') = x87_mode (save_default s') ∧
  mxcsr (fesetenv DflEnv s') = sse_mode (save_default s').
Proof.
  intros Hs held got.
  assert (regs_ok (fegetenv s).1) as Hs1 by done.
  assert (0 ≤ FE_ALL_EXCEPT ≤ FE_ALL_EXCEPT) as He by done.
  destruct (feclearexcept_regs FE_ALL_EXCEPT (fegetenv s).1 Hs1 He) as (Hc & Hm & _).
  pose proof (feclearexcept_fegetround FE_ALL_EXCEPT (fegetenv s).1 Hs1 He) as Hr.
  unfold save_default. simpl.
  split_and!; try done; by case_decide.
Qed.

(** A processor as it starts. *)
Lemma environment_round_trip_witness :
  (feholdexcept (mk_FPU 0x037F 0x1F80 (mk_fpenv_t 0 0))).2 = mk_fpenv_t 0x1F80 0x037F.
Proof.
  apply (environment_round_trip (mk_FPU 0x037F 0x1F80 (mk_fpenv_t 0 0))
           (mk_FPU 0x037F 0x1F80 (mk_fpenv_t 0 0))).
  unfold regs_ok. simpl. lia.
Defined.

(** ** Initialisation for a precision *)

Lemma streflop_init_regs s :
  regs_ok s →
  fpu_cw (streflop_init_Simple s) = Z.land (fpu_cw s) 0xFCFF ∧
  fpu_cw (streflop_init_Double s) = Z.lor (Z.land (fpu_cw s) 0xFCFF) 0x0200 ∧
  mxcsr (streflop_init_Simple s) = Z.land (mxcsr s) 0xFFFF7FBF ∧
  mxcsr (streflop_init_Double s) = Z.land (mxcsr s) 0xFFFF7FBF ∧
  regs_ok (streflop_init_Simple s) ∧ regs_ok (streflop_init_Double s).
Proof.
  intros [Hcw Hm].
  unfold streflop_init_Simple, streflop_init_Double, regs_ok, to_uint16, to_uint32. simpl.
  rewrite (Z.mod_small (mxcsr s)) by lia.
  assert (0 ≤ Z.land (fpu_cw s) 0xFCFF < 2 ^ 16) as H1 by bounded.
  assert (0 ≤ Z.lor (Z.land (fpu_cw s) 0xFCFF) 0x0200 < 2 ^ 16) as H2 by bounded.
  assert (0 ≤ Z.land (mxcsr s) 0xFFFF7FBF < 2 ^ 16) as H3 by bounded.
  rewrite (Z.mod_small (Z.land (fpu_cw s) 0xFCFF)) by lia.
  rewrite (Z.mod_small (Z.lor _ _)) by lia. rewrite wrap32_small by lia. done.
Qed.

(** X20.  In the build for SSE without [STREFLOP_NO_DENORMALS],
    [streflop_init<Simple>] sets the precision control of the x87 unit
    (bits 8 and 9 of its control word) to 00 and [streflop_init<Double>]
    sets it to 10; both clear the denormals-are-zero and the flush-to-zero
    bit of MXCSR (bits 6 and 15); neither touches another bit of the two
    registers, so that the rounding mode and the exception masks stay, nor
    [FE_DFL_ENV].  Calling either a second time changes nothing, and of a
    call of each the second decides. *)
Theorem streflop_init_precision (s : FPU) :
  regs_ok s →
  let s1 := streflop_init_Simple s in
  let s2 := streflop_init_Double s in
  Z.land (fpu_cw s1) 0x0300 = 0 ∧ Z.land (fpu_cw s2) 0x0300 = 0x0200 ∧
  Z.land (mxcsr s1) 0x8040 = 0 ∧ mxcsr s2 = mxcsr s1 ∧
  Z.ldiff (fpu_cw s1) 0x0300 = Z.ldiff (fpu_cw s) 0x0300 ∧
  Z.ldiff (fpu_cw s2) 0x0300 = Z.ldiff (fpu_cw s) 0x0300 ∧
  Z.ldiff (mxcsr s1) 0x8040 = Z.ldiff (mxcsr s) 0x8040 ∧
  fegetround s1 = fegetround s ∧ fegetround s2 = fegetround s ∧
  FE_DFL_ENV s1 = FE_DFL_ENV s ∧ FE_DFL_ENV s2 = FE_DFL_ENV s ∧
  regs_ok s1 ∧ regs_ok s2 ∧
  streflop_init_Simple s1 = s1 ∧ streflop_init_Double s2 = s2 ∧
  streflop_init_Double s1 = s2 ∧ streflop_init_Simple s2 = s1.
Proof.
  intros Hs s1 s2. pose proof Hs as [Hcw Hm].
  destruct (streflop_init_regs s Hs) as (Hc1 & Hc2 & Hm1 & Hm2 & Hs1 & Hs2).
  destruct (streflop_init_regs s1 Hs1) as (Hc11 & Hc12 & Hm11 & Hm12 & _).
  destruct (streflop_init_regs s2 Hs2) as (Hc21 & Hc22 & Hm21 & Hm22 & _).
  fold s1 in Hc1, Hm1, Hs1, Hc11, Hc12, Hm11, Hm12.
  fold s2 in Hc2, Hm2, Hs2, Hc21, Hc22, Hm21, Hm22.
  split_and!; try done.
  - rewrite Hc1. by_bits.
  - rewrite Hc2. by_bits.
  - rewrite Hm1. by_bits.
  - rewrite Hc1. by_bits.
  - rewrite Hc2. by_bits.
  - rewrite Hm1. by_bits.
  - unfold fegetround. rewrite Hm1. by_bits.
  - unfold fegetround. rewrite Hm2. by_bits.
  - apply FPU_eq; [| |done].
    + rewrite Hc11, Hc1. by_bits.
    + rewrite Hm11, Hm1. by_bits.
  - apply FPU_eq; [| |done].
    + rewrite Hc22, Hc2. by_bits.
    + rewrite Hm22, Hm2. by_bits.
  - apply FPU_eq; [| |done].
    + rewrite Hc12, Hc1, Hc2. by_bits.
    + rewrite Hm12, Hm1, Hm2. by_bits.
  - apply FPU_eq; [| |done].
    + rewrite Hc21, Hc2, Hc1. by_bits.
    + rewrite Hm21, Hm2, Hm1. by_bits.
Qed.

(** A processor as it starts, with extended precision. *)
Lemma streflop_init_precision_witness :
  Z.land (fpu_cw (streflop_init_Simple (mk_FPU 0x037F 0x1F80 (mk_fpenv_t 0 0)))) 0x0300 = 0.
Proof.
  apply (streflop_init_precision (mk_FPU 0x037F 0x1F80 (mk_fpenv_t 0 0))).
  unfold regs_ok. simpl. lia.
Defined.

End streflop_facts.
